(** * A shallow embedding of the LibCST native whitespace parser, node model
    and code generator (src/native/libcst_tokenize/src/whitespace_parser.rs,
    src/native/libcst_nodes/src/whitespace.rs,
    src/libcst_native/src/parser/{statement,expression,grammar}.rs,
    src/native/libcst/src/lib.rs). *)

From Stdlib Require Import Ascii String List Arith Lia Bool ZArith Setoid Morphisms.
Import ListNotations.

(** ** Byte strings *)

(** A Rust [&str] is modelled by its UTF-8 bytes; [s_] turns a literal into
    such a byte list. *)
Abbreviation str := (list ascii).

Definition s_ (s : string) : str := list_ascii_of_string s.

Definition NL : ascii := "010".
Definition CR : ascii := "013".
Definition TAB : ascii := "009".
Definition FF : ascii := "012".
Definition SPACE : ascii := " ".
Definition BACKSLASH : ascii := "\".
Definition HASH : ascii := "#".

Fixpoint str_eqb (a b : str) : bool :=
  match a, b with
  | [], [] => true
  | x :: a', y :: b' => Ascii.eqb x y && str_eqb a' b'
  | _, _ => false
  end.

(** [str::starts_with] *)
Fixpoint starts_with (s p : str) : bool :=
  match p, s with
  | [], _ => true
  | c :: p', d :: s' => Ascii.eqb c d && starts_with s' p'
  | _ :: _, [] => false
  end.

(** UTF-8 continuation bytes are [0b10xxxxxx]. *)
Definition is_cont_byte (c : ascii) : bool :=
  let n := nat_of_ascii c in (128 <=? n) && (n <? 192).

(** [str::chars().count()] *)
Definition char_count (s : str) : nat :=
  length (filter (fun c => negb (is_cont_byte c)) s).

(** [str::is_char_boundary] *)
Definition is_char_boundary (s : str) (i : nat) : bool :=
  (i =? 0) || (i =? length s)
  || ((i <? length s) && negb (is_cont_byte (nth i s "000"%char))).

Definition has_backslash (s : str) : bool := existsb (Ascii.eqb BACKSLASH) s.

Definition is_line_break (c : ascii) : bool := Ascii.eqb c CR || Ascii.eqb c NL.

Fixpoint take_while (p : ascii -> bool) (s : str) : str :=
  match s with
  | [] => []
  | c :: s' => if p c then c :: take_while p s' else []
  end.

(** [slice::last] *)
Fixpoint last_opt {A} (l : list A) : option A :=
  match l with
  | [] => None
  | [x] => Some x
  | _ :: l' => last_opt l'
  end.

(** ** The three regular expressions of whitespace_parser.rs *)

(** [NEWLINE_RE = \A(\r\n?|\n)] *)
Definition newline_re (s : str) : option str :=
  match s with
  | c :: r =>
      if Ascii.eqb c CR then
        match r with
        | d :: _ => if Ascii.eqb d NL then Some [CR; NL] else Some [CR]
        | [] => Some [CR]
        end
      else if Ascii.eqb c NL then Some [NL] else None
  | [] => None
  end.

(** [COMMENT_RE = \A#[^\r\n]*] *)
Definition comment_re (s : str) : option str :=
  match s with
  | c :: r =>
      if Ascii.eqb c HASH then Some (c :: take_while (fun x => negb (is_line_break x)) r)
      else None
  | [] => None
  end.

Definition is_simple_space (c : ascii) : bool :=
  Ascii.eqb c SPACE || Ascii.eqb c FF || Ascii.eqb c TAB.

(** [SIMPLE_WHITESPACE_RE = \A([ \f\t]|\\(\r\n?|\n))*]: the leftmost-first
    match of a greedy star with nothing after it, i.e. the greedy scan
    (inside an iteration [\r\n] is preferred to [\r]). *)
Fixpoint simple_whitespace_re (s : str) : str :=
  match s with
  | [] => []
  | c :: r =>
      if is_simple_space c then c :: simple_whitespace_re r
      else if Ascii.eqb c BACKSLASH then
        match r with
        | d :: r2 =>
            if Ascii.eqb d CR then
              match r2 with
              | e :: r3 =>
                  if Ascii.eqb e NL then c :: d :: e :: simple_whitespace_re r3
                  else c :: d :: simple_whitespace_re r2
              | [] => [c; d]
              end
            else if Ascii.eqb d NL then c :: d :: simple_whitespace_re r2
            else []
        | [] => []
        end
      else []
  end.

(** ** Results and the scan-state monad *)

Inductive WhitespaceError :=
| WTF
| InternalError (msg : string)
| TrailingWhitespaceError.

(** [Ok] and [Err] are Rust's; [Panicked] is a Rust panic (slice out of
    range, usize underflow, [todo!()]); [OutOfFuel] marks a loop that has
    not exited within the iteration bound given to it. *)
Inductive Result (A : Type) :=
| Ok (a : A)
| Err (e : WhitespaceError)
| Panicked
| OutOfFuel.
Arguments Ok {A} a.
Arguments Err {A} e.
Arguments Panicked {A}.
Arguments OutOfFuel {A}.

Definition rbind {A B} (r : Result A) (f : A -> Result B) : Result B :=
  match r with
  | Ok a => f a
  | Err e => Err e
  | Panicked => Panicked
  | OutOfFuel => OutOfFuel
  end.

(** [State<'a>] of whitespace_parser.rs *)
Record State := mkState {
  line : nat;
  column : nat;
  column_byte : nat;
  absolute_indent : str;
  is_parenthesized : bool;
  byte_offset : nat
}.

Definition default_state : State := mkState 1 0 0 [] false 0.

Definition set_pos (st : State) (l c cb off : nat) : State :=
  mkState l c cb (absolute_indent st) (is_parenthesized st) off.

(** [Config<'a>] *)
Record Config := mkConfig {
  input : str;
  lines : list str;
  default_newline : str
}.

(** A function taking [state: &mut State] and returning [Result<A>]: the
    state after the call is returned on every outcome. *)
Definition M (A : Type) := State -> Result A * State.

Definition ret {A} (a : A) : M A := fun st => (Ok a, st).
Definition throw {A} (e : WhitespaceError) : M A := fun st => (Err e, st).
Definition lift {A} (r : Result A) : M A := fun st => (r, st).
Definition get : M State := fun st => (Ok st, st).
Definition put (st' : State) : M unit := fun _ => (Ok tt, st').

Definition bind {A B} (m : M A) (f : A -> M B) : M B :=
  fun st =>
    match m st with
    | (Ok a, st') => f a st'
    | (Err e, st') => (Err e, st')
    | (Panicked, st') => (Panicked, st')
    | (OutOfFuel, st') => (OutOfFuel, st')
    end.

Notation "x <- m ;; k" := (bind m (fun x => k))
  (at level 61, m at next level, right associativity).
Notation "m ;;; k" := (bind m (fun _ => k))
  (at level 61, right associativity).

(** ** Config accessors and cursor movement *)

Definition get_line (cfg : Config) (line_number : nat) : Result str :=
  match line_number with
  | 0 => Err (InternalError "tried to get line which is out of range")
  | S k =>
      match nth_error (lines cfg) k with
      | Some l => Ok l
      | None => Err (InternalError "tried to get line which is out of range")
      end
  end.

Definition get_line_after_column (cfg : Config) (line_number column_index : nat)
  : Result str :=
  rbind (get_line cfg line_number) (fun l =>
    if is_char_boundary l column_index then Ok (skipn column_index l)
    else Err (InternalError "Column index out of range for line")).

Definition advance_to_next_line (cfg : Config) : M unit :=
  fun st =>
    match get_line cfg (line st) with
    | Ok cur =>
        (* [cur_line.len() - state.column_byte] on usize *)
        if column_byte st <=? length cur then
          (Ok tt, set_pos st (S (line st)) 0 0
                    (byte_offset st + (length cur - column_byte st)))
        else (Panicked, st)
    | Err e => (Err e, st)
    | Panicked => (Panicked, st)
    | OutOfFuel => (OutOfFuel, st)
    end.

Definition advance_this_line (cfg : Config) (char_count offset : nat) : M unit :=
  st <- get ;;
  cur <- lift (get_line cfg (line st)) ;;
  if length cur <? column_byte st + offset then
    throw (InternalError "Tried to advance past line's end")
  else
    put (set_pos st (line st) (column st + char_count) (column_byte st + offset)
                 (byte_offset st + offset)).

(** [&s[a..b]] *)
Definition str_slice (s : str) (a b : nat) : Result str :=
  if (a <=? b) && (b <=? length s) && is_char_boundary s a && is_char_boundary s b
  then Ok (firstn (b - a) (skipn a s))
  else Panicked.

(** ** Whitespace nodes (libcst_nodes/src/whitespace.rs) *)

Record SimpleWhitespace := mkSimpleWhitespace { sw_str : str }.

Record Comment := mkComment { comment_str : str }.

Inductive Fakeness := Fake | Real.

(** [Newline(Option<&str>, Fakeness)] *)
Inductive Newline := mkNewline (value : option str) (fakeness : Fakeness).

Definition newline_fakeness (n : Newline) : Fakeness :=
  let 'mkNewline _ f := n in f.

Record TrailingWhitespace := mkTrailingWhitespace {
  tw_whitespace : SimpleWhitespace;
  tw_comment : option Comment;
  tw_newline : Newline
}.

Record EmptyLine := mkEmptyLine {
  el_indent : bool;
  el_whitespace : SimpleWhitespace;
  el_comment : option Comment;
  el_newline : Newline;
  el_indentation : option str
}.

Record ParenthesizedWhitespace := mkParenthesizedWhitespace {
  pw_first_line : TrailingWhitespace;
  pw_empty_lines : list EmptyLine;
  pw_indent : bool;
  pw_last_line : SimpleWhitespace
}.

Inductive ParenthesizableWhitespace :=
| PSimpleWhitespace (w : SimpleWhitespace)
| PParenthesizedWhitespace (w : ParenthesizedWhitespace).

(** ** The whitespace parser (libcst_tokenize/src/whitespace_parser.rs) *)

Section WhitespaceParser.

Variable config : Config.

Definition parse_comment : M (option Comment) :=
  st <- get ;;
  rest <- lift (get_line_after_column config (line st) (column_byte st)) ;;
  match comment_re rest with
  | Some comment_str =>
      advance_this_line config (char_count comment_str) (length comment_str) ;;;
      ret (Some (mkComment comment_str))
  | None => ret None
  end.

Definition parse_newline : M (option Newline) :=
  st <- get ;;
  rest <- lift (get_line_after_column config (line st) (column_byte st)) ;;
  match newline_re rest with
  | Some newline_str =>
      advance_this_line config (char_count newline_str) (length newline_str) ;;;
      st1 <- get ;;
      cur <- lift (get_line config (line st1)) ;;
      if negb (column_byte st1 =? length cur) then
        throw (InternalError "Found newline but it's not EOL")
      else
        (if line st1 <? length (lines config) then advance_to_next_line config
         else ret tt) ;;;
        ret (Some (mkNewline
                     (if str_eqb newline_str (default_newline config) then None
                      else Some newline_str)
                     Real))
  | None =>
      (* at the end of the file but not on BOL: the tokenizer's fake newline *)
      if (byte_offset st =? length (input config)) && negb (column_byte st =? 0)
      then ret (Some (mkNewline None Fake))
      else ret None
  end.

Definition parse_indent (override_absolute_indent : option str) : M bool :=
  st <- get ;;
  let ai := match override_absolute_indent with
            | Some o => o
            | None => absolute_indent st
            end in
  if negb (column_byte st =? 0) then
    cur <- lift (get_line config (line st)) ;;
    if (column_byte st =? length cur) && (line st =? length (lines config))
    then ret false
    else throw (InternalError "Column should not be 0 when parsing an index")
  else
    rest <- lift (get_line_after_column config (line st) (column_byte st)) ;;
    if starts_with rest ai then
      put (set_pos st (line st) (column st + char_count ai)
                   (column_byte st + length ai) (byte_offset st + length ai)) ;;;
      ret true
    else ret false.

Definition capture_ws (l col : nat) : Result str :=
  rbind (get_line_after_column config l col) (fun x => Ok (simple_whitespace_re x)).

(** The [loop] of [parse_simple_whitespace]; it returns the last match. *)
Fixpoint simple_whitespace_loop (fuel : nat) : M str :=
  match fuel with
  | 0 => fun st => (OutOfFuel, st)
  | S k =>
      st <- get ;;
      prev_line <- lift (capture_ws (line st) (column_byte st)) ;;
      if negb (has_backslash prev_line) then ret prev_line
      else advance_to_next_line config ;;; simple_whitespace_loop k
  end.

(** Every round of the loop that does not exit moves to the next line, and
    [capture_ws] fails past the last line: [1 + |lines|] rounds suffice. *)
Definition simple_whitespace_bound : nat := S (length (lines config)).

Definition parse_simple_whitespace : M SimpleWhitespace :=
  st <- get ;;
  let start_offset := byte_offset st in
  prev_line <- simple_whitespace_loop simple_whitespace_bound ;;
  advance_this_line config (char_count prev_line) (length prev_line) ;;;
  st' <- get ;;
  s <- lift (str_slice (input config) start_offset (byte_offset st')) ;;
  ret (mkSimpleWhitespace s).

(** [let mut speculative_state = state.clone(); ...; *state = speculative_state]:
    [m] runs on a copy; the copy is committed only when [m] yields [Some]. *)
Definition speculate {A} (m : M (option A)) : M (option A) :=
  fun st =>
    match m st with
    | (Ok (Some a), st') => (Ok (Some a), st')
    | (Ok None, _) => (Ok None, st)
    | (Err e, _) => (Err e, st)
    | (Panicked, _) => (Panicked, st)
    | (OutOfFuel, _) => (OutOfFuel, st)
    end.

Definition parse_empty_line (override_absolute_indent : option str)
  : M (option EmptyLine) :=
  fun state =>
    speculate
      (fun spec =>
         match parse_indent override_absolute_indent spec with
         | (Ok indent, spec1) =>
             (whitespace <- parse_simple_whitespace ;;
              comment <- parse_comment ;;
              nl <- parse_newline ;;
              match nl with
              | Some newline =>
                  spec' <- get ;;
                  ret (Some (mkEmptyLine indent whitespace comment newline
                               (if indent then
                                  Some (match override_absolute_indent with
                                        | Some o => o
                                        | None => absolute_indent spec'
                                        end)
                                else None)))
              | None => ret None
              end) spec1
         | (Err _, _) => (Ok None, spec)
         | (Panicked, spec1) => (Panicked, spec1)
         | (OutOfFuel, spec1) => (OutOfFuel, spec1)
         end)
      state.

Definition is_fake_line (e : EmptyLine) : bool :=
  match newline_fakeness (el_newline e) with Fake => true | Real => false end.

(** The [while let] loop of [_parse_all_empty_lines]; [acc] is [lines] in
    order. *)
Fixpoint all_empty_lines_loop (fuel : nat) (override_absolute_indent : option str)
  (acc : list (State * EmptyLine)) : M (list (State * EmptyLine)) :=
  match fuel with
  | 0 => fun st => (OutOfFuel, st)
  | S k =>
      r <- parse_empty_line override_absolute_indent ;;
      match r with
      | None => ret acc
      | Some empty_line =>
          st <- get ;;
          let acc' := acc ++ [(st, empty_line)] in
          if is_fake_line empty_line then ret acc'
          else all_empty_lines_loop k override_absolute_indent acc'
      end
  end.

(** Iteration bound of the loop; [all_empty_lines_terminates] shows it is
    never reached. *)
Definition empty_lines_bound : nat := 2 * length (lines config) + 2.

Definition _parse_all_empty_lines (override_absolute_indent : option str)
  : M (list (State * EmptyLine)) :=
  all_empty_lines_loop empty_lines_bound override_absolute_indent [].

Definition parse_all_empty_lines : M (list EmptyLine) :=
  v <- _parse_all_empty_lines (Some []) ;;
  ret (map snd v).

(** [find_last_line_at]; [Panicked] is the out-of-range byte index
    [raw_line.as_bytes()[indent.len()]]. *)
Fixpoint find_last_line_at_from (ind : nat) (ls : list (State * EmptyLine))
  (override_absolute_indent : option str) (last_droppable_line : option nat)
  : Result (option nat) :=
  match ls with
  | [] => Ok last_droppable_line
  | (s, empty_line) :: rest =>
      let line_number := if column s =? 0 then line s - 1 else line s in
      match get_line config line_number with
      | Ok raw_line =>
          if negb (match el_comment empty_line with None => true | Some _ => false end
                   && (length (sw_str (el_whitespace empty_line)) =? 0)) then
            let indent := match override_absolute_indent with
                          | Some o => o
                          | None => absolute_indent s
                          end in
            if starts_with raw_line indent then
              match nth_error raw_line (length indent) with
              | Some b =>
                  if Ascii.eqb b SPACE || Ascii.eqb b TAB then
                    find_last_line_at_from (S ind) rest override_absolute_indent (Some ind)
                  else
                    find_last_line_at_from (S ind) rest override_absolute_indent
                      last_droppable_line
              | None => Panicked
              end
            else
              find_last_line_at_from (S ind) rest override_absolute_indent
                last_droppable_line
          else
            (* this line is empty *)
            find_last_line_at_from (S ind) rest override_absolute_indent
              last_droppable_line
      | _ =>
          find_last_line_at_from (S ind) rest override_absolute_indent
            last_droppable_line
      end
  end.

Definition find_last_line_at (ls : list (State * EmptyLine))
  (override_absolute_indent : option str) : Result (option nat) :=
  find_last_line_at_from 0 ls override_absolute_indent None.

(** [while let Some((_, empty_line)) = lines.last() { if empty_line.indent &&
    empty_line.indentation == override_absolute_indent { break; } lines.pop(); }] *)
Definition opt_str_eqb (a b : option str) : bool :=
  match a, b with
  | Some x, Some y => str_eqb x y
  | None, None => true
  | _, _ => false
  end.

Fixpoint pop_to_indented (override_absolute_indent : option str)
  (rev_lines : list (State * EmptyLine)) : list (State * EmptyLine) :=
  match rev_lines with
  | [] => []
  | (s, empty_line) :: older =>
      if el_indent empty_line
         && opt_str_eqb (el_indentation empty_line) override_absolute_indent
      then rev_lines
      else pop_to_indented override_absolute_indent older
  end.

Definition trim_unindented_tail (override_absolute_indent : option str)
  (ls : list (State * EmptyLine)) : list (State * EmptyLine) :=
  rev (pop_to_indented override_absolute_indent (rev ls)).

Definition parse_empty_lines (override_absolute_indent : option str)
  : M (list EmptyLine) :=
  fun state =>
    match _parse_all_empty_lines override_absolute_indent state with
    | (Ok lines0, _) =>
        let lines1 := match override_absolute_indent with
                      | Some _ => trim_unindented_tail override_absolute_indent lines0
                      | None => lines0
                      end in
        match find_last_line_at lines1 override_absolute_indent with
        | Ok last_droppable_line =>
            let state' := match last_opt lines1 with
                          | Some (final_state, _) => final_state
                          | None => state
                          end in
            let skip := match last_droppable_line with Some x => S x | None => 0 end in
            (Ok (map snd (skipn skip lines1)), state')
        | Panicked => (Panicked, state)
        | Err e => (Err e, state)
        | OutOfFuel => (OutOfFuel, state)
        end
    | (Err e, _) => (Err e, state)
    | (Panicked, _) => (Panicked, state)
    | (OutOfFuel, _) => (OutOfFuel, state)
    end.

(** The [while let] loop of [parse_empty_lines_from_end]: it runs on the
    speculative state and, unlike [_parse_all_empty_lines], does not stop
    after a fake newline. *)
Fixpoint from_end_loop (fuel : nat) (acc : list (State * EmptyLine))
  : M (list (State * EmptyLine)) :=
  match fuel with
  | 0 => fun st => (OutOfFuel, st)
  | S k =>
      r <- parse_empty_line None ;;
      match r with
      | None => ret acc
      | Some empty_line =>
          st <- get ;;
          from_end_loop k (acc ++ [(st, empty_line)])
      end
  end.

Definition parse_empty_lines_from_end : M (list EmptyLine) :=
  fun state =>
    match from_end_loop empty_lines_bound [] state with
    | (Ok lines0, speculative_state) =>
        match find_last_line_at lines0 None with
        | Ok last_droppable_line =>
            let skip := match last_droppable_line with Some x => S x | None => 0 end in
            (Ok (map snd (skipn skip lines0)), speculative_state)
        | Panicked => (Panicked, state)
        | Err e => (Err e, state)
        | OutOfFuel => (OutOfFuel, state)
        end
    | (Err e, _) => (Err e, state)
    | (Panicked, _) => (Panicked, state)
    | (OutOfFuel, _) => (OutOfFuel, state)
    end.

Definition parse_optional_trailing_whitespace : M (option TrailingWhitespace) :=
  speculate
    (whitespace <- parse_simple_whitespace ;;
     comment <- parse_comment ;;
     nl <- parse_newline ;;
     match nl with
     | Some newline => ret (Some (mkTrailingWhitespace whitespace comment newline))
     | None => ret None
     end).

Definition parse_trailing_whitespace : M TrailingWhitespace :=
  r <- parse_optional_trailing_whitespace ;;
  match r with
  | Some ws => ret ws
  | None => throw TrailingWhitespaceError
  end.

(** The [while let] loop of [parse_parenthesized_whitespace]; it has no exit
    on a fake newline, so [OutOfFuel] is reachable here. *)
Fixpoint paren_empty_lines_loop (fuel : nat) (acc : list EmptyLine) : M (list EmptyLine) :=
  match fuel with
  | 0 => fun st => (OutOfFuel, st)
  | S k =>
      r <- parse_empty_line None ;;
      match r with
      | None => ret acc
      | Some empty_line => paren_empty_lines_loop k (acc ++ [empty_line])
      end
  end.

Definition parse_parenthesized_whitespace : M (option ParenthesizedWhitespace) :=
  r <- parse_optional_trailing_whitespace ;;
  match r with
  | Some first_line =>
      empty_lines <- paren_empty_lines_loop empty_lines_bound [] ;;
      indent <- parse_indent None ;;
      last_line <- parse_simple_whitespace ;;
      ret (Some (mkParenthesizedWhitespace first_line empty_lines indent last_line))
  | None => ret None
  end.

Definition parse_parenthesizable_whitespace : M ParenthesizableWhitespace :=
  st <- get ;;
  r <- (if is_parenthesized st then parse_parenthesized_whitespace else ret None) ;;
  match r with
  | Some ws => ret (PParenthesizedWhitespace ws)
  | None => w <- parse_simple_whitespace ;; ret (PSimpleWhitespace w)
  end.

End WhitespaceParser.

(** ** Code generation state *)

(** Modelled from the spec: [CodegenState] (libcst_nodes/src/codegen.rs is
    not in src): "A CodegenState carries: output buffer, current indent stack,
    default_newline, default_indent"; [add_token] appends to the buffer,
    [add_indent] appends the indent stack, [indent]/[dedent] push/pop it. *)
Record CodegenState := mkCodegenState {
  cs_tokens : str;
  cs_indent_tokens : list str;
  cs_default_newline : str;
  cs_default_indent : str
}.

Definition default_codegen_state : CodegenState := mkCodegenState [] [] [NL] (s_ "    ").

Definition add_token (s : str) (cs : CodegenState) : CodegenState :=
  mkCodegenState (cs_tokens cs ++ s) (cs_indent_tokens cs) (cs_default_newline cs)
    (cs_default_indent cs).

Definition add_indent (cs : CodegenState) : CodegenState :=
  add_token (concat (cs_indent_tokens cs)) cs.

(** Modelled from the spec: [CodegenState::indent] pushes a level onto the
    indent stack and [dedent] pops the last one ("[indent]/[dedent] push/pop
    it"). *)
Definition indent (i : str) (cs : CodegenState) : CodegenState :=
  mkCodegenState (cs_tokens cs) (cs_indent_tokens cs ++ [i]) (cs_default_newline cs)
    (cs_default_indent cs).

Definition dedent (cs : CodegenState) : CodegenState :=
  mkCodegenState (cs_tokens cs) (removelast (cs_indent_tokens cs)) (cs_default_newline cs)
    (cs_default_indent cs).

(** A [codegen] call; [None] is a panic ([todo!()], [panic!]). *)
Definition CG := CodegenState -> option CodegenState.

Definition cg_then (f g : CG) : CG :=
  fun cs => match f cs with Some cs' => g cs' | None => None end.
Infix ">>>" := cg_then (at level 50, left associativity).

Definition emit (s : str) : CG := fun cs => Some (add_token s cs).

Definition cg_skip : CG := fun cs => Some cs.

Fixpoint cg_all {A} (f : A -> CG) (xs : list A) : CG :=
  match xs with
  | [] => cg_skip
  | x :: xs' => f x >>> cg_all f xs'
  end.

Definition simple_whitespace_codegen (w : SimpleWhitespace) : CG := emit (sw_str w).

Definition comment_codegen (c : Comment) : CG := emit (comment_str c).

Definition newline_codegen (n : Newline) : CG :=
  fun cs =>
    let 'mkNewline v f := n in
    match f with
    | Fake => Some cs
    | Real =>
        match v with
        | Some value => Some (add_token value cs)
        | None => Some (add_token (cs_default_newline cs) cs)
        end
    end.

Definition trailing_whitespace_codegen (t : TrailingWhitespace) : CG :=
  simple_whitespace_codegen (tw_whitespace t)
  >>> (match tw_comment t with Some c => comment_codegen c | None => cg_skip end)
  >>> newline_codegen (tw_newline t).

Definition empty_line_codegen (e : EmptyLine) : CG :=
  (if el_indent e then fun cs => Some (add_indent cs) else cg_skip)
  >>> simple_whitespace_codegen (el_whitespace e)
  >>> (match el_comment e with Some c => comment_codegen c | None => cg_skip end)
  >>> newline_codegen (el_newline e).

Definition parenthesized_whitespace_codegen (p : ParenthesizedWhitespace) : CG :=
  trailing_whitespace_codegen (pw_first_line p)
  >>> cg_all empty_line_codegen (pw_empty_lines p)
  >>> (if pw_indent p then fun cs => Some (add_indent cs) else cg_skip)
  >>> simple_whitespace_codegen (pw_last_line p).

Definition parenthesizable_whitespace_codegen (w : ParenthesizableWhitespace) : CG :=
  match w with
  | PSimpleWhitespace w => simple_whitespace_codegen w
  | PParenthesizedWhitespace w => parenthesized_whitespace_codegen w
  end.

(** ** Expressions (libcst_native/src/parser/expression.rs) *)

Record LeftParen := mkLeftParen { lp_whitespace_after : ParenthesizableWhitespace }.
Record RightParen := mkRightParen { rp_whitespace_before : ParenthesizableWhitespace }.

Record Name := mkName {
  name_value : str;
  name_lpar : list LeftParen;
  name_rpar : list RightParen
}.

Definition default_name : Name := mkName [] [] [].

Inductive Expression :=
| EName (n : Name)
| Ellipsis (lpar : list LeftParen) (rpar : list RightParen)
| Integer (value : str) (lpar : list LeftParen) (rpar : list RightParen)
| Float (value : str) (lpar : list LeftParen) (rpar : list RightParen)
| Imaginary (value : str) (lpar : list LeftParen) (rpar : list RightParen)
| SimpleString (value : str) (lpar : list LeftParen) (rpar : list RightParen)
| Comparison (left : Expression) (comparisons : list ComparisonTarget)
    (lpar : list LeftParen) (rpar : list RightParen)
| UnaryOperation (operator : str) (expression : Expression)
    (lpar : list LeftParen) (rpar : list RightParen)
| BinaryOperation (left : Expression) (operator : str) (right : Expression)
    (lpar : list LeftParen) (rpar : list RightParen)
| BooleanOperation (left : Expression) (operator : str) (right : Expression)
    (lpar : list LeftParen) (rpar : list RightParen)
| Attribute (value : Expression) (attr : Name) (dot : str)
    (lpar : list LeftParen) (rpar : list RightParen)
| NamedExpr (target : Expression) (value : Expression)
    (lpar : list LeftParen) (rpar : list RightParen)
    (whitespace_before_walrus : ParenthesizableWhitespace)
    (whitespace_after_walrus : ParenthesizableWhitespace)
with ComparisonTarget :=
| mkComparisonTarget (operator : str) (comparator : Expression).

Definition left_paren_codegen (p : LeftParen) : CG :=
  emit (s_ "(") >>> parenthesizable_whitespace_codegen (lp_whitespace_after p).

Definition right_paren_codegen (p : RightParen) : CG :=
  parenthesizable_whitespace_codegen (rp_whitespace_before p) >>> emit (s_ ")").

(** [ParenthesizedNode::parenthesize] *)
Definition parenthesize (lpar : list LeftParen) (rpar : list RightParen) (f : CG) : CG :=
  cg_all left_paren_codegen lpar >>> f >>> cg_all right_paren_codegen rpar.

Fixpoint expression_codegen (e : Expression) : CG :=
  match e with
  | Ellipsis _ _ => emit (s_ "...")
  | BinaryOperation l operator r lpar rpar =>
      parenthesize lpar rpar
        (expression_codegen l >>> emit operator >>> expression_codegen r)
  | Integer value lpar rpar => parenthesize lpar rpar (emit value)
  | _ => fun _ => None (* panic!("codegen not implemented for ...") *)
  end.

(** ** Operators (op.rs is not in src; the fields are those the grammar fills) *)

Record Comma := mkComma {
  comma_whitespace_before : ParenthesizableWhitespace;
  comma_whitespace_after : ParenthesizableWhitespace
}.

Record AssignEqual := mkAssignEqual {
  eq_whitespace_before : ParenthesizableWhitespace;
  eq_whitespace_after : ParenthesizableWhitespace
}.

Record Semicolon := mkSemicolon {
  semi_whitespace_before : ParenthesizableWhitespace;
  semi_whitespace_after : ParenthesizableWhitespace
}.

(** ** Parameters *)

Record Param := mkParam {
  param_name : Name;
  param_equal : option AssignEqual;
  param_default : option Expression;
  param_comma : option Comma;
  param_star : option str;
  param_whitespace_after_star : ParenthesizableWhitespace;
  param_whitespace_after_param : ParenthesizableWhitespace
}.

Record ParamSlash := mkParamSlash { slash_comma : option Comma }.
Record ParamStar := mkParamStar { star_comma : Comma }.

Inductive StarArg := Star (s : ParamStar) | StarParam (p : Param).

Record Parameters := mkParameters {
  params : list Param;
  star_arg : option StarArg;
  kwonly_params : list Param;
  star_kwarg : option Param;
  posonly_params : list Param;
  posonly_ind : option ParamSlash
}.

Definition default_parameters : Parameters := mkParameters [] None [] None [] None.

(** ** Statements (libcst_native/src/parser/statement.rs) *)

Inductive SmallStatement :=
| Pass (semicolon : option Semicolon)
| Break (semicolon : option Semicolon)
| Continue (semicolon : option Semicolon)
| Return (value : option str) (whitespace_after_return : SimpleWhitespace)
    (semicolon : option Semicolon)
| Expr (value : Expression) (semicolon : option Semicolon)
| Assert (test : str) (msg : option str) (comma : option Comma)
    (whitespace_after_assert : SimpleWhitespace) (semicolon : option Semicolon).

Definition small_statement_codegen (s : SmallStatement) : CG :=
  match s with
  | Pass _ => emit (s_ "pass")
  | Break _ => emit (s_ "break")
  | Continue _ => emit (s_ "continue")
  | Expr e _ => expression_codegen e
  | _ => fun _ => None (* todo!() *)
  end.

Record SimpleStatementSuite := mkSimpleStatementSuite {
  sss_body : list SmallStatement;
  sss_leading_whitespace : SimpleWhitespace;
  sss_trailing_whitespace : TrailingWhitespace
}.

Record SimpleStatementLine := mkSimpleStatementLine {
  ssl_body : list SmallStatement;
  ssl_leading_lines : list EmptyLine;
  ssl_trailing_whitespace : TrailingWhitespace
}.

Definition _simple_statement_codegen (body : list SmallStatement)
  (trailing_whitespace : TrailingWhitespace) : CG :=
  cg_all small_statement_codegen body
  >>> (match body with [] => emit (s_ "pass") | _ => cg_skip end)
  >>> trailing_whitespace_codegen trailing_whitespace.

Definition simple_statement_suite_codegen (s : SimpleStatementSuite) : CG :=
  simple_whitespace_codegen (sss_leading_whitespace s)
  >>> _simple_statement_codegen (sss_body s) (sss_trailing_whitespace s).

Record Decorator := mkDecorator {
  dec_decorator : Name;
  dec_leading_lines : list EmptyLine;
  dec_whitespace_after_at : SimpleWhitespace;
  dec_trailing_whitespace : TrailingWhitespace
}.

Inductive Statement :=
| Simple (s : SimpleStatementLine)
| Compound (c : CompoundStatement)
with CompoundStatement :=
| CFunctionDef (f : FunctionDef)
| CIf (i : If)
with FunctionDef :=
| mkFunctionDef (name : Name) (params : Parameters) (body : Suite)
    (leading_lines : list EmptyLine) (lines_after_decorators : list EmptyLine)
    (decorators : list Decorator) (whitespace_after_def : SimpleWhitespace)
    (whitespace_after_name : SimpleWhitespace)
    (whitespace_before_params : ParenthesizableWhitespace)
    (whitespace_before_colon : SimpleWhitespace)
with Suite :=
| IndentedBlock (body : list Statement) (header : TrailingWhitespace)
    (indent : option str) (footer : list EmptyLine)
| SSimpleStatementSuite (s : SimpleStatementSuite)
with If :=
| mkIf (test : Expression) (body : Suite) (orelse : option OrElse)
    (leading_lines : list EmptyLine) (whitespace_before_test : SimpleWhitespace)
    (whitespace_after_test : SimpleWhitespace) (is_elif : bool)
with OrElse :=
| Elif (i : If)
| Else (e : ElseBlock)
with ElseBlock :=
| mkElse (body : Suite) (leading_lines : list EmptyLine)
    (whitespace_before_colon : SimpleWhitespace).

Definition fd_leading_lines (f : FunctionDef) : list EmptyLine :=
  let 'mkFunctionDef _ _ _ l _ _ _ _ _ _ := f in l.
Definition fd_lines_after_decorators (f : FunctionDef) : list EmptyLine :=
  let 'mkFunctionDef _ _ _ _ l _ _ _ _ _ := f in l.
Definition fd_decorators (f : FunctionDef) : list Decorator :=
  let 'mkFunctionDef _ _ _ _ _ d _ _ _ _ := f in d.

(** [FunctionDef::with_decorators] *)
Definition with_decorators (f : FunctionDef) (decs : list Decorator) : FunctionDef :=
  let 'mkFunctionDef name params body leading_lines _ _ wad wan wbp wbc := f in
  let lines_after_decorators := leading_lines in
  let '(decs', lines_before_decorators) :=
    match decs with
    | [] => ([], [])
    | d :: ds =>
        (mkDecorator (dec_decorator d) [] (dec_whitespace_after_at d)
           (dec_trailing_whitespace d) :: ds, dec_leading_lines d)
    end in
  mkFunctionDef name params body lines_before_decorators lines_after_decorators decs'
    wad wan wbp wbc.

(** ** Code generation of parameters and statements *)

(** [Name::codegen] *)
Definition name_codegen (n : Name) : CG :=
  parenthesize (name_lpar n) (name_rpar n) (emit (name_value n)).

(** [for (i, p) in xs.iter().enumerate() { f(i, p) }] *)
Fixpoint cg_enum {A} (f : nat -> A -> CG) (i : nat) (xs : list A) : CG :=
  match xs with
  | [] => cg_skip
  | x :: xs' => f i x >>> cg_enum f (S i) xs'
  end.

Definition is_nil {A} (l : list A) : bool := match l with [] => true | _ => false end.
Definition is_some {A} (o : option A) : bool := match o with Some _ => true | None => false end.

Section Codegen.

(** [Comma::codegen] and [AssignEqual::codegen] are in op.rs, which is not in
    src: the code below is generic in them. *)
Variable comma_codegen : Comma -> CG.
Variable assign_equal_codegen : AssignEqual -> CG.

(** [Param::codegen] *)
Definition param_codegen (p : Param) (default_star : option str) (default_comma : bool)
  : CG :=
  (match param_star p, default_star with
   | Some star, _ => emit star
   | None, Some star => emit star
   | None, None => cg_skip
   end)
  >>> parenthesizable_whitespace_codegen (param_whitespace_after_star p)
  >>> name_codegen (param_name p)
  >>> (match param_equal p, param_default p with
       | Some equal, Some def => assign_equal_codegen equal >>> expression_codegen def
       | None, Some def => emit (s_ " = ") >>> expression_codegen def
       | _, None => cg_skip
       end)
  >>> (match param_comma p with
       | Some comma => comma_codegen comma
       | None => if default_comma then emit (s_ ", ") else cg_skip
       end)
  >>> parenthesizable_whitespace_codegen (param_whitespace_after_param p).

(** [ParamSlash::codegen] *)
Definition param_slash_codegen (s : ParamSlash) (default_comma : bool) : CG :=
  emit (s_ "/")
  >>> (match slash_comma s, default_comma with
       | Some comma, _ => comma_codegen comma
       | None, true => emit (s_ ", ")
       | None, false => cg_skip
       end).

(** [ParamStar::codegen] *)
Definition param_star_codegen (s : ParamStar) : CG :=
  emit (s_ "*") >>> comma_codegen (star_comma s).

(** [Parameters::codegen]; [i < param_size - 1] is evaluated inside the loop,
    where [param_size >= 1]. *)
Definition parameters_codegen (ps : Parameters) : CG :=
  let params_after_kwonly := is_some (star_kwarg ps) in
  let params_after_regular := negb (is_nil (kwonly_params ps)) || params_after_kwonly in
  let params_after_posonly := negb (is_nil (params ps)) || params_after_regular in
  let star_included := is_some (star_arg ps) || negb (is_nil (kwonly_params ps)) in
  let param_size := length (params ps) in
  let kwonly_size := length (kwonly_params ps) in
  cg_all (fun p => param_codegen p None true) (posonly_params ps)
  >>> (match posonly_ind ps with
       | Some ind => param_slash_codegen ind params_after_posonly
       | None =>
           if negb (is_nil (posonly_params ps)) then
             if params_after_posonly then emit (s_ "/, ") else emit (s_ "/")
           else cg_skip
       end)
  >>> cg_enum (fun i p => param_codegen p None (params_after_regular || (i <? param_size - 1)))
        0 (params ps)
  >>> (match star_arg ps with
       | None => if star_included then emit (s_ "*, ") else cg_skip
       | Some (StarParam p) =>
           param_codegen p (Some (s_ "*")) ((0 <? kwonly_size) || is_some (star_kwarg ps))
       | Some (Star s) => param_star_codegen s
       end)
  >>> cg_enum (fun i p => param_codegen p None (params_after_kwonly || (i <? kwonly_size - 1)))
        0 (kwonly_params ps)
  >>> (match star_kwarg ps with
       | Some star => param_codegen star (Some (s_ "**")) false
       | None => cg_skip
       end).

Definition cg_add_indent : CG := fun cs => Some (add_indent cs).

(** [Decorator::codegen] *)
Definition decorator_codegen (d : Decorator) : CG :=
  cg_all empty_line_codegen (dec_leading_lines d)
  >>> cg_add_indent
  >>> emit (s_ "@")
  >>> simple_whitespace_codegen (dec_whitespace_after_at d)
  >>> name_codegen (dec_decorator d)
  >>> trailing_whitespace_codegen (dec_trailing_whitespace d).

(** [SimpleStatementLine::codegen] *)
Definition simple_statement_line_codegen (s : SimpleStatementLine) : CG :=
  cg_all empty_line_codegen (ssl_leading_lines s)
  >>> cg_add_indent
  >>> _simple_statement_codegen (ssl_body s) (ssl_trailing_whitespace s).

(** [Statement::codegen] and the [codegen] of the nodes below it. *)
Fixpoint statement_codegen (s : Statement) : CG :=
  match s with
  | Simple s => simple_statement_line_codegen s
  | Compound c => compound_statement_codegen c
  end
with compound_statement_codegen (c : CompoundStatement) : CG :=
  match c with
  | CFunctionDef f => function_def_codegen f
  | CIf i => if_codegen i
  end
with function_def_codegen (f : FunctionDef) : CG :=
  let 'mkFunctionDef name params body leading_lines lines_after_decorators decorators
         whitespace_after_def whitespace_after_name whitespace_before_params
         whitespace_before_colon := f in
  cg_all empty_line_codegen leading_lines
  >>> cg_all decorator_codegen decorators
  >>> cg_all empty_line_codegen lines_after_decorators
  >>> cg_add_indent
  >>> emit (s_ "def")
  >>> simple_whitespace_codegen whitespace_after_def
  >>> name_codegen name
  >>> simple_whitespace_codegen whitespace_after_name
  >>> emit (s_ "(")
  >>> parenthesizable_whitespace_codegen whitespace_before_params
  >>> parameters_codegen params
  >>> emit (s_ ")")
  >>> simple_whitespace_codegen whitespace_before_colon
  >>> emit (s_ ":")
  >>> suite_codegen body
with suite_codegen (s : Suite) : CG :=
  match s with
  | IndentedBlock body header ind footer =>
      trailing_whitespace_codegen header
      >>> (match ind with
           | Some i => fun cs => Some (indent i cs)
           | None => fun _ => None (* todo!() *)
           end)
      >>> (match body with
           | [] =>
               cg_add_indent
               >>> emit (s_ "pass")
               >>> (fun cs => Some (add_token (cs_default_newline cs) cs))
           | _ => cg_all statement_codegen body
           end)
      >>> cg_all empty_line_codegen footer
      >>> (fun cs => Some (dedent cs))
  | SSimpleStatementSuite s => simple_statement_suite_codegen s
  end
with if_codegen (i : If) : CG :=
  let 'mkIf test body orelse leading_lines whitespace_before_test whitespace_after_test
         is_elif := i in
  cg_all empty_line_codegen leading_lines
  >>> cg_add_indent
  >>> emit (if is_elif then s_ "elif" else s_ "if")
  >>> simple_whitespace_codegen whitespace_before_test
  >>> expression_codegen test
  >>> simple_whitespace_codegen whitespace_after_test
  >>> emit (s_ ":")
  >>> suite_codegen body
  >>> (match orelse with Some o => or_else_codegen o | None => cg_skip end)
with or_else_codegen (o : OrElse) : CG :=
  match o with
  | Elif i => if_codegen i
  | Else e => else_codegen e
  end
with else_codegen (e : ElseBlock) : CG :=
  let 'mkElse body leading_lines whitespace_before_colon := e in
  cg_all empty_line_codegen leading_lines
  >>> cg_add_indent
  >>> emit (s_ "else")
  >>> simple_whitespace_codegen whitespace_before_colon
  >>> emit (s_ ":")
  >>> suite_codegen body.

End Codegen.

(** ** Tokens and the grammar's node builders (libcst_native/src/parser/grammar.rs) *)

(** Modelled from the spec: the tokenizer's [Token] (the tokenizer is not in
    src): "{ kind, string, whitespace_before, whitespace_after, start_pos,
    end_pos, relative_indent }"; the positions are left out, nothing here
    reads them. *)
Inductive TokType :=
| TName | TNumber | TString | TOp | TKeyword | TNewline | TIndent | TDedent
| TAsync | TEndMarker | TFStringStart | TFStringText | TFStringEnd.

Record Token := mkToken {
  tok_type : TokType;
  tok_string : str;
  whitespace_before : State;
  whitespace_after : State;
  relative_indent : option str
}.

Fixpoint fold_binary (expr : Expression) (tail : list (Token * Expression)) : Expression :=
  match tail with
  | [] => expr
  | (tok, r) :: tail' =>
      fold_binary (BinaryOperation expr (tok_string tok) r [] []) tail'
  end.

Definition make_binary_op (head : Expression) (tail : list (Token * Expression))
  : Result Expression :=
  match tail with
  | [] => Ok head
  | _ => Ok (fold_binary head tail)
  end.

Definition make_unary_op (op : Token) (tail : Expression) : Result Expression :=
  Ok (UnaryOperation (tok_string op) tail [] []).

Definition make_number (num : Token) : Result Expression :=
  Ok (Integer (tok_string num) [] []).

(** [make_comparison] is [todo!()]. *)
Definition make_comparison (head : Expression) (tail : list (Token * Expression))
  : Result Expression :=
  Panicked.

(** The semantic actions of the [atom] and [strings] rules. *)
Definition atom_name (n : Token) : Expression := EName (mkName (tok_string n) [] []).
Definition atom_string (s : Token) : Expression := SimpleString (tok_string s) [] [].
Definition atom_ellipsis : Expression := Ellipsis [] [].

(** The expressions the grammar's semantic actions build: the atoms, and
    what [make_binary_op], [make_unary_op] and [make_comparison] return when
    applied to built expressions ([named_expression]'s walrus branch is
    [todo!()]). *)
Inductive built : Expression -> Prop :=
| built_name : forall n, built (atom_name n)
| built_string : forall s, built (atom_string s)
| built_number : forall n e, make_number n = Ok e -> built e
| built_ellipsis : built atom_ellipsis
| built_binary : forall head tail e,
    built head -> (forall p, In p tail -> built (snd p)) ->
    make_binary_op head tail = Ok e -> built e
| built_unary : forall op a e, built a -> make_unary_op op a = Ok e -> built e
| built_comparison : forall head tail e,
    built head -> (forall p, In p tail -> built (snd p)) ->
    make_comparison head tail = Ok e -> built e.

Section Builders.

Variable config : Config.

Definition make_decorator (at_ : Token) (name : Token) : Result Decorator :=
  rbind (fst (parse_empty_lines config None (whitespace_before at_))) (fun leading_lines =>
  rbind (fst (parse_simple_whitespace config (whitespace_after at_))) (fun wsa =>
  Ok (mkDecorator (mkName (tok_string name) [] []) leading_lines wsa
        (* trailing_whitespace: Default::default() *)
        (mkTrailingWhitespace (mkSimpleWhitespace []) None (mkNewline None Real))))).

Definition make_function_def (def : Token) (name : Token) (open_paren : Token)
  (params : option Parameters) (_close_paren : Token) (colon : Token) (body : Suite)
  : Result FunctionDef :=
  rbind (fst (parse_empty_lines config None (whitespace_before def))) (fun leading_lines =>
  rbind (fst (parse_simple_whitespace config (whitespace_after def))) (fun wad =>
  rbind (fst (parse_simple_whitespace config (whitespace_after name))) (fun wan =>
  rbind (fst (parse_simple_whitespace config (whitespace_before colon))) (fun wbc =>
  rbind (fst (parse_parenthesizable_whitespace config (whitespace_after open_paren)))
    (fun wbp =>
  Ok (mkFunctionDef (mkName (tok_string name) [] [])
        (match params with Some p => p | None => default_parameters end)
        body leading_lines [] [] wad wan wbp wbc)))))).

Record SimpleStatementParts := mkSimpleStatementParts {
  ssp_first : Token;
  ssp_statements : list (SmallStatement * Token);
  ssp_last_statement : SmallStatement;
  ssp_last_semi : option Token;
  ssp_nl : Token
}.

Definition _make_simple_statement (parts : SimpleStatementParts)
  : Result (Token * list SmallStatement * TrailingWhitespace) :=
  let body := map fst (ssp_statements parts) ++ [ssp_last_statement parts] in
  rbind (fst (parse_trailing_whitespace config (whitespace_before (ssp_nl parts))))
    (fun trailing_whitespace => Ok (ssp_first parts, body, trailing_whitespace)).

Definition make_simple_statement_suite (parts : SimpleStatementParts) : Result Suite :=
  rbind (_make_simple_statement parts) (fun '(first, body, trailing_whitespace) =>
  rbind (fst (parse_simple_whitespace config (whitespace_before first)))
    (fun leading_whitespace =>
  Ok (SSimpleStatementSuite
        (mkSimpleStatementSuite body leading_whitespace trailing_whitespace)))).

End Builders.

(** ** [bol_offset] (src/native/libcst/src/lib.rs) *)

(** [source.match_indices('\n')]: the byte indices of the newlines, from [i]. *)
Fixpoint newline_indices_from (i : nat) (s : str) : list nat :=
  match s with
  | [] => []
  | c :: s' =>
      if Ascii.eqb c NL then i :: newline_indices_from (S i) s'
      else newline_indices_from (S i) s'
  end.

Definition bol_offset (source : str) (n : Z) : nat :=
  if (n <=? 1)%Z then 0
  else
    match nth_error (newline_indices_from 0 source) (Z.to_nat (n - 2)) with
    | Some index => index + 1
    | None => length source
    end.

(** The number of newline bytes of a text. *)
Fixpoint count_nl (s : str) : nat :=
  match s with
  | [] => 0
  | c :: s' => (if Ascii.eqb c NL then 1 else 0) + count_nl s'
  end.

(** [len(lpar) == len(rpar)] at every expression node (and at every [Name]
    inside one). *)
Fixpoint expr_balanced (e : Expression) : bool :=
  let bal {A B} (l : list A) (r : list B) := length l =? length r in
  match e with
  | EName n => bal (name_lpar n) (name_rpar n)
  | Ellipsis l r | Integer _ l r | Float _ l r | Imaginary _ l r
  | SimpleString _ l r => bal l r
  | Comparison x comps l r =>
      bal l r && expr_balanced x
      && (fix go (cs : list ComparisonTarget) : bool :=
            match cs with
            | [] => true
            | mkComparisonTarget _ c :: cs' => expr_balanced c && go cs'
            end) comps
  | UnaryOperation _ x l r => bal l r && expr_balanced x
  | BinaryOperation a _ b l r | BooleanOperation a _ b l r =>
      bal l r && expr_balanced a && expr_balanced b
  | Attribute v attr _ l r =>
      bal l r && expr_balanced v && bal (name_lpar attr) (name_rpar attr)
  | NamedExpr t v l r _ _ => bal l r && expr_balanced t && expr_balanced v
  end.

(** [f] appends exactly [o] to the output buffer, whatever the state. *)
Definition appends (f : CG) (o : str) : Prop :=
  forall cs, f cs = Some (add_token o cs).

(** The text a [TrailingWhitespace] stands for, given the default newline. *)
Definition newline_text (n : Newline) (dn : str) : str :=
  let 'mkNewline v f := n in
  match f with
  | Fake => []
  | Real => match v with Some value => value | None => dn end
  end.

Definition trailing_whitespace_text (t : TrailingWhitespace) (dn : str) : str :=
  sw_str (tw_whitespace t)
  ++ (match tw_comment t with Some c => comment_str c | None => [] end)
  ++ newline_text (tw_newline t) dn.

(** A scan state that points into its configuration: the input is the
    concatenation of the lines, the line number is in range, the column is
    within the line and the byte offset agrees with line and column. *)
Definition state_in (cfg : Config) (st : State) : Prop :=
  input cfg = concat (lines cfg) /\
  1 <= line st <= length (lines cfg) /\
  column_byte st <= length (nth (line st - 1) (lines cfg) []) /\
  byte_offset st = length (concat (firstn (line st - 1) (lines cfg))) + column_byte st.

(** ** Concrete inputs *)

Definition cfg_of (ls : list str) : Config := mkConfig (concat ls) ls [NL].

(** [x\ny] (no final newline), scanned at the end of its last line. *)
Definition eof_cfg : Config := cfg_of [s_ "x" ++ [NL]; s_ "y"].
Definition eof_state : State := mkState 2 1 1 [] false 3.


(** The outcome [parse_trailing_whitespace] reports as missing: simple
    whitespace and a comment parse, and after them no newline (real or fake)
    is found. *)
Definition newline_missing (cfg : Config) (st : State) : Prop :=
  exists w st1 c st2 st3,
    parse_simple_whitespace cfg st = (Ok w, st1) /\
    parse_comment cfg st1 = (Ok c, st2) /\
    parse_newline cfg st2 = (Ok None, st3).

(** A computation that never fails with [TrailingWhitespaceError]. *)
Definition no_twe {A} (m : M A) : Prop :=
  forall st, fst (m st) <> Err TrailingWhitespaceError.

(** [x y] on one line without newline, scanned after the [x]. *)
Definition no_nl_cfg : Config := cfg_of [s_ "x y"].
Definition no_nl_state : State := mkState 1 1 1 [] false 1.

(** The test of the [while let] in [parse_empty_lines] that stops popping:
    an indented line at exactly the override's indentation. *)
Definition at_override (o : str) (e : EmptyLine) : bool :=
  el_indent e && opt_str_eqb (el_indentation e) (Some o).

(** The test of [find_last_line_at] that records a droppable line: the line
    is not blank and its raw source line starts with the indentation [o]
    followed by a further space or tab, i.e. it is indented deeper than [o]. *)
Definition deeper_line (cfg : Config) (o : str) (p : State * EmptyLine) : bool :=
  let (s, empty_line) := p in
  let line_number := if column s =? 0 then line s - 1 else line s in
  match get_line cfg line_number with
  | Ok raw_line =>
      negb (match el_comment empty_line with None => true | Some _ => false end
            && (length (sw_str (el_whitespace empty_line)) =? 0))
      && starts_with raw_line o
      && match nth_error raw_line (length o) with
         | Some b => Ascii.eqb b SPACE || Ascii.eqb b TAB
         | None => false
         end
  | _ => false
  end.

Definition indent4 : str := s_ "    ".

(** [if x:\n    pass\n    # same\ny\n], scanned at the start of line 3: the
    footer of the [if] block.  No line is indented deeper than the block. *)
Definition footer_cfg : Config :=
  cfg_of [s_ "if x:" ++ [NL]; s_ "    pass" ++ [NL]; s_ "    # same" ++ [NL]; s_ "y" ++ [NL]].
Definition footer_state : State := mkState 3 0 0 [] false 15.

(** The same block with a deeper comment line before the footer comment. *)
Definition deeper_cfg : Config :=
  cfg_of [s_ "if x:" ++ [NL]; s_ "    pass" ++ [NL]; s_ "      # deeper" ++ [NL];
          s_ "    # same" ++ [NL]; s_ "y" ++ [NL]].

(** ** A decorated function definition *)

Definition scan_at (l c off : nat) : State := mkState l c c [] false off.

Definition op_token (ty : TokType) (s : str) (before after : State) : Token :=
  mkToken ty s before after None.

(** [@d\n], then the line [b], then [def f(): ...\n]. *)
Definition decorated_cfg (b : str) : Config :=
  cfg_of [s_ "@d" ++ [NL]; b; s_ "def f(): ..." ++ [NL]].

(** The tokens of [decorated_cfg b], with the scan states around them as the
    tokenizer's contract places them (the whitespace between two tokens goes
    to the [whitespace_before] of the following one), and the semantic
    actions of [decorators], [function_def_raw] and [simple_stmts] run on
    them in the order of [decorated_function_def]'s rule. *)
Definition decorated_def (b : str) : Result FunctionDef :=
  let cfg := decorated_cfg b in
  let o := 3 + length b in
  let at_ := op_token TOp (s_ "@") (scan_at 1 0 0) (scan_at 1 1 1) in
  let d := op_token TName (s_ "d") (scan_at 1 1 1) (scan_at 1 2 2) in
  let def := op_token TName (s_ "def") (scan_at 2 0 3) (scan_at 3 3 (o + 3)) in
  let f := op_token TName (s_ "f") (scan_at 3 3 (o + 3)) (scan_at 3 5 (o + 5)) in
  let lpar := op_token TOp (s_ "(") (scan_at 3 5 (o + 5))
                (mkState 3 6 6 [] true (o + 6)) in
  let rpar := op_token TOp (s_ ")") (mkState 3 6 6 [] true (o + 6))
                (scan_at 3 7 (o + 7)) in
  let colon := op_token TOp (s_ ":") (scan_at 3 7 (o + 7)) (scan_at 3 8 (o + 8)) in
  let dots := op_token TOp (s_ "...") (scan_at 3 8 (o + 8)) (scan_at 3 12 (o + 12)) in
  let nl := op_token TNewline [NL] (scan_at 3 12 (o + 12)) (scan_at 4 0 (o + 13)) in
  let parts := mkSimpleStatementParts dots [] (Expr atom_ellipsis None) None nl in
  rbind (make_decorator cfg at_ d) (fun dec =>
  rbind (make_simple_statement_suite cfg parts) (fun body =>
  rbind (make_function_def cfg def f lpar None rpar colon body) (fun fd =>
  Ok (with_decorators fd [dec])))).

(** [s'] is at or after [s]: a later line, or the same line at a later or
    equal column; and the byte offset has not decreased. *)
Definition advances (s s' : State) : Prop :=
  (line s < line s' \/ (line s' = line s /\ column_byte s <= column_byte s')) /\
  byte_offset s <= byte_offset s'.

(** The termination measure of the empty-line loop: two units per line left,
    one more at the start of a line. *)
Definition empty_lines_measure (cfg : Config) (st : State) : nat :=
  2 * (S (length (lines cfg)) - line st) + (if column_byte st =? 0 then 1 else 0).

(** A computation that never runs out of fuel. *)
Definition no_oof {A} (m : M A) : Prop := forall st, fst (m st) <> OutOfFuel.

(** The strings of the language [([ \t\f] | \\(\r\n?|\n))*], the strings
    made of blanks and of backslash-newline continuations only: a line break
    occurs only right after a backslash. *)
Fixpoint ws_lang (s : str) : bool :=
  match s with
  | [] => true
  | c :: r =>
      if is_simple_space c then ws_lang r
      else if Ascii.eqb c BACKSLASH then
        match r with
        | d :: r2 =>
            if Ascii.eqb d CR then
              match r2 with
              | e :: r3 => if Ascii.eqb e NL then ws_lang r3 else ws_lang r2
              | [] => true
              end
            else if Ascii.eqb d NL then ws_lang r2
            else false
        | [] => false
        end
      else false
  end.

(** The ending of a physical line: nothing, or one of [\n], [\r], [\r\n]. *)
Definition line_terminator (t : str) : bool :=
  match t with
  | [] => true
  | [c] => Ascii.eqb c NL || Ascii.eqb c CR
  | [c; d] => Ascii.eqb c CR && Ascii.eqb d NL
  | _ => false
  end.

(** A physical line: a line break occurs only as its terminator. *)
Fixpoint is_physical (s : str) : bool :=
  match s with
  | [] => true
  | c :: r => if is_line_break c then line_terminator s else is_physical r
  end.

(** Modelled from the spec: nothing in src builds a [Config] (its constructor
    is left as a TODO); the spec describes a line-indexed configuration whose
    lines are the physical lines of the input, each keeping its own line
    ending. *)
Definition physical_lines (cfg : Config) : Prop :=
  forall l, In l (lines cfg) -> is_physical l = true.

(** [x \] then [  y]: a continuation at the end of the first line, scanned
    from the blank after [x]. *)
Definition cont_cfg : Config := cfg_of [s_ "x \" ++ [NL]; s_ "  y" ++ [NL]].
Definition cont_state : State := mkState 1 1 1 [] false 1.

(** ** Slices, frames and layouts *)

(** The scan from [st] to [st'] reads [x]: the input from the byte offset of
    [st] is [x] followed by the input from the byte offset of [st']. *)
Definition consumes (cfg : Config) (st st' : State) (x : str) : Prop :=
  skipn (byte_offset st) (input cfg) = x ++ skipn (byte_offset st') (input cfg).

(** The text an [EmptyLine] stands for, given the indentation and default newline
    the code generator uses. *)
Definition empty_line_text (e : EmptyLine) (ind dn : str) : str :=
  (if el_indent e then ind else [])
  ++ sw_str (el_whitespace e)
  ++ (match el_comment e with Some c => comment_str c | None => [] end)
  ++ newline_text (el_newline e) dn.

Definition rt_cfg : Config := cfg_of [s_ " #c" ++ [NL]; s_ "  " ++ [NL]; s_ "y"].
Definition rt_tw : TrailingWhitespace :=
  mkTrailingWhitespace (mkSimpleWhitespace [SPACE]) (Some (mkComment (s_ "#c")))
    (mkNewline None Real).
Definition rt_el : EmptyLine :=
  mkEmptyLine true (mkSimpleWhitespace []) None (mkNewline None Real) (Some (s_ "  ")).
Definition rt_cs : CodegenState := mkCodegenState [] [s_ "  "] [NL] (s_ "    ").

(** The scan sits at the end of the last line, which is not empty. *)
Definition at_eof_off_bol (cfg : Config) (st : State) : Prop :=
  line st = length (lines cfg) /\
  column_byte st = length (nth (line st - 1) (lines cfg) []) /\
  column_byte st <> 0.

Definition fake_empty_line : EmptyLine :=
  mkEmptyLine false (mkSimpleWhitespace []) None (mkNewline None Fake) None.

Definition eof2_cfg : Config := cfg_of [s_ "(" ++ [NL]; s_ "x"].
Definition eof2_state : State := mkState 2 1 1 [] true 3.

Definition root_cfg : Config := cfg_of [[NL]; s_ "  #c"].
Definition root_state : State := mkState 1 0 0 (s_ "  ") false 0.
Definition root_lines : list EmptyLine :=
  [mkEmptyLine true (mkSimpleWhitespace []) None (mkNewline None Real) (Some []);
   mkEmptyLine true (mkSimpleWhitespace (s_ "  ")) (Some (mkComment (s_ "#c")))
     (mkNewline None Fake) (Some [])].

(** A code generator that only appends to the output buffer: the indent
    stack and the defaults are left as they were. *)
Definition keeps (f : CG) : Prop :=
  forall cs cs', f cs = Some cs' -> exists t, cs' = add_token t cs.

(** A parameter with no explicit comma, default, star or whitespace, and an
    unparenthesized name. *)
Definition bare_param (p : Param) : Prop :=
  param_star p = None /\ param_equal p = None /\ param_default p = None /\
  param_comma p = None /\
  param_whitespace_after_star p = PSimpleWhitespace (mkSimpleWhitespace []) /\
  param_whitespace_after_param p = PSimpleWhitespace (mkSimpleWhitespace []) /\
  name_lpar (param_name p) = [] /\ name_rpar (param_name p) = [].

Definition pname (p : Param) : str := name_value (param_name p).

(** [xs] separated by [", "], with a trailing [", "] when [more]. *)
Fixpoint sep_items (xs : list str) (more : bool) : str :=
  match xs with
  | [] => []
  | [x] => x ++ (if more then s_ ", " else [])
  | x :: xs' => x ++ s_ ", " ++ sep_items xs' more
  end.

Definition join_items (xs : list str) : str := sep_items xs false.

(** The items of a parameter list in the order Python writes them. *)
Definition param_items (ps : Parameters) : list str :=
  map pname (posonly_params ps)
  ++ (if is_nil (posonly_params ps) then [] else [s_ "/"])
  ++ map pname (params ps)
  ++ (match star_arg ps with
      | Some (StarParam p) => [s_ "*" ++ pname p]
      | Some (Star _) => [s_ "*"]
      | None => if is_nil (kwonly_params ps) then [] else [s_ "*"]
      end)
  ++ map pname (kwonly_params ps)
  ++ (match star_kwarg ps with Some p => [s_ "**" ++ pname p] | None => [] end).

(** Two code generators that agree on every state. *)
Definition cg_eq (f g : CG) : Prop := forall cs, f cs = g cs.

Definition w_sw : SimpleWhitespace := mkSimpleWhitespace [].
Definition w_tw : TrailingWhitespace := mkTrailingWhitespace w_sw None (mkNewline None Real).
Definition w_cc : Comma -> CG := fun _ => emit (s_ ", ").
Definition w_ac : AssignEqual -> CG := fun _ => emit (s_ "=").
Definition w_def : Statement :=
  Compound (CFunctionDef (mkFunctionDef (mkName (s_ "f") [] []) default_parameters
    (IndentedBlock [] w_tw (Some (s_ "    ")) []) [] [] [] (mkSimpleWhitespace (s_ " "))
    w_sw (PSimpleWhitespace w_sw) w_sw)).

(** The expressions [Expression::codegen] handles: an ellipsis, an integer,
    and a binary operation whose operands are such expressions. *)
Fixpoint printable (e : Expression) : bool :=
  match e with
  | Ellipsis _ _ => true
  | Integer _ _ _ => true
  | BinaryOperation l _ r _ _ => printable l && printable r
  | _ => false
  end.

Definition total (f : CG) : Prop := forall cs, exists cs', f cs = Some cs'.

Definition w_param (n : str) : Param :=
  mkParam (mkName n [] []) None None None None (PSimpleWhitespace w_sw) (PSimpleWhitespace w_sw).

Definition w_params : Parameters :=
  mkParameters [w_param (s_ "b")] None [w_param (s_ "c")] (Some (w_param (s_ "d")))
    [w_param (s_ "a")] None.

Definition w_dec : Decorator :=
  mkDecorator (mkName (s_ "d") [] []) [mkEmptyLine false w_sw None (mkNewline None Real) None]
    w_sw w_tw.

Definition w_fd : FunctionDef :=
  mkFunctionDef (mkName (s_ "f") [] []) default_parameters
    (IndentedBlock [] w_tw (Some (s_ "    ")) []) [] [] [] (mkSimpleWhitespace (s_ " "))
    w_sw (PSimpleWhitespace w_sw) w_sw.

(** * Proofs *)

(** ** bol_offset *)

Lemma newline_indices_length : forall s i,
  length (newline_indices_from i s) = count_nl s.
Proof.
  induction s as [|c s IH]; intros i; simpl; [reflexivity|].
  destruct (Ascii.eqb c NL); simpl; rewrite IH; reflexivity.
Qed.

Lemma newline_indices_nth : forall s i j x,
  nth_error (newline_indices_from i s) j = Some x ->
  exists p, x = i + p /\ nth_error s p = Some NL /\ count_nl (firstn (S p) s) = S j.
Proof.
  induction s as [|c s IH]; intros i j x H; simpl in H.
  - destruct j; discriminate.
  - destruct (Ascii.eqb c NL) eqn:E.
    + apply Ascii.eqb_eq in E; subst c.
      destruct j as [|j]; simpl in H.
      * injection H as <-. exists 0. simpl. repeat split; lia.
      * destruct (IH (S i) j x H) as (p & -> & Hp & Hc).
        exists (S p). split; [lia|]. split; [exact Hp|].
        change (count_nl (firstn (S (S p)) (NL :: s)))
          with ((if Ascii.eqb NL NL then 1 else 0) + count_nl (firstn (S p) s)).
        rewrite Hc. reflexivity.
    + destruct (IH (S i) j x H) as (p & -> & Hp & Hc).
      exists (S p). split; [lia|]. split; [exact Hp|].
      change (count_nl (firstn (S (S p)) (c :: s)))
        with ((if Ascii.eqb c NL then 1 else 0) + count_nl (firstn (S p) s)).
      rewrite E, Hc. reflexivity.
Qed.

(** C9: [bol_offset text n] is 0 when [n <= 1]; when the text has at least
    [n - 1] newlines it is the offset just after the [(n-1)]-th newline
    (the byte before it is a newline, and the prefix up to it holds exactly
    [n - 1] newlines); otherwise it is [len(text)]. *)
Theorem bol_offset_spec : forall (text : str) (n : Z),
  ((n <= 1)%Z -> bol_offset text n = 0) /\
  ((1 < n)%Z -> Z.to_nat (n - 1) <= count_nl text ->
     exists p, bol_offset text n = S p /\ nth_error text p = Some NL /\
               count_nl (firstn (S p) text) = Z.to_nat (n - 1)) /\
  ((1 < n)%Z -> count_nl text < Z.to_nat (n - 1) -> bol_offset text n = length text).
Proof.
  intros text n. unfold bol_offset. split; [|split].
  - intros H. apply Z.leb_le in H. rewrite H. reflexivity.
  - intros H Hc. assert (Hb : (n <=? 1)%Z = false) by (apply Z.leb_gt; lia).
    rewrite Hb.
    destruct (nth_error (newline_indices_from 0 text) (Z.to_nat (n - 2))) as [x|] eqn:E.
    + destruct (newline_indices_nth text 0 _ x E) as (p & -> & Hp & Hcnt).
      exists p. split; [lia|]. split; [exact Hp|]. rewrite Hcnt. lia.
    + apply nth_error_None in E. rewrite newline_indices_length in E. lia.
  - intros H Hc. assert (Hb : (n <=? 1)%Z = false) by (apply Z.leb_gt; lia).
    rewrite Hb.
    destruct (nth_error (newline_indices_from 0 text) (Z.to_nat (n - 2))) as [x|] eqn:E.
    + exfalso. assert (Hl : Z.to_nat (n - 2) < length (newline_indices_from 0 text))
        by (apply nth_error_Some; rewrite E; discriminate).
      rewrite newline_indices_length in Hl. lia.
    + reflexivity.
Qed.

Lemma bol_offset_spec_witness :
  bol_offset (s_ "hello") 0 = 0 /\
  (exists p, bol_offset (s_ "hello" ++ NL :: s_ "hello") 2 = S p /\
     nth_error (s_ "hello" ++ NL :: s_ "hello") p = Some NL /\
     count_nl (firstn (S p) (s_ "hello" ++ NL :: s_ "hello")) = Z.to_nat (2 - 1)) /\
  bol_offset (s_ "hello" ++ NL :: s_ "hello") 3 = 11.
Proof.
  split; [|split].
  - apply (proj1 (bol_offset_spec (s_ "hello") 0)). lia.
  - apply (proj1 (proj2 (bol_offset_spec ((s_ "hello" ++ NL :: s_ "hello")) 2)));
      [lia | vm_compute; lia].
  - apply (proj2 (proj2 (bol_offset_spec ((s_ "hello" ++ NL :: s_ "hello")) 3)));
      [lia | vm_compute; lia].
Defined.

(** ** Parenthesis balance *)

Lemma fold_binary_balanced : forall tail expr,
  expr_balanced expr = true ->
  (forall p, In p tail -> expr_balanced (snd p) = true) ->
  expr_balanced (fold_binary expr tail) = true.
Proof.
  induction tail as [|[tok r] tail IH]; intros expr He Ht; simpl; [assumption|].
  apply IH.
  - pose proof (Ht (tok, r) (or_introl eq_refl)) as Hr. simpl in Hr.
    simpl. rewrite He, Hr. reflexivity.
  - intros p Hp. apply Ht. right. exact Hp.
Qed.

Lemma make_binary_op_balanced : forall head tail e,
  expr_balanced head = true ->
  (forall p, In p tail -> expr_balanced (snd p) = true) ->
  make_binary_op head tail = Ok e -> expr_balanced e = true.
Proof.
  intros head tail e Hh Ht H. unfold make_binary_op in H.
  destruct tail as [|p tail]; injection H as <-; [assumption|].
  apply (fold_binary_balanced (p :: tail)); assumption.
Qed.

Lemma make_unary_op_balanced : forall op a e,
  expr_balanced a = true -> make_unary_op op a = Ok e -> expr_balanced e = true.
Proof.
  intros op a e Ha H. injection H as <-. simpl. rewrite Ha. reflexivity.
Qed.

Lemma make_number_balanced : forall n e, make_number n = Ok e -> expr_balanced e = true.
Proof. intros n e H. injection H as <-. reflexivity. Qed.

(** C8: every expression the grammar's actions build has [len(lpar) =
    len(rpar)] at every node, and [make_binary_op], [make_unary_op],
    [make_number] and the atom rule preserve (or establish) that balance. *)
Theorem parenthesis_balance :
  (forall e, built e -> expr_balanced e = true) /\
  (forall head tail e,
     expr_balanced head = true ->
     (forall p, In p tail -> expr_balanced (snd p) = true) ->
     make_binary_op head tail = Ok e -> expr_balanced e = true) /\
  (forall op a e, expr_balanced a = true -> make_unary_op op a = Ok e ->
     expr_balanced e = true) /\
  (forall n e, make_number n = Ok e -> expr_balanced e = true) /\
  (forall t, expr_balanced (atom_name t) = true /\ expr_balanced (atom_string t) = true) /\
  expr_balanced atom_ellipsis = true.
Proof.
  split; [|split; [exact make_binary_op_balanced|split;
    [exact make_unary_op_balanced|split; [exact make_number_balanced|split;
      [intros t; split; reflexivity|reflexivity]]]]].
  induction 1.
  - reflexivity.
  - reflexivity.
  - eapply make_number_balanced; eassumption.
  - reflexivity.
  - eapply make_binary_op_balanced; eauto.
  - eapply make_unary_op_balanced; eauto.
  - discriminate.
Qed.

Lemma parenthesis_balance_witness :
  let one := mkToken TNumber (s_ "1") default_state default_state None in
  let plus := mkToken TOp (s_ "+") default_state default_state None in
  built (fold_binary (Integer (s_ "1") [] []) [(plus, Integer (s_ "1") [] [])]) /\
  expr_balanced (fold_binary (Integer (s_ "1") [] []) [(plus, Integer (s_ "1") [] [])])
    = true.
Proof.
  intros one plus.
  assert (Hb : built (fold_binary (Integer (s_ "1") [] []) [(plus, Integer (s_ "1") [] [])])).
  { apply (built_binary (Integer (s_ "1") [] []) [(plus, Integer (s_ "1") [] [])]).
    - apply (built_number one). reflexivity.
    - intros p [<-|[]]. apply (built_number one). reflexivity.
    - reflexivity. }
  split; [exact Hb|].
  exact (proj1 parenthesis_balance _ Hb).
Defined.

(** ** Code generation of a SimpleStatementSuite *)

Lemma add_token_add_token : forall a b cs,
  add_token b (add_token a cs) = add_token (a ++ b) cs.
Proof. intros a b [t i d n]. unfold add_token; simpl. rewrite app_assoc. reflexivity. Qed.

Lemma add_token_nil : forall cs, add_token [] cs = cs.
Proof. intros [t i d n]. unfold add_token; simpl. rewrite app_nil_r. reflexivity. Qed.

Lemma add_token_default_newline : forall a cs,
  cs_default_newline (add_token a cs) = cs_default_newline cs.
Proof. reflexivity. Qed.

Lemma appends_then : forall f g a b,
  appends f a -> appends g b -> appends (f >>> g) (a ++ b).
Proof.
  intros f g a b Hf Hg cs. unfold cg_then. rewrite Hf, Hg, add_token_add_token.
  reflexivity.
Qed.

Lemma appends_skip : appends cg_skip [].
Proof. intros cs. unfold cg_skip. rewrite add_token_nil. reflexivity. Qed.

Lemma appends_emit : forall s, appends (emit s) s.
Proof. intros s cs. reflexivity. Qed.


Lemma trailing_whitespace_codegen_text : forall t cs,
  trailing_whitespace_codegen t cs =
  Some (add_token (trailing_whitespace_text t (cs_default_newline cs)) cs).
Proof.
  intros [[w] c [v f]] cs.
  destruct c as [[c]|], f, v as [v|];
    unfold trailing_whitespace_codegen, trailing_whitespace_text, cg_then,
      simple_whitespace_codegen, comment_codegen, newline_codegen, cg_skip, emit; simpl;
    rewrite ?add_token_add_token, ?add_token_default_newline, ?app_nil_r, ?app_assoc;
    reflexivity.
Qed.




(** ** The fake newline *)

Lemma concat_split : forall (ls : list str) k, k < length ls ->
  concat ls = concat (firstn k ls) ++ nth k ls [] ++ concat (skipn (S k) ls).
Proof.
  induction ls as [|l ls IH]; intros k Hk; simpl in Hk; [lia|].
  destruct k as [|k]; simpl; [reflexivity|].
  rewrite (IH k) at 1 by lia. rewrite app_assoc. reflexivity.
Qed.

Lemma get_line_nth : forall cfg n, 1 <= n <= length (lines cfg) ->
  get_line cfg n = Ok (nth (n - 1) (lines cfg) []).
Proof.
  intros cfg [|n] Hn; [lia|]. unfold get_line. simpl.
  rewrite (nth_error_nth' (lines cfg) [] (n := n)) by lia. rewrite Nat.sub_0_r.
  reflexivity.
Qed.

(** At the end of the input, a state inside its configuration sits at the end
    of its line. *)
Lemma state_in_eof_column : forall cfg st,
  state_in cfg st -> byte_offset st = length (input cfg) ->
  column_byte st = length (nth (line st - 1) (lines cfg) []).
Proof.
  intros cfg st (Hin & Hl & Hc & Hoff) Heof.
  rewrite Hin in Heof. rewrite (concat_split (lines cfg) (line st - 1)) in Heof by lia.
  rewrite !length_app in Heof. lia.
Qed.

Lemma newline_codegen_fake : forall v cs, newline_codegen (mkNewline v Fake) cs = Some cs.
Proof. reflexivity. Qed.

(** C3: at the end of the input and off column zero, [parse_newline] returns
    [Some(Newline(None, Fake))] and leaves the scan state unchanged; and the
    code generation of a fake newline appends nothing. *)
Theorem fake_newline_at_eof : forall cfg st,
  state_in cfg st -> byte_offset st = length (input cfg) -> column_byte st <> 0 ->
  parse_newline cfg st = (Ok (Some (mkNewline None Fake)), st) /\
  (forall v cs, newline_codegen (mkNewline v Fake) cs = Some cs).
Proof.
  intros cfg st Hst Heof Hc0. split; [|exact newline_codegen_fake].
  pose proof (state_in_eof_column cfg st Hst Heof) as Hcol.
  destruct Hst as (Hin & Hl & _ & _).
  unfold parse_newline, bind, get, lift, get_line_after_column.
  rewrite (get_line_nth cfg (line st) Hl). simpl.
  assert (Hb : is_char_boundary (nth (line st - 1) (lines cfg) []) (column_byte st) = true).
  { unfold is_char_boundary. rewrite Hcol, Nat.eqb_refl, orb_true_r. reflexivity. }
  rewrite Hb. rewrite Hcol, skipn_all. simpl.
  rewrite <- Hcol, Heof, Nat.eqb_refl.
  apply Nat.eqb_neq in Hc0. rewrite Hc0. reflexivity.
Qed.

Lemma fake_newline_at_eof_witness :
  state_in eof_cfg eof_state /\
  parse_newline eof_cfg eof_state = (Ok (Some (mkNewline None Fake)), eof_state).
Proof.
  assert (H : state_in eof_cfg eof_state).
  { unfold state_in; simpl. repeat split; lia. }
  split; [exact H|].
  apply (fake_newline_at_eof eof_cfg eof_state H); [reflexivity | discriminate].
Defined.

(** ** Trailing whitespace *)

Lemma no_twe_ret : forall A (a : A), no_twe (ret a).
Proof. intros A a st. discriminate. Qed.

Lemma no_twe_get : no_twe get.
Proof. intros st. discriminate. Qed.

Lemma no_twe_put : forall st', no_twe (put st').
Proof. intros st' st. discriminate. Qed.

Lemma no_twe_throw_internal : forall A m, no_twe (@throw A (InternalError m)).
Proof. intros A m st. discriminate. Qed.

Lemma no_twe_lift : forall A (r : Result A),
  r <> Err TrailingWhitespaceError -> no_twe (lift r).
Proof. intros A r H st. exact H. Qed.

Lemma no_twe_bind : forall A B (m : M A) (f : A -> M B),
  no_twe m -> (forall a, no_twe (f a)) -> no_twe (bind m f).
Proof.
  intros A B m f Hm Hf st. unfold bind.
  specialize (Hm st). destruct (m st) as [[a|e| |] st']; simpl in *;
    [apply Hf | congruence | discriminate | discriminate].
Qed.

Lemma get_line_no_twe : forall cfg n, get_line cfg n <> Err TrailingWhitespaceError.
Proof.
  intros cfg [|n]; unfold get_line; [discriminate|].
  destruct (nth_error (lines cfg) n); discriminate.
Qed.

Lemma get_line_after_column_no_twe : forall cfg n c,
  get_line_after_column cfg n c <> Err TrailingWhitespaceError.
Proof.
  intros cfg n c. unfold get_line_after_column.
  pose proof (get_line_no_twe cfg n) as H.
  destruct (get_line cfg n); simpl; [destruct is_char_boundary| | |]; congruence.
Qed.

Lemma capture_ws_no_twe : forall cfg l c,
  capture_ws cfg l c <> Err TrailingWhitespaceError.
Proof.
  intros cfg l c. unfold capture_ws.
  pose proof (get_line_after_column_no_twe cfg l c) as H.
  destruct (get_line_after_column cfg l c); simpl; congruence.
Qed.

Lemma str_slice_no_twe : forall s a b, str_slice s a b <> Err TrailingWhitespaceError.
Proof. intros s a b. unfold str_slice. destruct (_ && _); discriminate. Qed.

Create HintDb twe.

Global Hint Resolve no_twe_ret no_twe_get no_twe_put no_twe_throw_internal
  get_line_no_twe get_line_after_column_no_twe capture_ws_no_twe str_slice_no_twe
  : twe.

Ltac twe_step :=
  match goal with
  | |- no_twe (bind _ _) => apply no_twe_bind; [|intro]
  | |- no_twe (lift _) => apply no_twe_lift
  | |- no_twe (match ?x with _ => _ end) => destruct x
  | |- no_twe (if ?b then _ else _) => destruct b
  | |- _ => solve [auto with twe]
  end.

Lemma advance_to_next_line_no_twe : forall cfg, no_twe (advance_to_next_line cfg).
Proof.
  intros cfg st. unfold advance_to_next_line.
  pose proof (get_line_no_twe cfg (line st)) as H.
  destruct (get_line cfg (line st)); simpl; [destruct (_ <=? _)| | |];
    simpl; congruence.
Qed.

Lemma advance_this_line_no_twe : forall cfg c o, no_twe (advance_this_line cfg c o).
Proof. intros cfg c o. unfold advance_this_line. repeat twe_step. Qed.

Global Hint Resolve advance_to_next_line_no_twe advance_this_line_no_twe : twe.

Lemma parse_comment_no_twe : forall cfg, no_twe (parse_comment cfg).
Proof. intros cfg. unfold parse_comment. repeat twe_step. Qed.

Lemma parse_newline_no_twe : forall cfg, no_twe (parse_newline cfg).
Proof. intros cfg. unfold parse_newline. repeat twe_step. Qed.

Lemma simple_whitespace_loop_no_twe : forall cfg fuel,
  no_twe (simple_whitespace_loop cfg fuel).
Proof.
  intros cfg fuel. induction fuel as [|k IH]; simpl.
  - intros st. discriminate.
  - repeat twe_step.
Qed.

Global Hint Resolve simple_whitespace_loop_no_twe : twe.

Lemma parse_simple_whitespace_no_twe : forall cfg, no_twe (parse_simple_whitespace cfg).
Proof. intros cfg. unfold parse_simple_whitespace. repeat twe_step. Qed.

(** C7: [parse_trailing_whitespace] fails with [TrailingWhitespaceError]
    exactly when no newline, real or fake, follows the optional simple
    whitespace and the optional comment; on that error (and on any other
    failure) the caller's scan state is returned as it was on entry. *)
Theorem trailing_whitespace_error_iff : forall cfg st r st',
  parse_trailing_whitespace cfg st = (r, st') ->
  (r = Err TrailingWhitespaceError <-> newline_missing cfg st) /\
  (r = Err TrailingWhitespaceError -> st' = st).
Proof.
  intros cfg st r st' H.
  unfold parse_trailing_whitespace, parse_optional_trailing_whitespace, speculate in H.
  unfold bind at 1 in H. unfold bind at 1 in H.
  pose proof (parse_simple_whitespace_no_twe cfg st) as T1.
  destruct (parse_simple_whitespace cfg st) as [[w|e1| |] st1] eqn:E1; simpl in T1.
  2-4: unfold newline_missing; simpl in H; injection H as <- <-;
    split; [split; [intros Hr; try discriminate; congruence
                   | intros (w' & st1' & c & st2 & st3 & H1 & _); congruence]
           | intros; reflexivity].
  unfold bind at 1 in H.
  pose proof (parse_comment_no_twe cfg st1) as T2.
  destruct (parse_comment cfg st1) as [[c|e2| |] st2] eqn:E2; simpl in T2.
  2-4: unfold newline_missing; simpl in H; injection H as <- <-;
    split; [split; [intros Hr; try discriminate; congruence
                   | intros (w' & st1' & c & st2' & st3 & H1 & H2 & _);
                     rewrite E1 in H1; injection H1 as <- <-; congruence]
           | intros; reflexivity].
  unfold bind at 1 in H.
  pose proof (parse_newline_no_twe cfg st2) as T3.
  destruct (parse_newline cfg st2) as [[[nl|]|e3| |] st3] eqn:E3; simpl in T3.
  - simpl in H. injection H as <- <-. split; [|discriminate]. split; [discriminate|].
    intros (w' & st1' & c' & st2' & st3' & H1 & H2 & H3).
    rewrite E1 in H1; injection H1 as <- <-. rewrite E2 in H2; injection H2 as <- <-.
    congruence.
  - simpl in H. injection H as <- <-. split; [|intros; reflexivity]. split; [|intros; reflexivity].
    intros _. exists w, st1, c, st2, st3. auto.
  - simpl in H. injection H as <- <-. split; [|intros; reflexivity]. split.
    + intros Hr. congruence.
    + intros (w' & st1' & c' & st2' & st3' & H1 & H2 & H3).
      rewrite E1 in H1; injection H1 as <- <-. rewrite E2 in H2; injection H2 as <- <-.
      congruence.
  - simpl in H. injection H as <- <-. split; [|intros; reflexivity]. split; [discriminate|].
    intros (w' & st1' & c' & st2' & st3' & H1 & H2 & H3).
    rewrite E1 in H1; injection H1 as <- <-. rewrite E2 in H2; injection H2 as <- <-.
    congruence.
  - simpl in H. injection H as <- <-. split; [|intros; reflexivity]. split; [discriminate|].
    intros (w' & st1' & c' & st2' & st3' & H1 & H2 & H3).
    rewrite E1 in H1; injection H1 as <- <-. rewrite E2 in H2; injection H2 as <- <-.
    congruence.
Qed.

Lemma trailing_whitespace_error_iff_witness :
  parse_trailing_whitespace no_nl_cfg no_nl_state
    = (Err TrailingWhitespaceError, no_nl_state) /\
  newline_missing no_nl_cfg no_nl_state.
Proof.
  assert (H : parse_trailing_whitespace no_nl_cfg no_nl_state
              = (Err TrailingWhitespaceError, no_nl_state)) by (vm_compute; reflexivity).
  split; [exact H|].
  destruct (trailing_whitespace_error_iff no_nl_cfg no_nl_state _ _ H) as [[Hiff _] _].
  apply Hiff. reflexivity.
Defined.

(** ** The footer of an indented block *)

Lemma last_opt_snoc : forall A (l : list A) x, last_opt (l ++ [x]) = Some x.
Proof.
  intros A l x. induction l as [|a l IH]; [reflexivity|].
  simpl. destruct (l ++ [x]) eqn:E; [destruct l; discriminate | exact IH].
Qed.

Lemma pop_to_indented_split : forall o rl,
  exists tl, rl = tl ++ pop_to_indented (Some o) rl /\
    (forall p, In p tl -> at_override o (snd p) = false) /\
    (pop_to_indented (Some o) rl = [] \/
     exists s e rest, pop_to_indented (Some o) rl = (s, e) :: rest /\
                      at_override o e = true).
Proof.
  intros o rl. induction rl as [|[s e] rl IH].
  - exists []. simpl. split; [reflexivity | split; [intros p [] | left; reflexivity]].
  - simpl. destruct (el_indent e && opt_str_eqb (el_indentation e) (Some o)) eqn:E.
    + exists []. split; [reflexivity|]. split; [intros p []|].
      right. exists s, e, rl. auto.
    + destruct IH as (tl & Hrl & Htl & Hpop). exists ((s, e) :: tl).
      split; [simpl; f_equal; exact Hrl|]. split; [|exact Hpop].
      intros p [<-|Hp]; [exact E | apply Htl, Hp].
Qed.

Lemma trim_unindented_tail_split : forall o all,
  exists post, all = trim_unindented_tail (Some o) all ++ post /\
    (forall p, In p post -> at_override o (snd p) = false) /\
    (trim_unindented_tail (Some o) all = [] \/
     exists pre0 s e, trim_unindented_tail (Some o) all = pre0 ++ [(s, e)] /\
                      at_override o e = true).
Proof.
  intros o all. unfold trim_unindented_tail.
  destruct (pop_to_indented_split o (rev all)) as (tl & Hrl & Htl & Hpop).
  set (pp := pop_to_indented (Some o) (rev all)) in *. clearbody pp.
  exists (rev tl). split; [|split].
  - rewrite <- (rev_involutive all) at 1. rewrite Hrl, rev_app_distr. reflexivity.
  - intros p Hp. apply Htl. apply in_rev. exact Hp.
  - destruct Hpop as [-> | (s & e & rest & -> & He)]; [left; reflexivity|].
    right. exists (rev rest), s, e. split; [reflexivity | exact He].
Qed.

Lemma find_last_line_at_step : forall cfg o i p rest acc r,
  find_last_line_at_from cfg i (p :: rest) (Some o) acc = Ok r ->
  find_last_line_at_from cfg (S i) rest (Some o)
    (if deeper_line cfg o p then Some i else acc) = Ok r.
Proof.
  intros cfg o i [s e] rest acc r H. simpl in H. unfold deeper_line.
  destruct (get_line cfg _); [|exact H|exact H|exact H].
  destruct (negb _); simpl; [|exact H].
  destruct (starts_with _ _); simpl; [|exact H].
  destruct (nth_error _ _); [|discriminate].
  destruct (_ || _); exact H.
Qed.

Lemma find_last_line_at_from_spec : forall cfg o ls i acc r,
  find_last_line_at_from cfg i ls (Some o) acc = Ok r ->
  (r = acc /\ forall p, In p ls -> deeper_line cfg o p = false) \/
  (exists d0 d kept, ls = d0 ++ d :: kept /\ r = Some (i + length d0) /\
     deeper_line cfg o d = true /\ forall p, In p kept -> deeper_line cfg o p = false).
Proof.
  intros cfg o ls. induction ls as [|p rest IH]; intros i acc r H.
  - left. simpl in H. split; [congruence | intros p []].
  - apply find_last_line_at_step in H.
    destruct (IH _ _ _ H) as [[-> Hall] | (d0 & d & kept & -> & -> & Hd & Hkept)].
    + destruct (deeper_line cfg o p) eqn:Ep.
      * right. exists [], p, rest. rewrite Nat.add_0_r. auto.
      * left. split; [reflexivity|]. intros q [<-|Hq]; [exact Ep | apply Hall, Hq].
    + right. exists (p :: d0), d, kept. simpl. rewrite Nat.add_succ_r. auto.
Qed.

Lemma skipn_cut : forall A (d0 : list A) d kept,
  skipn (S (length d0)) (d0 ++ d :: kept) = kept.
Proof. intros A d0 d kept. induction d0 as [|a d0 IH]; [reflexivity | exact IH]. Qed.

(** C2, counterexample: in the footer of [if x:] the comment line [    # same]
    is at exactly the block's indentation and no captured line is indented
    deeper, yet [parse_empty_lines] returns it. *)
Lemma footer_without_deeper_line :
  match _parse_all_empty_lines footer_cfg (Some indent4) footer_state,
        parse_empty_lines footer_cfg (Some indent4) footer_state with
  | (Ok all, _), (Ok ls, _) =>
      forallb (fun p => negb (deeper_line footer_cfg indent4 p)) all = true /\
      length ls = 1
  | _, _ => False
  end.
Proof. vm_compute. split; reflexivity. Qed.

(** C2, amended: with the override [o], the speculatively parsed lines are
    [pre ++ post], where [pre] ends at the last line indented at exactly [o]
    and no line of [post] is; the scan state moves to the end of [pre] (it is
    unchanged when [pre] is empty), leaving [post] unconsumed.  [pre] is cut
    after its last line indented deeper than [o]: the lines up to and
    including the cut are consumed but returned nowhere, and the returned
    footer is exactly the lines of [pre] after the cut (all of [pre] when no
    line is deeper). *)
Theorem parse_empty_lines_footer : forall cfg o st ls st',
  parse_empty_lines cfg (Some o) st = (Ok ls, st') ->
  exists all st_all pre post dropped kept,
    _parse_all_empty_lines cfg (Some o) st = (Ok all, st_all) /\
    all = pre ++ post /\
    (forall p, In p post -> at_override o (snd p) = false) /\
    ((pre = [] /\ st' = st) \/
     (exists pre0 s e, pre = pre0 ++ [(s, e)] /\ at_override o e = true /\ st' = s)) /\
    pre = dropped ++ kept /\
    (dropped = [] \/
     exists d0 d, dropped = d0 ++ [d] /\ deeper_line cfg o d = true) /\
    (forall p, In p kept -> deeper_line cfg o p = false) /\
    ls = map snd kept.
Proof.
  intros cfg o st ls st' H. unfold parse_empty_lines in H.
  destruct (_parse_all_empty_lines cfg (Some o) st) as [[all|e| |] st_all] eqn:Eall;
    try discriminate.
  destruct (trim_unindented_tail_split o all) as (post & Hall & Hpost & Hpre).
  set (pre := trim_unindented_tail (Some o) all) in *.
  destruct (find_last_line_at cfg pre (Some o)) as [r| | |] eqn:Ef; try discriminate.
  injection H as Hls Hst.
  assert (Hstate : (pre = [] /\ st' = st) \/
     (exists pre0 s e, pre = pre0 ++ [(s, e)] /\ at_override o e = true /\ st' = s)).
  { destruct Hpre as [Hnil | (pre0 & s & e & Hsnoc & He)].
    - left. split; [exact Hnil|]. rewrite <- Hst, Hnil. reflexivity.
    - right. exists pre0, s, e. split; [exact Hsnoc|]. split; [exact He|].
      rewrite <- Hst, Hsnoc, last_opt_snoc. reflexivity. }
  exists all, st_all, pre, post.
  unfold find_last_line_at in Ef.
  destruct (find_last_line_at_from_spec cfg o pre 0 None r Ef)
    as [[-> Hnone] | (d0 & d & kept & Hsplit & -> & Hd & Hkept)].
  - exists [], pre.
    refine (conj eq_refl (conj Hall (conj Hpost (conj Hstate
              (conj eq_refl (conj (or_introl eq_refl) (conj Hnone _))))))).
    rewrite <- Hls. reflexivity.
  - exists (d0 ++ [d]), kept.
    refine (conj eq_refl (conj Hall (conj Hpost (conj Hstate
              (conj _ (conj _ (conj Hkept _))))))).
    + rewrite Hsplit, <- app_assoc. reflexivity.
    + right. exists d0, d. split; [reflexivity | exact Hd].
    + rewrite <- Hls, Hsplit. cbv beta iota. rewrite Nat.add_0_l, skipn_cut. reflexivity.
Qed.

Lemma parse_empty_lines_footer_witness :
  exists ls st',
    parse_empty_lines deeper_cfg (Some indent4) footer_state = (Ok ls, st') /\
    exists all st_all pre post dropped kept,
      _parse_all_empty_lines deeper_cfg (Some indent4) footer_state = (Ok all, st_all) /\
      all = pre ++ post /\
      (forall p, In p post -> at_override indent4 (snd p) = false) /\
      ((pre = [] /\ st' = footer_state) \/
       (exists pre0 s e, pre = pre0 ++ [(s, e)] /\ at_override indent4 e = true /\
                         st' = s)) /\
      pre = dropped ++ kept /\
      (dropped = [] \/
       exists d0 d, dropped = d0 ++ [d] /\ deeper_line deeper_cfg indent4 d = true) /\
      (forall p, In p kept -> deeper_line deeper_cfg indent4 p = false) /\
      ls = map snd kept.
Proof.
  destruct (parse_empty_lines deeper_cfg (Some indent4) footer_state) as [r st'] eqn:E.
  vm_compute in E.
  destruct r as [ls| | |]; try discriminate.
  exists ls, st'. split; [reflexivity|].
  apply (parse_empty_lines_footer deeper_cfg indent4 footer_state ls st' E).
Defined.

(** ** Lines between a decorator and its [def] *)

(** C5: for [@d\n \ndef f(): ...\n], whose blank line holds one space, the
    built [FunctionDef] keeps that line nowhere: [lines_after_decorators] and
    [leading_lines] are empty, and the decorator's leading lines and trailing
    whitespace are empty too.  [parse_empty_lines] consumed the line and
    [find_last_line_at] counted it as droppable. *)
Theorem whitespace_line_after_decorator_lost :
  match decorated_def (SPACE :: [NL]) with
  | Ok fd =>
      fd_lines_after_decorators fd = [] /\ fd_leading_lines fd = [] /\
      forall d, In d (fd_decorators fd) ->
        dec_leading_lines d = [] /\
        dec_trailing_whitespace d
          = mkTrailingWhitespace (mkSimpleWhitespace []) None (mkNewline None Real)
  | _ => False
  end.
Proof.
  vm_compute. split; [reflexivity|]. split; [reflexivity|].
  intros d [<- | []]. split; reflexivity.
Qed.

(** By contrast, a blank line holding only its newline is stored in
    [lines_after_decorators]. *)
Lemma empty_line_after_decorator_kept :
  match decorated_def [NL] with
  | Ok fd => map (fun e => sw_str (el_whitespace e)) (fd_lines_after_decorators fd) = [[]]
  | _ => False
  end.
Proof. vm_compute. reflexivity. Qed.

(** ** Termination of the empty-line loop *)



Lemma advances_refl : forall s, advances s s.
Proof. intros s. unfold advances. lia. Qed.

Lemma advances_trans : forall s1 s2 s3, advances s1 s2 -> advances s2 s3 -> advances s1 s3.
Proof. unfold advances. intros. lia. Qed.

Lemma bind_ok : forall A B (m : M A) (f : A -> M B) st b st'',
  bind m f st = (Ok b, st'') -> exists a st', m st = (Ok a, st') /\ f a st' = (Ok b, st'').
Proof.
  intros A B m f st b st'' H. unfold bind in H.
  destruct (m st) as [[a| | |] s]; try discriminate. eauto.
Qed.

Lemma get_line_ok_range : forall cfg n l, get_line cfg n = Ok l ->
  1 <= n <= length (lines cfg).
Proof.
  intros cfg [|n] l H; simpl in H; [discriminate|].
  destruct (nth_error (lines cfg) n) eqn:E; [|discriminate].
  assert (n < length (lines cfg)) by (apply nth_error_Some; congruence). lia.
Qed.

Ltac crush_in H :=
  repeat (simpl in H; match type of H with
    | context [match ?x with _ => _ end] => let E := fresh "E" in destruct x eqn:E
    | context [if ?x then _ else _] => let E := fresh "E" in destruct x eqn:E
    end); simpl in H; try discriminate.

Lemma advance_to_next_line_ok : forall cfg st u st',
  advance_to_next_line cfg st = (Ok u, st') ->
  line st' = S (line st) /\ column_byte st' = 0 /\ byte_offset st <= byte_offset st'.
Proof.
  intros cfg st u st' H. unfold advance_to_next_line in H. crush_in H.
  injection H as _ <-. simpl. lia.
Qed.

Lemma advance_this_line_ok : forall cfg c o st u st',
  advance_this_line cfg c o st = (Ok u, st') ->
  line st' = line st /\ column_byte st' = column_byte st + o /\
  byte_offset st' = byte_offset st + o /\
  exists cur, get_line cfg (line st) = Ok cur /\ column_byte st + o <= length cur.
Proof.
  intros cfg c o st u st' H. unfold advance_this_line, bind, get, lift, put, throw in H.
  crush_in H. injection H as _ <-. simpl. repeat split; auto.
  exists a. split; [reflexivity|]. apply Nat.ltb_ge in E0. lia.
Qed.

Lemma simple_whitespace_loop_ok : forall cfg fuel st x st',
  simple_whitespace_loop cfg fuel st = (Ok x, st') -> advances st st'.
Proof.
  intros cfg fuel. induction fuel as [|k IH]; intros st x st' H; [discriminate|].
  simpl in H. apply bind_ok in H as (a & s & Ha & H). injection Ha as <- <-.
  apply bind_ok in H as (p & s & Hp & H). injection Hp as Hp <-.
  destruct (negb (has_backslash p)).
  - injection H as _ <-. apply advances_refl.
  - apply bind_ok in H as (u & s1 & Hu & H).
    apply advance_to_next_line_ok in Hu as (Hl & Hc & Hb).
    apply (advances_trans _ s1); [unfold advances; lia | exact (IH _ _ _ H)].
Qed.

Lemma parse_simple_whitespace_ok : forall cfg st w st',
  parse_simple_whitespace cfg st = (Ok w, st') -> advances st st'.
Proof.
  intros cfg st w st' H. unfold parse_simple_whitespace in H.
  apply bind_ok in H as (a & s & Ha & H). injection Ha as <- <-.
  apply bind_ok in H as (p & s & Hp & H).
  apply bind_ok in H as (u & s1 & Hu & H).
  apply bind_ok in H as (b & s2 & Hb & H). injection Hb as <- <-.
  apply bind_ok in H as (c & s3 & Hc & H). injection Hc as _ <-.
  injection H as _ <-.
  apply simple_whitespace_loop_ok in Hp.
  apply advance_this_line_ok in Hu as (Hl & Hcb & Hbo & _).
  apply (advances_trans _ s); [exact Hp | unfold advances; lia].
Qed.

Lemma parse_comment_ok : forall cfg st c st',
  parse_comment cfg st = (Ok c, st') -> advances st st'.
Proof.
  intros cfg st c st' H. unfold parse_comment in H.
  apply bind_ok in H as (a & s & Ha & H). injection Ha as <- <-.
  apply bind_ok in H as (r & s & Hr & H). injection Hr as _ <-.
  destruct (comment_re r).
  - apply bind_ok in H as (u & s1 & Hu & H). injection H as _ <-.
    apply advance_this_line_ok in Hu as (Hl & Hcb & Hbo & _). unfold advances. lia.
  - injection H as _ <-. apply advances_refl.
Qed.

Lemma parse_indent_ok : forall cfg ov st b st',
  parse_indent cfg ov st = (Ok b, st') ->
  advances st st' /\ line st' = line st /\
  (column_byte st <> 0 -> st' = st /\ line st = length (lines cfg) /\
     exists cur, get_line cfg (line st) = Ok cur /\ column_byte st = length cur).
Proof.
  intros cfg ov st b st' H. unfold parse_indent in H.
  apply bind_ok in H as (a & s & Ha & H). injection Ha as <- <-.
  destruct (negb (column_byte st =? 0)) eqn:Ec.
  - apply bind_ok in H as (cur & s & Hcur & H). injection Hcur as Hcur <-.
    destruct ((column_byte st =? length cur) && (line st =? length (lines cfg))) eqn:E;
      [|discriminate].
    injection H as _ <-. apply andb_true_iff in E as [E1 E2].
    apply Nat.eqb_eq in E1, E2.
    split; [apply advances_refl|]. split; [reflexivity|]. intros _.
    split; [reflexivity|]. split; [exact E2|]. exists cur. auto.
  - apply negb_false_iff, Nat.eqb_eq in Ec.
    apply bind_ok in H as (r & s & Hr & H). injection Hr as _ <-.
    destruct (starts_with r _).
    + apply bind_ok in H as (u & s1 & Hu & H). injection Hu as _ <-.
      injection H as _ <-. simpl. unfold advances. simpl.
      repeat split; try lia; intros Hc; exfalso; lia.
    + injection H as _ <-. unfold advances. repeat split; try lia; intros Hc; exfalso; lia.
Qed.

Lemma parse_newline_fake : forall cfg st v st',
  parse_newline cfg st = (Ok (Some (mkNewline v Fake)), st') ->
  st' = st /\ byte_offset st = length (input cfg).
Proof.
  intros cfg st v st' H. unfold parse_newline in H.
  apply bind_ok in H as (a & s & Ha & H). injection Ha as <- <-.
  apply bind_ok in H as (r & s & Hr & H). injection Hr as _ <-.
  destruct (newline_re r).
  - apply bind_ok in H as (u & s1 & Hu & H).
    apply bind_ok in H as (a & s2 & Ha & H). injection Ha as <- <-.
    apply bind_ok in H as (cur & s2 & Hcur & H). injection Hcur as _ <-.
    destruct (negb _); [discriminate|].
    apply bind_ok in H as (u' & s3 & Hu' & H). cbv [ret] in H. congruence.
  - destruct (_ && _) eqn:E; [|discriminate].
    injection H as _ <-. apply andb_true_iff in E as [E _].
    split; [reflexivity | apply Nat.eqb_eq, E].
Qed.

Lemma newline_re_length : forall r ns, newline_re r = Some ns -> 1 <= length ns.
Proof.
  intros [|c r] ns H; simpl in H; [discriminate|].
  destruct (Ascii.eqb c CR).
  - destruct r as [|d r]; [injection H as <-; simpl; lia|].
    destruct (Ascii.eqb d NL); injection H as <-; simpl; lia.
  - destruct (Ascii.eqb c NL); [injection H as <-; simpl; lia | discriminate].
Qed.

Lemma parse_newline_real : forall cfg st v st',
  parse_newline cfg st = (Ok (Some (mkNewline v Real)), st') ->
  (exists cur, get_line cfg (line st) = Ok cur /\ column_byte st < length cur) /\
  byte_offset st < byte_offset st' /\
  ((line st < length (lines cfg) /\ line st' = S (line st) /\ column_byte st' = 0) \/
   (length (lines cfg) <= line st /\ line st' = line st /\ column_byte st' <> 0)).
Proof.
  intros cfg st v st' H. unfold parse_newline in H.
  apply bind_ok in H as (a & s & Ha & H). injection Ha as <- <-.
  apply bind_ok in H as (r & s & Hr & H). injection Hr as _ <-.
  destruct (newline_re r) as [ns|] eqn:Ens.
  - apply newline_re_length in Ens.
    apply bind_ok in H as (u & s1 & Hu & H).
    apply advance_this_line_ok in Hu as (Hl1 & Hc1 & Hb1 & cur & Hcur & Hle).
    apply bind_ok in H as (a & s2 & Ha & H). injection Ha as <- <-.
    apply bind_ok in H as (cur' & s2 & Hcur' & H). injection Hcur' as _ <-.
    destruct (negb _); [discriminate|].
    apply bind_ok in H as (u' & s3 & Hu' & H). cbv [ret] in H. injection H as _ <-.
    split; [exists cur; split; [exact Hcur | lia]|].
    destruct (line s1 <? length (lines cfg)) eqn:El.
    + apply advance_to_next_line_ok in Hu' as (Hl2 & Hc2 & Hb2).
      apply Nat.ltb_lt in El. split; [lia|]. left. lia.
    + apply Nat.ltb_ge in El.
      cbv [ret] in Hu'. injection Hu' as _ <-. split; [lia|]. right. lia.
  - destruct (_ && _); cbv [ret] in H; discriminate.
Qed.

Lemma parse_empty_line_inv : forall cfg ov st e st',
  parse_empty_line cfg ov st = (Ok (Some e), st') ->
  exists ind s1 w s2 c s3,
    parse_indent cfg ov st = (Ok ind, s1) /\
    parse_simple_whitespace cfg s1 = (Ok w, s2) /\
    parse_comment cfg s2 = (Ok c, s3) /\
    parse_newline cfg s3 = (Ok (Some (el_newline e)), st').
Proof.
  intros cfg ov st e st' H. unfold parse_empty_line, speculate in H.
  destruct (parse_indent cfg ov st) as [[ind| | |] s1] eqn:E1.
  2-4: discriminate.
  match type of H with
  | match ?x with _ => _ end = _ => destruct x as [[[e'|]| | |] s'] eqn:E2
  end; try discriminate.
  injection H as <- <-.
  apply bind_ok in E2 as (w & s2 & Hw & E2).
  apply bind_ok in E2 as (c & s3 & Hc & E2).
  apply bind_ok in E2 as (nl & s4 & Hn & E2).
  destruct nl as [newline|]; [|discriminate].
  apply bind_ok in E2 as (a & s5 & Ha & E2). injection Ha as <- <-.
  cbv [ret] in E2. injection E2 as <- <-.
  exists ind, s1, w, s2, c, s3. auto.
Qed.

Lemma parse_empty_line_real_progress : forall cfg ov st e st',
  parse_empty_line cfg ov st = (Ok (Some e), st') ->
  newline_fakeness (el_newline e) = Real ->
  byte_offset st < byte_offset st' /\
  empty_lines_measure cfg st' < empty_lines_measure cfg st.
Proof.
  intros cfg ov st e st' H Hreal.
  apply parse_empty_line_inv in H as (ind & s1 & w & s2 & c & s3 & H1 & H2 & H3 & H4).
  destruct (el_newline e) as [v f]. simpl in Hreal. subst f.
  apply parse_indent_ok in H1 as (A1 & L1 & C1).
  apply parse_simple_whitespace_ok in H2. apply parse_comment_ok in H3.
  assert (A : advances st s3) by (eapply advances_trans; [eapply advances_trans|]; eauto).
  apply parse_newline_real in H4 as ((cur & Hcur & Hlt) & Hb & Hcase).
  pose proof (get_line_ok_range _ _ _ Hcur) as Hr.
  split; [unfold advances in A; lia|].
  unfold empty_lines_measure.
  destruct Hcase as [(Hl & Hl' & Hc') | (Hn & Hl' & Hc')].
  - rewrite Hl', Hc', Nat.eqb_refl. unfold advances in A.
    destruct (column_byte st =? 0); cbv iota; lia.
  - rewrite Hl'. apply Nat.eqb_neq in Hc'. rewrite Hc'.
    destruct (column_byte st =? 0) eqn:Ec; [unfold advances in A; cbv iota; lia|].
    apply Nat.eqb_neq in Ec.
    destruct (C1 Ec) as (-> & Hn' & cur0 & Hcur0 & Hc0).
    unfold advances in A.
    destruct (Nat.eq_dec (line s3) (line st)) as [Heq|Hne]; [|cbv iota; lia].
    rewrite Heq, Hcur0 in Hcur. injection Hcur as <-. lia.
Qed.


Lemma no_oof_bind : forall A B (m : M A) (f : A -> M B),
  no_oof m -> (forall a, no_oof (f a)) -> no_oof (bind m f).
Proof.
  intros A B m f Hm Hf st. unfold bind.
  specialize (Hm st). destruct (m st) as [[a|e| |] st']; simpl in *;
    [apply Hf | discriminate | discriminate | congruence].
Qed.

Lemma no_oof_ret : forall A (a : A), no_oof (ret a).
Proof. intros A a st. discriminate. Qed.
Lemma no_oof_get : no_oof get.
Proof. intros st. discriminate. Qed.
Lemma no_oof_put : forall st', no_oof (put st').
Proof. intros st' st. discriminate. Qed.
Lemma no_oof_throw : forall A e, no_oof (@throw A e).
Proof. intros A e st. discriminate. Qed.
Lemma no_oof_lift : forall A (r : Result A), r <> OutOfFuel -> no_oof (lift r).
Proof. intros A r H st. exact H. Qed.

Lemma get_line_no_oof : forall cfg n, get_line cfg n <> OutOfFuel.
Proof.
  intros cfg [|n]; unfold get_line; [discriminate|].
  destruct (nth_error (lines cfg) n); discriminate.
Qed.

Lemma get_line_after_column_no_oof : forall cfg n c,
  get_line_after_column cfg n c <> OutOfFuel.
Proof.
  intros cfg n c. unfold get_line_after_column.
  pose proof (get_line_no_oof cfg n) as H.
  destruct (get_line cfg n); simpl; [destruct is_char_boundary| | |]; congruence.
Qed.

Lemma capture_ws_no_oof : forall cfg l c, capture_ws cfg l c <> OutOfFuel.
Proof.
  intros cfg l c. unfold capture_ws.
  pose proof (get_line_after_column_no_oof cfg l c) as H.
  destruct (get_line_after_column cfg l c); simpl; congruence.
Qed.

Lemma str_slice_no_oof : forall s a b, str_slice s a b <> OutOfFuel.
Proof. intros s a b. unfold str_slice. destruct (_ && _); discriminate. Qed.

Lemma advance_to_next_line_no_oof : forall cfg, no_oof (advance_to_next_line cfg).
Proof.
  intros cfg st. unfold advance_to_next_line.
  pose proof (get_line_no_oof cfg (line st)) as H.
  destruct (get_line cfg (line st)); simpl; [destruct (_ <=? _)| | |];
    simpl; congruence.
Qed.

Create HintDb oof.
Global Hint Resolve no_oof_ret no_oof_get no_oof_put no_oof_throw
  get_line_no_oof get_line_after_column_no_oof capture_ws_no_oof str_slice_no_oof
  advance_to_next_line_no_oof : oof.

Ltac oof_step :=
  match goal with
  | |- no_oof (bind _ _) => apply no_oof_bind; [|intro]
  | |- no_oof (lift _) => apply no_oof_lift
  | |- no_oof (match ?x with _ => _ end) => destruct x
  | |- no_oof (if ?b then _ else _) => destruct b
  | |- _ => solve [auto with oof]
  end.

Lemma advance_this_line_no_oof : forall cfg c o, no_oof (advance_this_line cfg c o).
Proof. intros cfg c o. unfold advance_this_line. repeat oof_step. Qed.

Global Hint Resolve advance_this_line_no_oof : oof.

Lemma parse_comment_no_oof : forall cfg, no_oof (parse_comment cfg).
Proof. intros cfg. unfold parse_comment. repeat oof_step. Qed.

Lemma parse_newline_no_oof : forall cfg, no_oof (parse_newline cfg).
Proof. intros cfg. unfold parse_newline. repeat oof_step. Qed.

Lemma parse_indent_no_oof : forall cfg ov, no_oof (parse_indent cfg ov).
Proof. intros cfg ov. unfold parse_indent. repeat oof_step. Qed.

(** Each round of the continuation loop that does not exit moves to the next
    line, and [capture_ws] fails outside [1 .. |lines|]. *)
Lemma simple_whitespace_loop_no_oof : forall cfg fuel st,
  0 < fuel -> (line st = 0 \/ length (lines cfg) + 2 <= fuel + line st) ->
  fst (simple_whitespace_loop cfg fuel st) <> OutOfFuel.
Proof.
  intros cfg fuel. induction fuel as [|k IH]; intros st Hf Hl; [lia|].
  simpl. unfold bind at 1, get. unfold bind at 1, lift.
  pose proof (capture_ws_no_oof cfg (line st) (column_byte st)) as Hc.
  destruct (capture_ws cfg (line st) (column_byte st)) as [p| | |] eqn:Ec;
    try (simpl; congruence).
  assert (Hr : 1 <= line st <= length (lines cfg)).
  { unfold capture_ws, get_line_after_column in Ec.
    destruct (get_line cfg (line st)) eqn:Eg; try discriminate.
    exact (get_line_ok_range _ _ _ Eg). }
  destruct (negb (has_backslash p)); [discriminate|].
  unfold bind.
  pose proof (advance_to_next_line_no_oof cfg st) as Ha.
  destruct (advance_to_next_line cfg st) as [[u| | |] s1] eqn:Ea; try (simpl in *; congruence).
  apply advance_to_next_line_ok in Ea as (Hl1 & _ & _).
  apply IH; lia.
Qed.

Lemma parse_simple_whitespace_no_oof : forall cfg, no_oof (parse_simple_whitespace cfg).
Proof.
  intros cfg st. unfold parse_simple_whitespace. unfold bind at 1, get. cbv beta zeta.
  unfold bind at 1.
  pose proof (simple_whitespace_loop_no_oof cfg (simple_whitespace_bound cfg) st) as H.
  destruct (simple_whitespace_loop cfg (simple_whitespace_bound cfg) st)
    as [[p|e| |] s1]; simpl; try discriminate.
  - clear H. match goal with
    | |- fst (?m s1) <> _ => assert (Hm : no_oof m) by (repeat oof_step); apply Hm
    end.
  - simpl in H. exfalso. apply H; [unfold simple_whitespace_bound; lia | lia | reflexivity].
Qed.

Global Hint Resolve parse_comment_no_oof parse_newline_no_oof parse_indent_no_oof
  parse_simple_whitespace_no_oof : oof.

Lemma parse_empty_line_no_oof : forall cfg ov st,
  fst (parse_empty_line cfg ov st) <> OutOfFuel.
Proof.
  intros cfg ov st. unfold parse_empty_line, speculate. cbv beta.
  pose proof (parse_indent_no_oof cfg ov st) as Hi.
  destruct (parse_indent cfg ov st) as [[ind|e| |] s1]; simpl in Hi |- *;
    try congruence.
  match goal with
  | |- fst (match ?m s1 with _ => _ end) <> _ =>
      assert (Hm : no_oof m) by (repeat oof_step); specialize (Hm s1);
      destruct (m s1) as [[[a|]| | |] s']; simpl in *; congruence
  end.
Qed.

Lemma parse_empty_line_line0 : forall cfg ov st,
  line st = 0 -> parse_empty_line cfg ov st = (Ok None, st).
Proof.
  intros cfg ov st H.
  unfold parse_empty_line, speculate, parse_indent, bind, get, lift.
  cbv beta. rewrite H. destruct (negb _); reflexivity.
Qed.

Lemma all_empty_lines_loop_no_oof : forall cfg ov fuel acc st,
  0 < fuel -> (line st = 0 \/ empty_lines_measure cfg st < fuel) ->
  fst (all_empty_lines_loop cfg fuel ov acc st) <> OutOfFuel.
Proof.
  intros cfg ov fuel. induction fuel as [|k IH]; intros acc st Hf Hm; [lia|].
  simpl. unfold bind at 1.
  pose proof (parse_empty_line_no_oof cfg ov st) as Hn.
  destruct (parse_empty_line cfg ov st) as [[[e|]|e| |] s'] eqn:E;
    simpl in Hn |- *; try congruence.
  destruct (is_fake_line e) eqn:F; [discriminate|].
  assert (Hreal : newline_fakeness (el_newline e) = Real).
  { unfold is_fake_line in F. destruct (newline_fakeness (el_newline e)); congruence. }
  destruct (Nat.eq_dec (line st) 0) as [H0|H0].
  - rewrite (parse_empty_line_line0 cfg ov st H0) in E. discriminate.
  - destruct Hm as [Hm|Hm]; [lia|].
    destruct (parse_empty_line_real_progress cfg ov st e s' E Hreal) as [_ Hlt].
    apply IH; [lia | right; lia].
Qed.

Lemma app_cons_snoc : forall A (pre post acc : list A) x y,
  pre ++ x :: post = acc ++ [y] -> post = [] \/ In x acc.
Proof.
  intros A pre post acc x y H.
  destruct post as [|z post] using rev_ind; [left; reflexivity|]. right.
  rewrite app_comm_cons, app_assoc in H. apply app_inj_tail in H as [<- _].
  apply in_or_app. right. left. reflexivity.
Qed.

Lemma all_empty_lines_loop_fake_last : forall cfg ov fuel acc st res st',
  (forall p, In p acc -> is_fake_line (snd p) = false) ->
  all_empty_lines_loop cfg fuel ov acc st = (Ok res, st') ->
  forall pre x post, res = pre ++ x :: post -> is_fake_line (snd x) = true -> post = [].
Proof.
  intros cfg ov fuel. induction fuel as [|k IH]; intros acc st res st' Hacc H;
    [discriminate|].
  simpl in H. apply bind_ok in H as (r & s & Hr & H).
  intros pre x post Hres Hx.
  destruct r as [e|].
  - apply bind_ok in H as (a & s1 & Ha & H). injection Ha as <- <-.
    destruct (is_fake_line e) eqn:F.
    + cbv [ret] in H. injection H as <- _.
      destruct (app_cons_snoc _ _ _ _ _ _ (eq_sym Hres)) as [Hp|Hin]; [exact Hp|].
      rewrite (Hacc x Hin) in Hx. discriminate.
    + refine (IH _ _ _ _ _ H pre x post Hres Hx).
      intros p Hp. apply in_app_or in Hp as [Hp|[<-|[]]]; [apply Hacc, Hp | exact F].
  - cbv [ret] in H. injection H as <- _.
    assert (Hin : In x acc) by (rewrite Hres; apply in_or_app; right; left; reflexivity).
    rewrite (Hacc x Hin) in Hx. discriminate.
Qed.

Lemma fake_last_count : forall (ls : list (State * EmptyLine)),
  (forall pre x post, ls = pre ++ x :: post -> is_fake_line (snd x) = true -> post = []) ->
  length (filter (fun p => is_fake_line (snd p)) ls) <= 1.
Proof.
  induction ls as [|p ls IH]; intros H; simpl; [lia|].
  destruct (is_fake_line (snd p)) eqn:F.
  - rewrite (H [] p ls eq_refl F). simpl. lia.
  - apply IH. intros pre x post Hls Hx. apply (H (p :: pre) x post); [|exact Hx].
    rewrite Hls. reflexivity.
Qed.

(** C10: the empty-line loop of [_parse_all_empty_lines] terminates within its
    iteration bound (it never runs out of fuel) for every configuration and
    scan state; an empty line captured with a real newline strictly increases
    the byte offset; a fake newline consumes nothing and is only produced at
    the end of the input; the loop stops right after a line with a fake
    newline, which is therefore the last captured line, and at most one
    captured line has a fake newline. *)
Theorem empty_lines_loop_terminates : forall cfg ov st,
  fst (_parse_all_empty_lines cfg ov st) <> OutOfFuel /\
  (forall e st', parse_empty_line cfg ov st = (Ok (Some e), st') ->
     newline_fakeness (el_newline e) = Real -> byte_offset st < byte_offset st') /\
  (forall v st', parse_newline cfg st = (Ok (Some (mkNewline v Fake)), st') ->
     st' = st /\ byte_offset st = length (input cfg)) /\
  (forall ls st', _parse_all_empty_lines cfg ov st = (Ok ls, st') ->
     (forall pre x post, ls = pre ++ x :: post -> is_fake_line (snd x) = true -> post = []) /\
     length (filter (fun p => is_fake_line (snd p)) ls) <= 1).
Proof.
  intros cfg ov st. split; [|split; [|split]].
  - unfold _parse_all_empty_lines, empty_lines_bound.
    apply all_empty_lines_loop_no_oof; [lia|].
    destruct (Nat.eq_dec (line st) 0) as [H0|H0]; [left; exact H0|right].
    unfold empty_lines_measure. destruct (column_byte st =? 0); cbv iota; lia.
  - intros e st' H Hr. exact (proj1 (parse_empty_line_real_progress cfg ov st e st' H Hr)).
  - intros v st' H. exact (parse_newline_fake cfg st v st' H).
  - intros ls st' H.
    assert (Hl : forall pre x post, ls = pre ++ x :: post ->
                 is_fake_line (snd x) = true -> post = []).
    { apply (all_empty_lines_loop_fake_last cfg ov (empty_lines_bound cfg) [] st ls st');
        [intros p [] | exact H]. }
    split; [exact Hl | exact (fake_last_count ls Hl)].
Qed.

Lemma empty_lines_loop_terminates_witness :
  exists ls st',
    _parse_all_empty_lines eof_cfg None eof_state = (Ok ls, st') /\
    map (fun p => is_fake_line (snd p)) ls = [true] /\
    length (filter (fun p => is_fake_line (snd p)) ls) <= 1.
Proof.
  destruct (empty_lines_loop_terminates eof_cfg None eof_state) as (H1 & _ & _ & H4).
  destruct (_parse_all_empty_lines eof_cfg None eof_state) as [r st'] eqn:E.
  vm_compute in E. destruct r as [ls| | |]; try discriminate.
  exists ls, st'. split; [reflexivity|]. injection E as <- _.
  split; [reflexivity|].
  exact (proj2 (H4 _ st' eq_refl)).
Defined.

(** ** Backslash continuations in simple whitespace *)

Lemma ascii_eqb_spec : forall a b, Ascii.eqb a b = true <-> a = b.
Proof. intros a b. apply Ascii.eqb_eq. Qed.

Ltac ascii_cases :=
  repeat match goal with
  | H : Ascii.eqb _ _ = true |- _ => apply Ascii.eqb_eq in H; subst
  end.

Lemma swre_prefix : forall n s, length s <= n ->
  exists r, s = simple_whitespace_re s ++ r.
Proof.
  induction n as [|n IH]; intros [|c s] Hl; simpl in Hl; try lia;
    [exists []; reflexivity | exists []; reflexivity |].
  simpl. destruct (is_simple_space c).
  - destruct (IH s ltac:(lia)) as [r Hr]. exists r. simpl. f_equal. exact Hr.
  - destruct (Ascii.eqb c BACKSLASH); [|exists (c :: s); reflexivity].
    destruct s as [|d r2]; [exists [c]; reflexivity|].
    destruct (Ascii.eqb d CR).
    + destruct r2 as [|e r3]; [exists []; reflexivity|].
      destruct (Ascii.eqb e NL).
      * destruct (IH r3 ltac:(simpl in Hl |- *; lia)) as [r Hr]. exists r. cbn [app].
        rewrite <- Hr. reflexivity.
      * destruct (IH (e :: r3) ltac:(simpl in Hl |- *; lia)) as [r Hr]. exists r. cbn [app].
        rewrite <- Hr. reflexivity.
    + destruct (Ascii.eqb d NL).
      * destruct (IH r2 ltac:(simpl in Hl |- *; lia)) as [r Hr]. exists r. cbn [app].
        rewrite <- Hr. reflexivity.
      * exists (c :: d :: r2). reflexivity.
Qed.

Lemma swre_head : forall e r3 x xs, simple_whitespace_re (e :: r3) = x :: xs -> x = e.
Proof.
  intros e r3 x xs H. destruct (swre_prefix _ (e :: r3) (le_n _)) as [r Hr].
  rewrite H in Hr. simpl in Hr. injection Hr as Hr _. congruence.
Qed.

Lemma ws_lang_nl : forall r, ws_lang (NL :: r) = false.
Proof. reflexivity. Qed.

Lemma swre_lang : forall n s, length s <= n -> ws_lang (simple_whitespace_re s) = true.
Proof.
  induction n as [|n IH]; intros [|c s] Hl; simpl in Hl; try lia; try reflexivity.
  simpl. destruct (is_simple_space c) eqn:Es.
  - cbn [ws_lang]. rewrite Es. apply IH. lia.
  - destruct (Ascii.eqb c BACKSLASH) eqn:Eb; [|reflexivity].
    destruct s as [|d r2]; [reflexivity|].
    destruct (Ascii.eqb d CR) eqn:Ed.
    + destruct r2 as [|e r3]; [cbn [ws_lang]; rewrite Es, Eb, Ed; reflexivity|].
      destruct (Ascii.eqb e NL) eqn:Ee.
      * cbn [ws_lang]. rewrite Es, Eb, Ed, Ee. apply IH. simpl in Hl. lia.
      * cbn [ws_lang]. rewrite Es, Eb, Ed.
        destruct (simple_whitespace_re (e :: r3)) as [|x xs] eqn:Ex; [reflexivity|].
        pose proof (swre_head _ _ _ _ Ex) as Hx. subst x.
        rewrite Ee, <- Ex. apply IH. simpl in Hl |- *. lia.
    + destruct (Ascii.eqb d NL) eqn:Ed'; [|reflexivity].
      cbn [ws_lang]. rewrite Es, Eb, Ed, Ed'. apply IH. simpl in Hl. lia.
Qed.

Lemma ws_lang_app : forall n a b, length a <= n ->
  ws_lang a = true -> ws_lang b = true -> ws_lang (a ++ b) = true.
Proof.
  induction n as [|n IH]; intros [|c a] b Hl Ha Hb; simpl in Hl; try lia; try exact Hb.
  simpl in Ha |- *. destruct (is_simple_space c); [apply IH; [lia|exact Ha|exact Hb]|].
  destruct (Ascii.eqb c BACKSLASH); [|discriminate].
  destruct a as [|d r2]; [discriminate|]. simpl.
  destruct (Ascii.eqb d CR) eqn:Ed.
  - destruct r2 as [|e r3].
    + destruct b as [|e r3]; [reflexivity|].
      simpl. destruct (Ascii.eqb e NL) eqn:Ee; [|exact Hb].
      apply Ascii.eqb_eq in Ee. subst e. rewrite ws_lang_nl in Hb. discriminate.
    + simpl. destruct (Ascii.eqb e NL).
      * apply IH; [simpl in Hl; lia|exact Ha|exact Hb].
      * change (ws_lang ((e :: r3) ++ b) = true). apply IH; [simpl in Hl |- *; lia|exact Ha|exact Hb].
  - destruct (Ascii.eqb d NL); [|discriminate].
    apply IH; [simpl in Hl; lia|exact Ha|exact Hb].
Qed.

Lemma is_simple_space_not_break : forall c, is_simple_space c = true -> is_line_break c = false.
Proof.
  intros c H. unfold is_simple_space in H.
  repeat (apply orb_true_iff in H as [H|H]); apply Ascii.eqb_eq in H; subst; reflexivity.
Qed.

Lemma is_simple_space_not_backslash : forall c, is_simple_space c = true -> Ascii.eqb BACKSLASH c = false.
Proof.
  intros c H. unfold is_simple_space in H.
  repeat (apply orb_true_iff in H as [H|H]); apply Ascii.eqb_eq in H; subst; reflexivity.
Qed.

Lemma swre_backslash_physical : forall s,
  is_physical s = true -> has_backslash (simple_whitespace_re s) = true ->
  simple_whitespace_re s = s.
Proof.
  induction s as [|c r IH]; intros Hp Hb; [reflexivity|].
  cbn [simple_whitespace_re] in Hb |- *. destruct (is_simple_space c) eqn:Es.
  - cbn [is_physical] in Hp. rewrite (is_simple_space_not_break c Es) in Hp.
    change (Ascii.eqb BACKSLASH c || has_backslash (simple_whitespace_re r) = true) in Hb.
    rewrite (is_simple_space_not_backslash c Es) in Hb. simpl in Hb.
    f_equal. apply IH; [exact Hp | exact Hb].
  - destruct (Ascii.eqb c BACKSLASH) eqn:Eb; [|discriminate].
    apply Ascii.eqb_eq in Eb. subst c.
    destruct r as [|d r2]; [discriminate|].
    change (is_physical (d :: r2) = true) in Hp.
    destruct (Ascii.eqb d CR) eqn:Ed.
    + apply Ascii.eqb_eq in Ed. subst d. simpl in Hp.
      destruct r2 as [|e [|f r4]]; [reflexivity| |].
      * simpl in Hp. destruct (Ascii.eqb e NL) eqn:Ee; [|discriminate].
        apply Ascii.eqb_eq in Ee. subst e. reflexivity.
      * simpl in Hp. destruct (Ascii.eqb e NL); discriminate Hp.
    + destruct (Ascii.eqb d NL) eqn:Ed'; [|discriminate].
      apply Ascii.eqb_eq in Ed'. subst d. simpl in Hp.
      destruct r2 as [|e [|f r4]]; [reflexivity | vm_compute in Hp; discriminate Hp
                                   | vm_compute in Hp; discriminate Hp].
Qed.

Lemma is_physical_tl : forall s, is_physical s = true -> is_physical (tl s) = true.
Proof.
  intros [|c r] H; [reflexivity|]. simpl in H |- *.
  destruct (is_line_break c) eqn:Ec; [|exact H].
  destruct r as [|d [|e r]]; [reflexivity| |discriminate].
  simpl in H. apply andb_true_iff in H as [_ H]. apply Ascii.eqb_eq in H. subst d.
  reflexivity.
Qed.

Lemma is_physical_skipn : forall n s, is_physical s = true -> is_physical (skipn n s) = true.
Proof.
  induction n as [|n IH]; intros s H; [exact H|].
  destruct s as [|c r]; [reflexivity|]. simpl. apply IH.
  exact (is_physical_tl (c :: r) H).
Qed.

Lemma concat_skipn_cons : forall (ls : list str) k, k < length ls ->
  concat (skipn k ls) = nth k ls [] ++ concat (skipn (S k) ls).
Proof.
  induction ls as [|l ls IH]; intros k Hk; simpl in Hk; [lia|].
  destruct k as [|k]; [reflexivity|]. simpl. apply IH. lia.
Qed.

Lemma skipn_state : forall cfg st, state_in cfg st ->
  skipn (byte_offset st) (input cfg) =
  skipn (column_byte st) (nth (line st - 1) (lines cfg) []) ++
  concat (skipn (line st) (lines cfg)).
Proof.
  intros cfg st (Hin & Hl & Hc & Hoff). rewrite Hin, Hoff.
  rewrite (concat_split (lines cfg) (line st - 1)) by lia.
  replace (S (line st - 1)) with (line st) by lia.
  rewrite skipn_app, skipn_all2 by lia. rewrite Nat.add_comm, Nat.add_sub. simpl.
  rewrite skipn_app. replace (column_byte st - length (nth (line st - 1) (lines cfg) []))
    with 0 by lia. reflexivity.
Qed.

Lemma concat_firstn_S : forall (ls : list str) k, k < length ls ->
  length (concat (firstn (S k) ls)) = length (concat (firstn k ls)) + length (nth k ls []).
Proof.
  induction ls as [|l ls IH]; intros k Hk; simpl in Hk; [lia|].
  destruct k as [|k].
  - simpl. rewrite !length_app. simpl. lia.
  - change (length (l ++ concat (firstn (S k) ls)) =
            length (l ++ concat (firstn k ls)) + length (nth k ls [])).
    rewrite !length_app, IH by lia. lia.
Qed.

Lemma capture_ws_state : forall cfg st m, state_in cfg st ->
  capture_ws cfg (line st) (column_byte st) = Ok m ->
  m = simple_whitespace_re (skipn (column_byte st) (nth (line st - 1) (lines cfg) [])).
Proof.
  intros cfg st m (Hin & Hl & Hc & Hoff) H.
  unfold capture_ws, get_line_after_column in H. rewrite (get_line_nth cfg (line st) Hl) in H.
  simpl in H. destruct (is_char_boundary _ _); [|discriminate]. simpl in H.
  injection H as <-. reflexivity.
Qed.

Lemma simple_whitespace_loop_range : forall cfg fuel st x st1,
  simple_whitespace_loop cfg fuel st = (Ok x, st1) -> 1 <= line st <= length (lines cfg).
Proof.
  intros cfg [|k] st x st1 H; [discriminate|].
  simpl in H. apply bind_ok in H as (a & s & Ha & H). injection Ha as <- <-.
  apply bind_ok in H as (p & s & Hp & H). injection Hp as Hp _.
  unfold capture_ws, get_line_after_column in Hp.
  destruct (get_line cfg (line st)) eqn:E; try discriminate.
  exact (get_line_ok_range _ _ _ E).
Qed.

Lemma simple_whitespace_loop_spec : forall cfg fuel st x st1,
  state_in cfg st -> physical_lines cfg ->
  simple_whitespace_loop cfg fuel st = (Ok x, st1) ->
  state_in cfg st1 /\
  x = simple_whitespace_re (skipn (column_byte st1) (nth (line st1 - 1) (lines cfg) [])) /\
  exists pre,
    skipn (byte_offset st) (input cfg) = pre ++ skipn (byte_offset st1) (input cfg) /\
    byte_offset st1 = byte_offset st + length pre /\
    ws_lang pre = true /\
    (forall m, capture_ws cfg (line st) (column_byte st) = Ok m -> has_backslash m = true ->
       line st < line st1 /\ exists r, pre = m ++ r).
Proof.
  intros cfg fuel. induction fuel as [|k IH]; intros st x st1 Hst Hph H; [discriminate|].
  simpl in H. apply bind_ok in H as (a & s & Ha & H). injection Ha as <- <-.
  apply bind_ok in H as (m & s & Hm & H). injection Hm as Hm <-.
  pose proof (capture_ws_state cfg st m Hst Hm) as Hmv.
  destruct (has_backslash m) eqn:Hb; simpl in H.
  - apply bind_ok in H as (u & sa & Hu & H).
    destruct Hst as (Hin & Hl & Hc & Hoff).
    set (cur := nth (line st - 1) (lines cfg) []) in *.
    assert (Hphys : is_physical (skipn (column_byte st) cur) = true).
    { apply is_physical_skipn, Hph. unfold cur. apply nth_In. lia. }
    pose proof (swre_backslash_physical _ Hphys) as Hall.
    rewrite <- Hmv in Hall. specialize (Hall Hb).
    pose proof (simple_whitespace_loop_range _ _ _ _ _ H) as Hra.
    unfold advance_to_next_line in Hu.
    rewrite (get_line_nth cfg (line st) Hl) in Hu. fold cur in Hu.
    destruct (column_byte st <=? length cur) eqn:Hle; [|discriminate].
    injection Hu as _ <-. simpl in Hra.
    assert (Hsa : state_in cfg (set_pos st (S (line st)) 0 0
                    (byte_offset st + (length cur - column_byte st)))).
    { unfold state_in, set_pos; simpl. split; [exact Hin|]. split; [lia|]. split; [lia|].
      rewrite Nat.sub_0_r.
      pose proof (concat_firstn_S (lines cfg) (line st - 1) ltac:(lia)) as Hf.
      replace (S (line st - 1)) with (line st) in Hf by lia. fold cur in Hf. lia. }
    pose proof (skipn_state _ _ Hsa) as Hsk.
    destruct (IH _ _ _ Hsa Hph H) as (Hs1 & Hx & pre & Hpre & Hoff1 & Hlang & _).
    split; [exact Hs1|]. split; [exact Hx|].
    assert (Hmlen : length m = length cur - column_byte st).
    { rewrite Hall, length_skipn. reflexivity. }
    exists (m ++ pre). split; [|split; [|split]].
    + rewrite (skipn_state cfg st (conj Hin (conj Hl (conj Hc Hoff)))). fold cur.
      rewrite (concat_skipn_cons (lines cfg) (line st)) by lia.
      rewrite Hsk in Hpre.
      change (skipn 0 (nth (S (line st) - 1) (lines cfg) []) ++ concat (skipn (S (line st)) (lines cfg))
        = pre ++ skipn (byte_offset st1) (input cfg)) in Hpre.
      rewrite Nat.sub_succ, Nat.sub_0_r in Hpre. change (skipn 0 ?y) with y in Hpre.
      rewrite <- Hall, <- app_assoc, Hpre.
      reflexivity.
    + simpl in Hoff1. rewrite Hoff1, length_app. lia.
    + apply ws_lang_app with (n := length m); [lia| |exact Hlang].
      rewrite Hmv. apply (swre_lang _ _ (le_n _)).
    + intros m' Hm' _. rewrite Hm in Hm'. injection Hm' as <-.
      pose proof (simple_whitespace_loop_ok _ _ _ _ _ H) as Hadv.
      unfold advances in Hadv. simpl in Hadv. split; [lia|]. exists pre. reflexivity.
  - injection H as <- <-.
    split; [exact Hst|]. split; [exact Hmv|].
    exists []. split; [reflexivity|]. split; [simpl; lia|]. split; [reflexivity|].
    intros m' Hm' Hb'. rewrite Hm in Hm'. injection Hm' as <-. congruence.
Qed.

Lemma str_slice_ok : forall s a b r, str_slice s a b = Ok r -> r = firstn (b - a) (skipn a s).
Proof.
  intros s a b r H. unfold str_slice in H.
  destruct (_ && _); [injection H as <-; reflexivity | discriminate].
Qed.

Lemma has_backslash_bs : forall l, has_backslash (BACKSLASH :: l) = true.
Proof. reflexivity. Qed.

(** The greedy match stops for good: when it holds no backslash, nothing
    matches right after it. *)
Lemma swre_maximal : forall s, has_backslash (simple_whitespace_re s) = false ->
  simple_whitespace_re (skipn (length (simple_whitespace_re s)) s) = [].
Proof.
  induction s as [|c r IH]; intros H; [reflexivity|].
  cbn [simple_whitespace_re] in H |- *. destruct (is_simple_space c) eqn:Es.
  - change (Ascii.eqb BACKSLASH c || has_backslash (simple_whitespace_re r) = false) in H.
    rewrite (is_simple_space_not_backslash c Es) in H. cbn [length skipn]. exact (IH H).
  - destruct (Ascii.eqb c BACKSLASH) eqn:Eb.
    + apply Ascii.eqb_eq in Eb. subst c.
      destruct r as [|d r2]; [reflexivity|].
      destruct (Ascii.eqb d CR) eqn:Ed.
      * destruct r2 as [|e r3]; [rewrite has_backslash_bs in H; discriminate|].
        destruct (Ascii.eqb e NL); rewrite has_backslash_bs in H; discriminate.
      * destruct (Ascii.eqb d NL) eqn:Ed'; [rewrite has_backslash_bs in H; discriminate|].
        cbn [length skipn simple_whitespace_re]. rewrite Es. cbn. rewrite Ed, Ed'. reflexivity.
    + cbn [length skipn simple_whitespace_re]. rewrite Es, Eb. reflexivity.
Qed.

Lemma simple_whitespace_loop_no_backslash : forall cfg fuel st x st',
  simple_whitespace_loop cfg fuel st = (Ok x, st') -> has_backslash x = false.
Proof.
  intros cfg fuel. induction fuel as [|k IH]; intros st x st' H; [discriminate|].
  simpl in H. apply bind_ok in H as (a & s & Ha & H). injection Ha as <- <-.
  apply bind_ok in H as (p & s & Hp & H). injection Hp as _ <-.
  destruct (has_backslash p) eqn:Hb; simpl in H.
  - apply bind_ok in H as (u & s' & _ & H). exact (IH _ _ _ H).
  - injection H as <- _. exact Hb.
Qed.

(** C6: from a state inside its configuration of physical lines,
    [parse_simple_whitespace] returns the input slice from the starting byte
    offset to the final one; that slice is made of blanks and
    backslash-newline continuations only, so no line break is taken unless a
    backslash precedes it; and when the first match contains a backslash the
    scan has moved on to a later line and the returned slice extends that
    first match; the match is rerun on each continued line, so at the final
    state nothing more of the current line matches. *)
Theorem parse_simple_whitespace_continuation : forall cfg st w st',
  state_in cfg st -> physical_lines cfg ->
  parse_simple_whitespace cfg st = (Ok w, st') ->
  sw_str w = firstn (byte_offset st' - byte_offset st) (skipn (byte_offset st) (input cfg)) /\
  skipn (byte_offset st) (input cfg) = sw_str w ++ skipn (byte_offset st') (input cfg) /\
  ws_lang (sw_str w) = true /\
  (forall m, capture_ws cfg (line st) (column_byte st) = Ok m -> has_backslash m = true ->
     line st < line st' /\ exists r, sw_str w = m ++ r) /\
  simple_whitespace_re (skipn (column_byte st') (nth (line st' - 1) (lines cfg) [])) = [].
Proof.
  intros cfg st w st' Hst Hph H. unfold parse_simple_whitespace in H.
  apply bind_ok in H as (a & s & Ha & H). injection Ha as <- <-.
  apply bind_ok in H as (x & st1 & Hx & H).
  apply bind_ok in H as (u & st2 & Hu & H).
  apply bind_ok in H as (b & s3 & Hb & H). injection Hb as <- <-.
  apply bind_ok in H as (sl & s4 & Hsl & H). injection Hsl as Hsl <-.
  injection H as <- <-. simpl.
  destruct (simple_whitespace_loop_spec _ _ _ _ _ Hst Hph Hx)
    as (Hs1 & Hxv & pre & Hpre & Hoff1 & Hlang & Hcont).
  apply advance_this_line_ok in Hu as (Hl2 & Hc2 & Ho2 & _).
  apply str_slice_ok in Hsl.
  destruct (swre_prefix _ (skipn (column_byte st1) (nth (line st1 - 1) (lines cfg) [])) (le_n _))
    as [rest Hrest].
  rewrite <- Hxv in Hrest.
  assert (Hs1k : skipn (byte_offset st1) (input cfg) = x ++ skipn (byte_offset st2) (input cfg)).
  { rewrite (skipn_state _ _ Hs1), Hrest, <- app_assoc. f_equal.
    rewrite Ho2, Nat.add_comm, <- skipn_skipn, (skipn_state _ _ Hs1), Hrest, <- app_assoc,
      skipn_app, skipn_all, Nat.sub_diag. reflexivity. }
  assert (Hw : sl = pre ++ x).
  { rewrite Hsl, Hpre, Hs1k, Ho2, Hoff1, app_assoc.
    replace (byte_offset st + length pre + length x - byte_offset st)
      with (length (pre ++ x)) by (rewrite length_app; lia).
    rewrite firstn_app, firstn_all, Nat.sub_diag. simpl. apply app_nil_r. }
  split; [exact Hsl|]. split; [|split; [|split]].
  - rewrite Hw, <- app_assoc, <- Hs1k. exact Hpre.
  - rewrite Hw. apply (ws_lang_app (length pre)); [lia|exact Hlang|].
    rewrite Hxv. apply (swre_lang _ _ (le_n _)).
  - intros m Hm Hb. destruct (Hcont m Hm Hb) as [Hlt [r Hr]]. split; [lia|].
    exists (r ++ x). rewrite Hw, Hr, app_assoc. reflexivity.
  - rewrite Hl2, Hc2, Nat.add_comm, <- skipn_skipn, Hxv.
    apply swre_maximal. rewrite <- Hxv. exact (simple_whitespace_loop_no_backslash _ _ _ _ _ Hx).
Qed.

Lemma cont_cfg_physical : physical_lines cont_cfg.
Proof.
  intros l Hl. simpl in Hl. repeat destruct Hl as [<-|Hl]; try reflexivity. destruct Hl.
Qed.

Lemma cont_state_in : state_in cont_cfg cont_state.
Proof. unfold state_in. simpl. repeat split; lia. Qed.

Lemma parse_simple_whitespace_continuation_witness :
  parse_simple_whitespace cont_cfg cont_state =
    (Ok (mkSimpleWhitespace [SPACE; BACKSLASH; NL; SPACE; SPACE]), mkState 2 2 2 [] false 6) /\
  skipn 1 (input cont_cfg) = [SPACE; BACKSLASH; NL; SPACE; SPACE] ++ skipn 6 (input cont_cfg) /\
  ws_lang [SPACE; BACKSLASH; NL; SPACE; SPACE] = true /\
  simple_whitespace_re (skipn 2 (nth 1 (lines cont_cfg) [])) = [].
Proof.
  assert (E : parse_simple_whitespace cont_cfg cont_state =
    (Ok (mkSimpleWhitespace [SPACE; BACKSLASH; NL; SPACE; SPACE]), mkState 2 2 2 [] false 6))
    by (vm_compute; reflexivity).
  destruct (parse_simple_whitespace_continuation _ _ _ _ cont_state_in cont_cfg_physical E)
    as (_ & H2 & H3 & _ & H5).
  split; [exact E|]. split; [exact H2|]. split; [exact H3|exact H5].
Defined.

(** * Further properties of the parser and the code generator *)

Lemma consumes_trans : forall cfg s1 s2 s3 x y,
  consumes cfg s1 s2 x -> consumes cfg s2 s3 y -> consumes cfg s1 s3 (x ++ y).
Proof. unfold consumes. intros cfg s1 s2 s3 x y H1 H2. rewrite H1, H2, app_assoc. reflexivity. Qed.

Lemma consumes_refl : forall cfg s, consumes cfg s s [].
Proof. reflexivity. Qed.

Lemma get_line_after_column_ok : forall cfg l c rest,
  get_line_after_column cfg l c = Ok rest ->
  1 <= l <= length (lines cfg) /\ c <= length (nth (l - 1) (lines cfg) []) /\
  rest = skipn c (nth (l - 1) (lines cfg) []).
Proof.
  intros cfg l c rest H. unfold get_line_after_column in H.
  destruct (get_line cfg l) as [cur| | |] eqn:E; try discriminate. simpl in H.
  pose proof (get_line_ok_range _ _ _ E) as Hr.
  rewrite get_line_nth in E by exact Hr. injection E as <-.
  destruct (is_char_boundary _ c) eqn:Eb; [|discriminate]. injection H as <-.
  unfold is_char_boundary in Eb.
  repeat split; try lia.
  apply orb_true_iff in Eb as [Eb|Eb]; [apply orb_true_iff in Eb as [Eb|Eb]|].
  - apply Nat.eqb_eq in Eb. lia.
  - apply Nat.eqb_eq in Eb. lia.
  - apply andb_true_iff in Eb as [Eb _]. apply Nat.ltb_lt in Eb. lia.
Qed.

Lemma advance_this_line_slice : forall cfg st c k u st1,
  state_in cfg st -> advance_this_line cfg c k st = (Ok u, st1) ->
  state_in cfg st1 /\ line st1 = line st /\ column_byte st1 = column_byte st + k /\
  absolute_indent st1 = absolute_indent st /\
  consumes cfg st st1 (firstn k (skipn (column_byte st) (nth (line st - 1) (lines cfg) []))).
Proof.
  intros cfg st c k u st1 Hst H.
  assert (Hai : absolute_indent st1 = absolute_indent st).
  { unfold advance_this_line, bind, get, lift, put, throw in H. crush_in H.
    all: injection H as _ <-; reflexivity. }
  apply advance_this_line_ok in H as (Hl & Hc & Ho & cur & Hcur & Hle).
  destruct Hst as (Hin & Hr & Hcol & Hoff).
  rewrite get_line_nth in Hcur by exact Hr. injection Hcur as Hcur.
  assert (Hs1 : state_in cfg st1).
  { unfold state_in. rewrite Hl, Hc, Ho, Hcur. split; [exact Hin|]. lia. }
  split; [exact Hs1|]. split; [exact Hl|]. split; [exact Hc|]. split; [exact Hai|].
  unfold consumes.
  rewrite (skipn_state cfg st (conj Hin (conj Hr (conj Hcol Hoff)))).
  rewrite (skipn_state cfg st1 Hs1). rewrite Hl, Hc.
  rewrite Hcur.
  rewrite app_assoc. f_equal.
  rewrite <- (firstn_skipn k (skipn (column_byte st) cur)) at 1.
  f_equal. rewrite skipn_skipn. f_equal. lia.
Qed.

Lemma advance_to_next_line_slice : forall cfg st u st1,
  state_in cfg st -> line st < length (lines cfg) ->
  advance_to_next_line cfg st = (Ok u, st1) ->
  state_in cfg st1 /\ line st1 = S (line st) /\ column_byte st1 = 0 /\
  absolute_indent st1 = absolute_indent st /\
  consumes cfg st st1 (skipn (column_byte st) (nth (line st - 1) (lines cfg) [])).
Proof.
  intros cfg st u st1 Hst Hlt H.
  destruct Hst as (Hin & Hr & Hcol & Hoff).
  unfold advance_to_next_line in H. rewrite (get_line_nth cfg (line st) Hr) in H.
  set (cur := nth (line st - 1) (lines cfg) []) in *.
  destruct (column_byte st <=? length cur) eqn:Hle; [|discriminate].
  injection H as _ <-.
  assert (Hsa : state_in cfg (set_pos st (S (line st)) 0 0
                  (byte_offset st + (length cur - column_byte st)))).
  { unfold state_in, set_pos; simpl. split; [exact Hin|]. split; [lia|]. split; [lia|].
    rewrite Nat.sub_0_r.
    pose proof (concat_firstn_S (lines cfg) (line st - 1) ltac:(lia)) as Hf.
    replace (S (line st - 1)) with (line st) in Hf by lia. fold cur in Hf. lia. }
  split; [exact Hsa|]. split; [reflexivity|]. split; [reflexivity|]. split; [reflexivity|].
  unfold consumes.
  rewrite (skipn_state cfg st (conj Hin (conj Hr (conj Hcol Hoff)))), (skipn_state _ _ Hsa).
  fold cur. simpl. rewrite Nat.sub_0_r.
  rewrite (concat_skipn_cons (lines cfg) (line st)) by lia. reflexivity.
Qed.

Lemma take_while_split : forall p s, exists r,
  s = take_while p s ++ r /\ (forall c r', r = c :: r' -> p c = false).
Proof.
  intros p s. induction s as [|c s IH]; simpl.
  - exists []. split; [reflexivity|]. intros c r' H; discriminate.
  - destruct (p c) eqn:Ep.
    + destruct IH as [r [Hr Hn]]. exists r. split; [simpl; f_equal; exact Hr|exact Hn].
    + exists (c :: s). split; [reflexivity|]. intros c' r' H. injection H as <- _. exact Ep.
Qed.

Lemma take_while_all : forall p s, forallb p (take_while p s) = true.
Proof.
  intros p s. induction s as [|c s IH]; simpl; [reflexivity|].
  destruct (p c) eqn:Ep; simpl; [rewrite Ep; exact IH|reflexivity].
Qed.

Lemma comment_re_split : forall rest cs, comment_re rest = Some cs ->
  exists body r, cs = HASH :: body /\ rest = cs ++ r /\
    forallb (fun x => negb (is_line_break x)) body = true /\
    (r = [] \/ exists c r', r = c :: r' /\ is_line_break c = true).
Proof.
  intros [|c rest] cs H; simpl in H; [discriminate|].
  destruct (Ascii.eqb c HASH) eqn:Ec; [|discriminate]. injection H as <-.
  apply Ascii.eqb_eq in Ec. subst c.
  destruct (take_while_split (fun x => negb (is_line_break x)) rest) as [r [Hr Hn]].
  exists (take_while (fun x => negb (is_line_break x)) rest), r.
  split; [reflexivity|]. split; [simpl; f_equal; exact Hr|].
  split; [apply take_while_all|].
  destruct r as [|c r']; [left; reflexivity|right]. exists c, r'. split; [reflexivity|].
  specialize (Hn c r' eq_refl). apply negb_false_iff in Hn. exact Hn.
Qed.

Lemma newline_re_split : forall rest ns, newline_re rest = Some ns ->
  (ns = [NL] \/ ns = [CR] \/ ns = [CR; NL]) /\ exists r, rest = ns ++ r.
Proof.
  intros [|c rest] ns H; simpl in H; [discriminate|].
  destruct (Ascii.eqb c CR) eqn:Ec.
  - apply Ascii.eqb_eq in Ec. subst c.
    destruct rest as [|d rest].
    + injection H as <-. split; [auto|]. exists []. reflexivity.
    + destruct (Ascii.eqb d NL) eqn:Ed; injection H as <-.
      * apply Ascii.eqb_eq in Ed. subst d. split; [auto|]. exists rest. reflexivity.
      * split; [auto|]. exists (d :: rest). reflexivity.
  - destruct (Ascii.eqb c NL) eqn:En; [|discriminate]. injection H as <-.
    apply Ascii.eqb_eq in En. subst c. split; [auto|]. exists rest. reflexivity.
Qed.

Lemma str_eqb_eq : forall a b, str_eqb a b = true -> a = b.
Proof.
  induction a as [|x a IH]; intros [|y b] H; simpl in H; try discriminate; [reflexivity|].
  apply andb_true_iff in H as [H1 H2]. apply Ascii.eqb_eq in H1. subst y.
  f_equal. apply IH, H2.
Qed.

Lemma firstn_app_exact : forall (a r : str) k, k = length a -> firstn k (a ++ r) = a.
Proof.
  intros a r k ->. rewrite firstn_app, firstn_all, Nat.sub_diag. simpl. apply app_nil_r.
Qed.

(** [parse_comment] inside its configuration. *)
Lemma parse_comment_slice : forall cfg st c st',
  state_in cfg st -> parse_comment cfg st = (Ok c, st') ->
  state_in cfg st' /\ line st' = line st /\ absolute_indent st' = absolute_indent st /\
  match c with
  | None => st' = st
  | Some cm =>
      consumes cfg st st' (comment_str cm) /\
      exists body, comment_str cm = HASH :: body /\
        forallb (fun x => negb (is_line_break x)) body = true /\
        (forall x r, skipn (column_byte st') (nth (line st' - 1) (lines cfg) []) = x :: r ->
           is_line_break x = true)
  end.
Proof.
  intros cfg st c st' Hst H. unfold parse_comment in H.
  apply bind_ok in H as (a & s & Ha & H). injection Ha as <- <-.
  apply bind_ok in H as (rest & s & Hr & H). injection Hr as Hr <-.
  apply get_line_after_column_ok in Hr as (Hl & Hc & Hrest).
  destruct (comment_re rest) as [cs|] eqn:Ecs.
  - apply bind_ok in H as (u & s1 & Hu & H). injection H as <- <-.
    destruct (comment_re_split _ _ Ecs) as (body & r & Hcs & Hsplit & Hbody & Hend).
    destruct (advance_this_line_slice _ _ _ _ _ _ Hst Hu) as (Hs1 & Hl1 & Hc1 & Hai & Hcons).
    split; [exact Hs1|]. split; [exact Hl1|]. split; [exact Hai|]. simpl.
    rewrite <- Hrest, Hsplit, firstn_app_exact in Hcons by reflexivity.
    split; [exact Hcons|]. exists body. split; [exact Hcs|]. split; [exact Hbody|].
    intros x r' Hx. rewrite Hl1, Hc1, Nat.add_comm, <- skipn_skipn, <- Hrest, Hsplit in Hx.
    rewrite skipn_app, skipn_all, Nat.sub_diag in Hx. simpl in Hx.
    destruct Hend as [->|(c0 & r0 & -> & Hc0)]; [discriminate|].
    injection Hx as <- _. exact Hc0.
  - injection H as <- <-. split; [exact Hst|]. auto.
Qed.

Lemma newline_text_value : forall ns dn,
  newline_text (mkNewline (if str_eqb ns dn then None else Some ns) Real) dn = ns.
Proof.
  intros ns dn. destruct (str_eqb ns dn) eqn:E; simpl; [|reflexivity].
  symmetry. apply str_eqb_eq, E.
Qed.

(** [parse_newline] inside its configuration. *)
Lemma parse_newline_slice : forall cfg st r st',
  state_in cfg st -> parse_newline cfg st = (Ok r, st') ->
  state_in cfg st' /\ absolute_indent st' = absolute_indent st /\
  match r with
  | None => st' = st
  | Some n =>
      consumes cfg st st' (newline_text n (default_newline cfg)) /\
      match newline_fakeness n with
      | Real =>
          (newline_text n (default_newline cfg) = [NL] \/
           newline_text n (default_newline cfg) = [CR] \/
           newline_text n (default_newline cfg) = [CR; NL]) /\
          (line st < length (lines cfg) -> line st' = S (line st) /\ column_byte st' = 0)
      | Fake => st' = st /\ byte_offset st = length (input cfg)
      end
  end.
Proof.
  intros cfg st r st' Hst H. unfold parse_newline in H.
  apply bind_ok in H as (a & s & Ha & H). injection Ha as <- <-.
  apply bind_ok in H as (rest & s & Hr & H). injection Hr as Hr <-.
  apply get_line_after_column_ok in Hr as (Hl & Hc & Hrest).
  destruct (newline_re rest) as [ns|] eqn:Ens.
  - destruct (newline_re_split _ _ Ens) as (Hns & rr & Hsplit).
    apply bind_ok in H as (u & s1 & Hu & H).
    destruct (advance_this_line_slice _ _ _ _ _ _ Hst Hu) as (Hs1 & Hl1 & Hc1 & Hai1 & Hcons1).
    rewrite <- Hrest, Hsplit, firstn_app_exact in Hcons1 by reflexivity.
    apply bind_ok in H as (a & s2 & Ha & H). injection Ha as <- <-.
    apply bind_ok in H as (cur & s2 & Hcur & H). injection Hcur as Hcur <-.
    destruct (negb (column_byte s1 =? length cur)) eqn:Eeol; [discriminate|].
    apply negb_false_iff, Nat.eqb_eq in Eeol.
    assert (Hlen1 : column_byte s1 = length (nth (line s1 - 1) (lines cfg) [])).
    { destruct Hs1 as (_ & Hr1 & _ & _). rewrite get_line_nth in Hcur by exact Hr1.
      injection Hcur as <-. exact Eeol. }
    apply bind_ok in H as (u' & s3 & Hu' & H). cbv [ret] in H. injection H as <- <-.
    destruct (line s1 <? length (lines cfg)) eqn:Elt.
    + apply Nat.ltb_lt in Elt.
      destruct (advance_to_next_line_slice _ _ _ _ Hs1 Elt Hu')
        as (Hs3 & Hl3 & Hc3 & Hai3 & Hcons3).
      rewrite Hlen1, skipn_all in Hcons3.
      split; [exact Hs3|]. split; [congruence|]. rewrite newline_text_value.
      split; [rewrite <- (app_nil_r ns); exact (consumes_trans _ _ _ _ _ _ Hcons1 Hcons3)|].
      simpl. split; [exact Hns|]. intros _. split; [congruence|exact Hc3].
    + apply Nat.ltb_ge in Elt. cbv [ret] in Hu'. injection Hu' as _ <-.
      split; [exact Hs1|]. split; [exact Hai1|]. rewrite newline_text_value.
      split; [exact Hcons1|]. simpl. split; [exact Hns|]. intros Hlt. exfalso. lia.
  - destruct ((byte_offset st =? length (input cfg)) && negb (column_byte st =? 0)) eqn:E;
      cbv [ret] in H; injection H as <- <-.
    + apply andb_true_iff in E as [E _]. apply Nat.eqb_eq in E.
      split; [exact Hst|]. split; [reflexivity|]. split; [apply consumes_refl|].
      simpl. auto.
    + split; [exact Hst|]. auto.
Qed.

Lemma simple_whitespace_loop_state : forall cfg fuel st x st1,
  state_in cfg st -> simple_whitespace_loop cfg fuel st = (Ok x, st1) ->
  state_in cfg st1 /\ absolute_indent st1 = absolute_indent st /\
  x = simple_whitespace_re (skipn (column_byte st1) (nth (line st1 - 1) (lines cfg) [])).
Proof.
  intros cfg fuel. induction fuel as [|k IH]; intros st x st1 Hst H; [discriminate|].
  simpl in H. apply bind_ok in H as (a & s & Ha & H). injection Ha as <- <-.
  apply bind_ok in H as (m & s & Hm & H). injection Hm as Hm <-.
  pose proof (capture_ws_state cfg st m Hst Hm) as Hmv.
  destruct (has_backslash m) eqn:Hb; simpl in H.
  - apply bind_ok in H as (u & sa & Hu & H).
    pose proof (simple_whitespace_loop_range _ _ _ _ _ H) as Hra.
    pose proof (advance_to_next_line_ok _ _ _ _ Hu) as (Hla & _ & _).
    destruct (advance_to_next_line_slice _ _ _ _ Hst ltac:(lia) Hu) as (Hsa & _ & _ & Hai & _).
    destruct (IH _ _ _ Hsa H) as (Hs1 & Hai1 & Hx).
    split; [exact Hs1|]. split; [congruence|exact Hx].
  - injection H as <- <-. auto.
Qed.

Lemma consumes_advance : forall cfg st st',
  byte_offset st <= byte_offset st' ->
  consumes cfg st st'
    (firstn (byte_offset st' - byte_offset st) (skipn (byte_offset st) (input cfg))).
Proof.
  intros cfg st st' Hle. unfold consumes.
  rewrite <- (firstn_skipn (byte_offset st' - byte_offset st)
                (skipn (byte_offset st) (input cfg))) at 1.
  f_equal. rewrite skipn_skipn. f_equal. lia.
Qed.

(** [parse_simple_whitespace] inside its configuration. *)
Lemma parse_simple_whitespace_slice : forall cfg st w st',
  state_in cfg st -> parse_simple_whitespace cfg st = (Ok w, st') ->
  state_in cfg st' /\ absolute_indent st' = absolute_indent st /\
  consumes cfg st st' (sw_str w).
Proof.
  intros cfg st w st' Hst H.
  pose proof (parse_simple_whitespace_ok _ _ _ _ H) as Hadv.
  unfold parse_simple_whitespace in H.
  apply bind_ok in H as (a & s & Ha & H). injection Ha as <- <-.
  apply bind_ok in H as (x & st1 & Hx & H).
  apply bind_ok in H as (u & st2 & Hu & H).
  apply bind_ok in H as (b & s3 & Hb & H). injection Hb as <- <-.
  apply bind_ok in H as (sl & s4 & Hsl & H). injection Hsl as Hsl <-.
  injection H as <- <-. simpl.
  destruct (simple_whitespace_loop_state _ _ _ _ _ Hst Hx) as (Hs1 & Hai1 & _).
  destruct (advance_this_line_slice _ _ _ _ _ _ Hs1 Hu) as (Hs2 & _ & _ & Hai2 & _).
  apply str_slice_ok in Hsl. subst sl.
  split; [exact Hs2|]. split; [congruence|].
  apply consumes_advance. unfold advances in Hadv. lia.
Qed.

Lemma state_in_offset_le : forall cfg st, state_in cfg st -> byte_offset st <= length (input cfg).
Proof.
  intros cfg st (Hin & Hl & Hc & Hoff). rewrite Hin, Hoff.
  rewrite (concat_split (lines cfg) (line st - 1)) by lia.
  rewrite !length_app. lia.
Qed.

Lemma consumes_firstn : forall cfg st st' x,
  state_in cfg st -> state_in cfg st' -> consumes cfg st st' x ->
  firstn (byte_offset st' - byte_offset st) (skipn (byte_offset st) (input cfg)) = x.
Proof.
  intros cfg st st' x Hs Hs' H. unfold consumes in H.
  pose proof (state_in_offset_le _ _ Hs). pose proof (state_in_offset_le _ _ Hs').
  assert (Hlen : length x = byte_offset st' - byte_offset st).
  { apply (f_equal (@length ascii)) in H. rewrite length_app, !length_skipn in H. lia. }
  rewrite H. apply firstn_app_exact. symmetry. exact Hlen.
Qed.

Lemma parse_trailing_whitespace_inv : forall cfg st t st',
  parse_trailing_whitespace cfg st = (Ok t, st') ->
  exists s1 s2,
    parse_simple_whitespace cfg st = (Ok (tw_whitespace t), s1) /\
    parse_comment cfg s1 = (Ok (tw_comment t), s2) /\
    parse_newline cfg s2 = (Ok (Some (tw_newline t)), st').
Proof.
  intros cfg st t st' H. unfold parse_trailing_whitespace in H.
  apply bind_ok in H as (r & s & Hr & H).
  destruct r as [ws|]; [|discriminate]. injection H as <- <-.
  unfold parse_optional_trailing_whitespace, speculate in Hr.
  match type of Hr with
  | match ?x with _ => _ end = _ => destruct x as [[[e'|]| | |] s'] eqn:E2
  end; try discriminate.
  injection Hr as <- <-.
  apply bind_ok in E2 as (w & s1 & Hw & E2).
  apply bind_ok in E2 as (c & s2 & Hc & E2).
  apply bind_ok in E2 as (nl & s3 & Hn & E2).
  destruct nl as [newline|]; [|discriminate]. cbv [ret] in E2. injection E2 as <- <-.
  exists s1, s2. auto.
Qed.

(** Round trip of a trailing whitespace: from a scan state inside a
    line-indexed configuration, when [parse_trailing_whitespace] succeeds the
    new state is again inside the configuration, the scan read exactly the
    node's text, and code generation (with the configuration's default
    newline) appends exactly the consumed slice of the input. *)
Theorem parse_trailing_whitespace_roundtrip : forall cfg st t st' cs,
  state_in cfg st -> parse_trailing_whitespace cfg st = (Ok t, st') ->
  cs_default_newline cs = default_newline cfg ->
  state_in cfg st' /\
  consumes cfg st st' (trailing_whitespace_text t (default_newline cfg)) /\
  trailing_whitespace_codegen t cs =
    Some (add_token (firstn (byte_offset st' - byte_offset st)
                            (skipn (byte_offset st) (input cfg))) cs).
Proof.
  intros cfg st t st' cs Hst H Hdn.
  apply parse_trailing_whitespace_inv in H as (s1 & s2 & H1 & H2 & H3).
  destruct (parse_simple_whitespace_slice _ _ _ _ Hst H1) as (Hs1 & _ & C1).
  destruct (parse_comment_slice _ _ _ _ Hs1 H2) as (Hs2 & _ & _ & C2).
  destruct (parse_newline_slice _ _ _ _ Hs2 H3) as (Hs3 & _ & C3 & _).
  assert (C : consumes cfg st st' (trailing_whitespace_text t (default_newline cfg))).
  { unfold trailing_whitespace_text. apply (consumes_trans _ _ _ _ _ _ C1).
    destruct (tw_comment t) as [cm|].
    - destruct C2 as [C2 _]. apply (consumes_trans _ _ _ _ _ _ C2 C3).
    - subst s2. exact C3. }
  split; [exact Hs3|]. split; [exact C|].
  rewrite (consumes_firstn _ _ _ _ Hst Hs3 C), trailing_whitespace_codegen_text, Hdn.
  reflexivity.
Qed.

Lemma starts_with_split : forall p s, starts_with s p = true -> exists r, s = p ++ r.
Proof.
  induction p as [|c p IH]; intros s H; [exists s; reflexivity|].
  destruct s as [|d s]; simpl in H; [discriminate|].
  apply andb_true_iff in H as [H1 H2]. apply Ascii.eqb_eq in H1. subst d.
  destruct (IH s H2) as [r Hr]. exists r. simpl. f_equal. exact Hr.
Qed.

(** [parse_indent] inside its configuration. *)
Lemma parse_indent_slice : forall cfg ov st b st',
  state_in cfg st -> parse_indent cfg ov st = (Ok b, st') ->
  state_in cfg st' /\ absolute_indent st' = absolute_indent st /\ line st' = line st /\
  consumes cfg st st'
    (if b then match ov with Some o => o | None => absolute_indent st end else []) /\
  (b = false -> st' = st).
Proof.
  intros cfg ov st b st' Hst H. unfold parse_indent in H.
  apply bind_ok in H as (a & s & Ha & H). injection Ha as <- <-.
  set (ai := match ov with Some o => o | None => absolute_indent st end) in *.
  destruct (negb (column_byte st =? 0)) eqn:Ec.
  - apply bind_ok in H as (cur & s & Hcur & H). injection Hcur as Hcur <-.
    destruct (_ && _); [|discriminate]. cbv [ret] in H. injection H as <- <-.
    split; [exact Hst|]. split; [reflexivity|]. split; [reflexivity|].
    split; [apply consumes_refl|]. auto.
  - apply negb_false_iff, Nat.eqb_eq in Ec.
    apply bind_ok in H as (rest & s & Hr & H). injection Hr as Hr <-.
    apply get_line_after_column_ok in Hr as (Hl & Hc & Hrest).
    destruct (starts_with rest ai) eqn:Es.
    + apply bind_ok in H as (u & s1 & Hu & H). injection Hu as _ <-.
      cbv [ret] in H. injection H as <- <-.
      destruct (starts_with_split _ _ Es) as [r Hsplit].
      pose proof Hst as (Hin & Hr & Hcol & Hoff).
      assert (Hlen : column_byte st + length ai <= length (nth (line st - 1) (lines cfg) [])).
      { apply (f_equal (@length ascii)) in Hrest. rewrite Hsplit, length_app, length_skipn in Hrest.
        lia. }
      assert (Hs' : state_in cfg (set_pos st (line st) (column st + char_count ai)
                      (column_byte st + length ai) (byte_offset st + length ai))).
      { unfold state_in, set_pos; simpl. split; [exact Hin|]. lia. }
      split; [exact Hs'|]. split; [reflexivity|]. split; [reflexivity|].
      split; [|discriminate].
      unfold consumes. rewrite (skipn_state _ _ Hst), (skipn_state _ _ Hs'). simpl.
      rewrite <- Hrest, Hsplit, <- app_assoc. f_equal.
      rewrite Nat.add_comm, <- skipn_skipn, <- Hrest, Hsplit, skipn_app, skipn_all, Nat.sub_diag.
      reflexivity.
    + cbv [ret] in H. injection H as <- <-.
      split; [exact Hst|]. split; [reflexivity|]. split; [reflexivity|].
      split; [apply consumes_refl|]. auto.
Qed.

Lemma parse_empty_line_inv' : forall cfg ov st e st',
  parse_empty_line cfg ov st = (Ok (Some e), st') ->
  exists s1 s2 s3,
    parse_indent cfg ov st = (Ok (el_indent e), s1) /\
    parse_simple_whitespace cfg s1 = (Ok (el_whitespace e), s2) /\
    parse_comment cfg s2 = (Ok (el_comment e), s3) /\
    parse_newline cfg s3 = (Ok (Some (el_newline e)), st') /\
    el_indentation e = (if el_indent e then
                          Some (match ov with Some o => o | None => absolute_indent st' end)
                        else None).
Proof.
  intros cfg ov st e st' H. unfold parse_empty_line, speculate in H.
  destruct (parse_indent cfg ov st) as [[ind| | |] s1] eqn:E1.
  2-4: discriminate.
  match type of H with
  | match ?x with _ => _ end = _ => destruct x as [[[e'|]| | |] s'] eqn:E2
  end; try discriminate.
  injection H as <- <-.
  apply bind_ok in E2 as (w & s2 & Hw & E2).
  apply bind_ok in E2 as (c & s3 & Hc & E2).
  apply bind_ok in E2 as (nl & s4 & Hn & E2).
  destruct nl as [newline|]; [|discriminate].
  apply bind_ok in E2 as (a & s5 & Ha & E2). injection Ha as <- <-.
  cbv [ret] in E2. injection E2 as <- <-.
  exists s1, s2, s3. simpl. auto.
Qed.

Lemma empty_line_codegen_text : forall e cs,
  empty_line_codegen e cs =
  Some (add_token (empty_line_text e (concat (cs_indent_tokens cs)) (cs_default_newline cs)) cs).
Proof.
  intros [ind [w] c [v f] i] cs.
  destruct ind, c as [[c]|], f, v as [v|];
    unfold empty_line_codegen, empty_line_text, cg_then, add_indent,
      simple_whitespace_codegen, comment_codegen, newline_codegen, cg_skip, emit; simpl;
    rewrite ?add_token_add_token, ?add_token_default_newline, ?app_nil_r, ?app_assoc;
    reflexivity.
Qed.

(** Round trip of an empty line: when [parse_empty_line] returns a line, the
    scan read exactly the line's text, and code generation appends exactly the
    consumed slice of the input, provided the indent stack of the code
    generator spells the indentation the line was parsed at. *)
Theorem parse_empty_line_roundtrip : forall cfg ov st e st' cs,
  state_in cfg st -> parse_empty_line cfg ov st = (Ok (Some e), st') ->
  cs_default_newline cs = default_newline cfg ->
  (el_indent e = true -> el_indentation e = Some (concat (cs_indent_tokens cs))) ->
  state_in cfg st' /\
  consumes cfg st st' (empty_line_text e (concat (cs_indent_tokens cs)) (default_newline cfg)) /\
  empty_line_codegen e cs =
    Some (add_token (firstn (byte_offset st' - byte_offset st)
                            (skipn (byte_offset st) (input cfg))) cs).
Proof.
  intros cfg ov st e st' cs Hst H Hdn Hind.
  apply parse_empty_line_inv' in H as (s1 & s2 & s3 & H1 & H2 & H3 & H4 & Hi).
  destruct (parse_indent_slice _ _ _ _ _ Hst H1) as (Hs1 & Ha1 & _ & C1 & _).
  destruct (parse_simple_whitespace_slice _ _ _ _ Hs1 H2) as (Hs2 & Ha2 & C2).
  destruct (parse_comment_slice _ _ _ _ Hs2 H3) as (Hs3 & _ & Ha3 & C3).
  destruct (parse_newline_slice _ _ _ _ Hs3 H4) as (Hs4 & Ha4 & C4 & _).
  assert (C : consumes cfg st st'
                (empty_line_text e (concat (cs_indent_tokens cs)) (default_newline cfg))).
  { unfold empty_line_text.
    replace (if el_indent e then concat (cs_indent_tokens cs) else [])
      with (if el_indent e then match ov with Some o => o | None => absolute_indent st end
            else []).
    2:{ destruct (el_indent e) eqn:Ei; [|reflexivity].
        specialize (Hind eq_refl). rewrite Hi in Hind. injection Hind as <-.
        destruct ov; [reflexivity|]. congruence. }
    apply (consumes_trans _ _ _ _ _ _ C1), (consumes_trans _ _ _ _ _ _ C2).
    destruct (el_comment e) as [cm|].
    - destruct C3 as [C3 _]. apply (consumes_trans _ _ _ _ _ _ C3 C4).
    - subst s3. exact C4. }
  split; [exact Hs4|]. split; [exact C|].
  rewrite (consumes_firstn _ _ _ _ Hst Hs4 C), empty_line_codegen_text, Hdn.
  reflexivity.
Qed.

Lemma parse_trailing_whitespace_roundtrip_witness :
  parse_trailing_whitespace rt_cfg (mkState 1 0 0 [] false 0)
    = (Ok rt_tw, mkState 2 0 0 [] false 4) /\
  trailing_whitespace_codegen rt_tw rt_cs = Some (add_token (s_ " #c" ++ [NL]) rt_cs).
Proof.
  assert (H : parse_trailing_whitespace rt_cfg (mkState 1 0 0 [] false 0)
              = (Ok rt_tw, mkState 2 0 0 [] false 4)) by (vm_compute; reflexivity).
  split; [exact H|].
  destruct (parse_trailing_whitespace_roundtrip rt_cfg (mkState 1 0 0 [] false 0) _ _ rt_cs
              ltac:(unfold state_in, rt_cfg; simpl; repeat split; lia) H eq_refl) as (_ & _ & ->).
  reflexivity.
Defined.

Lemma parse_empty_line_roundtrip_witness :
  parse_empty_line rt_cfg None (mkState 2 0 0 (s_ "  ") false 4)
    = (Ok (Some rt_el), mkState 3 0 0 (s_ "  ") false 7) /\
  empty_line_codegen rt_el rt_cs = Some (add_token (s_ "  " ++ [NL]) rt_cs).
Proof.
  assert (H : parse_empty_line rt_cfg None (mkState 2 0 0 (s_ "  ") false 4)
              = (Ok (Some rt_el), mkState 3 0 0 (s_ "  ") false 7)) by (vm_compute; reflexivity).
  split; [exact H|].
  destruct (parse_empty_line_roundtrip rt_cfg None (mkState 2 0 0 (s_ "  ") false 4) _ _ rt_cs
              ltac:(unfold state_in, rt_cfg; simpl; repeat split; lia) H eq_refl
              ltac:(intros _; reflexivity)) as (_ & _ & ->).
  reflexivity.
Defined.

(** ** The end of an input without a final newline *)

Lemma bind_step : forall A B (m : M A) (f : A -> M B) st a st1,
  m st = (Ok a, st1) -> bind m f st = f a st1.
Proof. intros A B m f st a st1 H. unfold bind. rewrite H. reflexivity. Qed.

Lemma eof_offset : forall cfg st, state_in cfg st -> at_eof_off_bol cfg st ->
  byte_offset st = length (input cfg).
Proof.
  intros cfg st (Hin & Hl & Hc & Ho) (Hl' & Hc' & _).
  rewrite Ho, Hin, Hc'. rewrite (concat_split (lines cfg) (line st - 1)) by lia.
  replace (S (line st - 1)) with (length (lines cfg)) by lia.
  rewrite skipn_all, !length_app. simpl. lia.
Qed.

Lemma eof_rest : forall cfg st, state_in cfg st -> at_eof_off_bol cfg st ->
  get_line cfg (line st) = Ok (nth (line st - 1) (lines cfg) []) /\
  get_line_after_column cfg (line st) (column_byte st) = Ok [].
Proof.
  intros cfg st Hst Heof. pose proof Hst as (_ & Hl & _ & _).
  destruct Heof as (_ & Hc & _).
  pose proof (get_line_nth cfg (line st) Hl) as Hg. split; [exact Hg|].
  unfold get_line_after_column. rewrite Hg. simpl.
  unfold is_char_boundary. rewrite Hc, Nat.eqb_refl, orb_true_r. simpl.
  rewrite skipn_all. reflexivity.
Qed.

Lemma set_pos_same : forall st,
  set_pos st (line st) (column st + 0) (column_byte st + 0) (byte_offset st + 0) = st.
Proof. intros [l c cb ai p o]. unfold set_pos. simpl. rewrite !Nat.add_0_r. reflexivity. Qed.

Lemma parse_indent_eof : forall cfg ov st, state_in cfg st -> at_eof_off_bol cfg st ->
  parse_indent cfg ov st = (Ok false, st).
Proof.
  intros cfg ov st Hst Heof. destruct (eof_rest _ _ Hst Heof) as [Hg _].
  destruct Heof as (Hl & Hc & H0).
  unfold parse_indent, bind, get. apply Nat.eqb_neq in H0. rewrite H0. simpl.
  unfold bind, lift. rewrite Hg. rewrite <- Hc, Hl, !Nat.eqb_refl. reflexivity.
Qed.

Lemma advance_this_line_zero : forall cfg st cur,
  get_line cfg (line st) = Ok cur -> column_byte st <= length cur ->
  advance_this_line cfg 0 0 st = (Ok tt, st).
Proof.
  intros cfg st cur Hg Hc. unfold advance_this_line, bind, get, lift. rewrite Hg.
  rewrite Nat.add_0_r. replace (length cur <? column_byte st) with false
    by (symmetry; apply Nat.ltb_ge; lia).
  unfold put. rewrite !Nat.add_0_r. destruct st. reflexivity.
Qed.

Lemma parse_simple_whitespace_eof : forall cfg st, state_in cfg st -> at_eof_off_bol cfg st ->
  parse_simple_whitespace cfg st = (Ok (mkSimpleWhitespace []), st).
Proof.
  intros cfg st Hst Heof. pose proof (eof_offset _ _ Hst Heof) as Hoff.
  destruct (eof_rest _ _ Hst Heof) as [Hg Hr].
  destruct Heof as (Hl & Hc & H0).
  unfold parse_simple_whitespace, simple_whitespace_bound.
  rewrite (bind_step _ _ get _ st st st eq_refl). cbv beta.
  rewrite (bind_step _ _ _ _ _ [] st).
  2:{ cbn [simple_whitespace_loop]. unfold bind at 1, get, bind at 1, lift, capture_ws.
      rewrite Hr. reflexivity. }
  rewrite (bind_step _ _ _ _ _ tt st (advance_this_line_zero _ _ _ Hg ltac:(lia))).
  rewrite (bind_step _ _ get _ st st st eq_refl).
  unfold bind, lift, str_slice. rewrite Hoff, Nat.leb_refl. unfold is_char_boundary.
  rewrite Nat.eqb_refl, !orb_true_r. simpl. rewrite Nat.sub_diag. reflexivity.
Qed.

Lemma parse_comment_eof : forall cfg st, state_in cfg st -> at_eof_off_bol cfg st ->
  parse_comment cfg st = (Ok None, st).
Proof.
  intros cfg st Hst Heof. destruct (eof_rest _ _ Hst Heof) as [_ Hr].
  unfold parse_comment, bind, get, lift. rewrite Hr. reflexivity.
Qed.

Lemma parse_newline_eof : forall cfg st, state_in cfg st -> at_eof_off_bol cfg st ->
  parse_newline cfg st = (Ok (Some (mkNewline None Fake)), st).
Proof.
  intros cfg st Hst Heof. pose proof (eof_offset _ _ Hst Heof) as Hoff.
  destruct (eof_rest _ _ Hst Heof) as [_ Hr]. destruct Heof as (_ & _ & H0).
  unfold parse_newline, bind, get, lift. rewrite Hr. simpl.
  rewrite Hoff, Nat.eqb_refl. apply Nat.eqb_neq in H0. rewrite H0. reflexivity.
Qed.

Lemma parse_empty_line_eof : forall cfg ov st, state_in cfg st -> at_eof_off_bol cfg st ->
  parse_empty_line cfg ov st = (Ok (Some fake_empty_line), st).
Proof.
  intros cfg ov st Hst Heof. unfold parse_empty_line, speculate.
  rewrite (parse_indent_eof _ _ _ Hst Heof).
  rewrite (bind_step _ _ _ _ _ _ _ (parse_simple_whitespace_eof _ _ Hst Heof)).
  rewrite (bind_step _ _ _ _ _ _ _ (parse_comment_eof _ _ Hst Heof)).
  rewrite (bind_step _ _ _ _ _ _ _ (parse_newline_eof _ _ Hst Heof)).
  reflexivity.
Qed.

Lemma parse_optional_trailing_whitespace_eof : forall cfg st,
  state_in cfg st -> at_eof_off_bol cfg st ->
  parse_optional_trailing_whitespace cfg st =
    (Ok (Some (mkTrailingWhitespace (mkSimpleWhitespace []) None (mkNewline None Fake))), st).
Proof.
  intros cfg st Hst Heof. unfold parse_optional_trailing_whitespace, speculate.
  rewrite (bind_step _ _ _ _ _ _ _ (parse_simple_whitespace_eof _ _ Hst Heof)).
  rewrite (bind_step _ _ _ _ _ _ _ (parse_comment_eof _ _ Hst Heof)).
  rewrite (bind_step _ _ _ _ _ _ _ (parse_newline_eof _ _ Hst Heof)).
  reflexivity.
Qed.

Lemma paren_empty_lines_loop_eof : forall cfg fuel acc st,
  state_in cfg st -> at_eof_off_bol cfg st ->
  paren_empty_lines_loop cfg fuel acc st = (OutOfFuel, st).
Proof.
  intros cfg fuel. induction fuel as [|k IH]; intros acc st Hst Heof; [reflexivity|].
  cbn [paren_empty_lines_loop].
  rewrite (bind_step _ _ _ _ _ _ _ (parse_empty_line_eof _ _ _ Hst Heof)).
  apply IH; assumption.
Qed.

(** At the end of an input whose last line has no newline, the
    [while let Some(empty_line) = parse_empty_line(...)] loop of
    [parse_parenthesized_whitespace] never exits: every round parses the same
    fake empty line without moving. *)
Theorem parse_parenthesized_whitespace_eof_diverges : forall cfg st,
  state_in cfg st -> at_eof_off_bol cfg st ->
  parse_empty_line cfg None st = (Ok (Some fake_empty_line), st) /\
  (forall fuel, paren_empty_lines_loop cfg fuel [] st = (OutOfFuel, st)) /\
  parse_parenthesized_whitespace cfg st = (OutOfFuel, st).
Proof.
  intros cfg st Hst Heof.
  split; [apply parse_empty_line_eof; assumption|].
  split; [intros; apply paren_empty_lines_loop_eof; assumption|].
  unfold parse_parenthesized_whitespace.
  rewrite (bind_step _ _ _ _ _ _ _ (parse_optional_trailing_whitespace_eof _ _ Hst Heof)).
  unfold bind. rewrite paren_empty_lines_loop_eof by assumption. reflexivity.
Qed.

Lemma from_end_loop_eof : forall cfg fuel acc st,
  state_in cfg st -> at_eof_off_bol cfg st ->
  from_end_loop cfg fuel acc st = (OutOfFuel, st).
Proof.
  intros cfg fuel. induction fuel as [|k IH]; intros acc st Hst Heof; [reflexivity|].
  cbn [from_end_loop].
  rewrite (bind_step _ _ _ _ _ _ _ (parse_empty_line_eof _ _ _ Hst Heof)).
  rewrite (bind_step _ _ get _ st st st eq_refl).
  apply IH; assumption.
Qed.

(** The loop of [parse_empty_lines_from_end] never exits at the end of an input
    whose last line has no newline. *)
Theorem parse_empty_lines_from_end_eof_diverges : forall cfg st,
  state_in cfg st -> at_eof_off_bol cfg st ->
  (forall fuel acc, from_end_loop cfg fuel acc st = (OutOfFuel, st)) /\
  parse_empty_lines_from_end cfg st = (OutOfFuel, st).
Proof.
  intros cfg st Hst Heof. split; [intros; apply from_end_loop_eof; assumption|].
  unfold parse_empty_lines_from_end. rewrite from_end_loop_eof by assumption.
  reflexivity.
Qed.

Lemma parse_parenthesized_whitespace_eof_diverges_witness :
  state_in eof2_cfg eof2_state /\ at_eof_off_bol eof2_cfg eof2_state /\
  parse_parenthesized_whitespace eof2_cfg eof2_state = (OutOfFuel, eof2_state).
Proof.
  assert (H1 : state_in eof2_cfg eof2_state)
    by (unfold state_in, eof2_cfg; simpl; repeat split; lia).
  assert (H2 : at_eof_off_bol eof2_cfg eof2_state)
    by (unfold at_eof_off_bol, eof2_cfg; simpl; repeat split; lia).
  split; [exact H1|]. split; [exact H2|].
  apply (parse_parenthesized_whitespace_eof_diverges eof2_cfg eof2_state H1 H2).
Defined.

Lemma parse_empty_lines_from_end_eof_diverges_witness :
  state_in eof2_cfg eof2_state /\ at_eof_off_bol eof2_cfg eof2_state /\
  parse_empty_lines_from_end eof2_cfg eof2_state = (OutOfFuel, eof2_state).
Proof.
  assert (H1 : state_in eof2_cfg eof2_state)
    by (unfold state_in, eof2_cfg; simpl; repeat split; lia).
  assert (H2 : at_eof_off_bol eof2_cfg eof2_state)
    by (unfold at_eof_off_bol, eof2_cfg; simpl; repeat split; lia).
  split; [exact H1|]. split; [exact H2|].
  apply (parse_empty_lines_from_end_eof_diverges eof2_cfg eof2_state H1 H2).
Defined.

Lemma parse_empty_line_state_in : forall cfg ov st e st',
  state_in cfg st -> parse_empty_line cfg ov st = (Ok (Some e), st') -> state_in cfg st'.
Proof.
  intros cfg ov st e st' Hst H.
  apply parse_empty_line_inv' in H as (s1 & s2 & s3 & H1 & H2 & H3 & H4 & _).
  destruct (parse_indent_slice _ _ _ _ _ Hst H1) as (Hs1 & _).
  destruct (parse_simple_whitespace_slice _ _ _ _ Hs1 H2) as (Hs2 & _).
  destruct (parse_comment_slice _ _ _ _ Hs2 H3) as (Hs3 & _).
  destruct (parse_newline_slice _ _ _ _ Hs3 H4) as (Hs4 & _). exact Hs4.
Qed.

Lemma starts_with_nil : forall s, starts_with s [] = true.
Proof. destruct s; reflexivity. Qed.

Lemma parse_empty_line_root_real : forall cfg st e st',
  state_in cfg st -> parse_empty_line cfg (Some []) st = (Ok (Some e), st') ->
  is_fake_line e = false -> el_indent e = true /\ el_indentation e = Some [].
Proof.
  intros cfg st e st' Hst H Hreal.
  apply parse_empty_line_inv' in H as (s1 & s2 & s3 & H1 & H2 & H3 & H4 & Hi).
  assert (Hind : el_indent e = true).
  { destruct (column_byte st =? 0) eqn:Ec.
    - apply Nat.eqb_eq in Ec. pose proof Hst as (_ & Hl & _ & _).
      unfold parse_indent, bind, get in H1. rewrite Ec in H1. simpl in H1.
      unfold bind, lift, get_line_after_column in H1.
      rewrite (get_line_nth cfg (line st) Hl) in H1. simpl in H1.
      rewrite starts_with_nil in H1. simpl in H1. cbv [ret] in H1. congruence.
    - apply Nat.eqb_neq in Ec.
      destruct (el_indent e) eqn:Ei; [reflexivity|].
      destruct (parse_indent_slice _ _ _ _ _ Hst H1) as (_ & _ & _ & _ & Hsame).
      specialize (Hsame eq_refl). subst s1.
      assert (Heof : at_eof_off_bol cfg st).
      { unfold parse_indent, bind, get in H1. apply Nat.eqb_neq in Ec. rewrite Ec in H1.
        simpl in H1. pose proof Hst as (_ & Hl & _ & _).
        unfold bind, lift in H1. rewrite (get_line_nth cfg (line st) Hl) in H1.
        apply Nat.eqb_neq in Ec.
        destruct (column_byte st =? length (nth (line st - 1) (lines cfg) [])) eqn:E1;
          destruct (line st =? length (lines cfg)) eqn:E2; simpl in H1; try discriminate.
        apply Nat.eqb_eq in E1, E2. split; [exact E2|]. split; [exact E1|exact Ec]. }
      rewrite (parse_simple_whitespace_eof _ _ Hst Heof) in H2. injection H2 as _ <-.
      rewrite (parse_comment_eof _ _ Hst Heof) in H3. injection H3 as _ <-.
      rewrite (parse_newline_eof _ _ Hst Heof) in H4. injection H4 as Hn _.
      unfold is_fake_line in Hreal. rewrite <- Hn in Hreal. discriminate. }
  rewrite Hi, Hind. split; reflexivity.
Qed.

Lemma all_empty_lines_loop_root : forall cfg fuel acc st res st',
  state_in cfg st ->
  all_empty_lines_loop cfg fuel (Some []) acc st = (Ok res, st') ->
  exists added, res = acc ++ added /\
    forall p, In p added -> is_fake_line (snd p) = false ->
      el_indent (snd p) = true /\ el_indentation (snd p) = Some [].
Proof.
  intros cfg fuel. induction fuel as [|k IH]; intros acc st res st' Hst H; [discriminate|].
  cbn [all_empty_lines_loop] in H.
  apply bind_ok in H as (r & s1 & Hr & H).
  destruct r as [e|].
  2:{ cbv [ret] in H. injection H as <- _. exists []. rewrite app_nil_r. split; [reflexivity|].
      intros p []. }
  apply bind_ok in H as (s & s2 & Hs & H). injection Hs as <- <-.
  pose proof (parse_empty_line_root_real _ _ _ _ Hst Hr) as Hp.
  pose proof (parse_empty_line_state_in _ _ _ _ _ Hst Hr) as Hs1.
  destruct (is_fake_line e) eqn:Ef.
  - cbv [ret] in H. injection H as <- _. exists [(s1, e)]. split; [reflexivity|].
    intros p [<-|[]]. simpl. intros Hf. congruence.
  - destruct (IH _ _ _ _ Hs1 H) as (added & -> & Hadd).
    exists ((s1, e) :: added). rewrite <- app_assoc. split; [reflexivity|].
    intros p [<-|Hin]; [simpl; intros _; exact (Hp eq_refl)|exact (Hadd p Hin)].
Qed.

(** Every real line that [parse_all_empty_lines] returns is indented at the
    root level: its [indent] is set and its [indentation] is [Some ""]. *)
Theorem parse_all_empty_lines_real_indented : forall cfg st ls st',
  state_in cfg st -> parse_all_empty_lines cfg st = (Ok ls, st') ->
  forall e, In e ls -> is_fake_line e = false ->
  el_indent e = true /\ el_indentation e = Some [].
Proof.
  intros cfg st ls st' Hst H e Hin Hreal.
  unfold parse_all_empty_lines, _parse_all_empty_lines in H.
  apply bind_ok in H as (v & s & Hv & H). cbv [ret] in H. injection H as <- _.
  destruct (all_empty_lines_loop_root _ _ _ _ _ _ Hst Hv) as (added & -> & Hadd).
  apply in_map_iff in Hin as (p & <- & Hp). exact (Hadd p Hp Hreal).
Qed.

Lemma parse_all_empty_lines_real_indented_witness :
  state_in root_cfg root_state /\
  parse_all_empty_lines root_cfg root_state = (Ok root_lines, mkState 2 4 4 (s_ "  ") false 5) /\
  el_indent (hd fake_empty_line root_lines) = true /\
  el_indentation (hd fake_empty_line root_lines) = Some [].
Proof.
  assert (Hst : state_in root_cfg root_state) by (unfold state_in; simpl; repeat split; lia).
  assert (H : parse_all_empty_lines root_cfg root_state
              = (Ok root_lines, mkState 2 4 4 (s_ "  ") false 5)) by (vm_compute; reflexivity).
  split; [exact Hst|]. split; [exact H|].
  apply (parse_all_empty_lines_real_indented root_cfg root_state root_lines _ Hst H).
  - left. reflexivity.
  - reflexivity.
Defined.

Lemma keeps_then : forall f g, keeps f -> keeps g -> keeps (f >>> g).
Proof.
  intros f g Hf Hg cs cs' H. unfold cg_then in H.
  destruct (f cs) as [cs1|] eqn:E1; [|discriminate].
  destruct (Hf _ _ E1) as [t1 ->]. destruct (Hg _ _ H) as [t2 ->].
  exists (t1 ++ t2). apply add_token_add_token.
Qed.

Lemma keeps_appends : forall f o, appends f o -> keeps f.
Proof. intros f o Hf cs cs' H. rewrite Hf in H. injection H as <-. exists o. reflexivity. Qed.

Lemma keeps_skip : keeps cg_skip.
Proof. exact (keeps_appends _ _ appends_skip). Qed.

Lemma keeps_emit : forall s, keeps (emit s).
Proof. intros s. exact (keeps_appends _ _ (appends_emit s)). Qed.

Lemma keeps_add_indent : keeps cg_add_indent.
Proof. intros cs cs' H. injection H as <-. eexists. reflexivity. Qed.

Lemma keeps_panic : keeps (fun _ => None).
Proof. intros cs cs' H. discriminate. Qed.

Lemma keeps_all : forall {A} (f : A -> CG) xs, (forall x, In x xs -> keeps (f x)) ->
  keeps (cg_all f xs).
Proof.
  intros A f xs. induction xs as [|x xs IH]; intros H; simpl; [exact keeps_skip|].
  apply keeps_then; [apply H; left; reflexivity|apply IH; intros y Hy; apply H; right; exact Hy].
Qed.

Lemma keeps_all' : forall {A} (f : A -> CG) xs, (forall x, keeps (f x)) -> keeps (cg_all f xs).
Proof. intros. apply keeps_all. auto. Qed.

Lemma keeps_enum : forall {A} (f : nat -> A -> CG) xs i, (forall j x, keeps (f j x)) ->
  keeps (cg_enum f i xs).
Proof.
  intros A f xs. induction xs as [|x xs IH]; intros i H; simpl; [exact keeps_skip|].
  apply keeps_then; auto.
Qed.

Lemma keeps_newline : forall n, keeps (newline_codegen n).
Proof.
  intros [v f] cs cs' H. unfold newline_codegen in H.
  destruct f, v; injection H as <-;
    first [exists []; symmetry; apply add_token_nil | eexists; reflexivity].
Qed.

Lemma keeps_default_newline : keeps (fun cs => Some (add_token (cs_default_newline cs) cs)).
Proof. intros cs cs' H. injection H as <-. eexists. reflexivity. Qed.

Lemma keeps_trailing : forall t, keeps (trailing_whitespace_codegen t).
Proof.
  intros t cs cs' H. rewrite trailing_whitespace_codegen_text in H. injection H as <-.
  eexists. reflexivity.
Qed.

Lemma keeps_empty_line : forall e, keeps (empty_line_codegen e).
Proof.
  intros e. unfold empty_line_codegen.
  repeat simple apply keeps_then.
  - destruct (el_indent e); [exact keeps_add_indent|exact keeps_skip].
  - apply keeps_emit.
  - destruct (el_comment e); [apply keeps_emit|exact keeps_skip].
  - apply keeps_newline.
Qed.

Lemma keeps_parenthesizable : forall w, keeps (parenthesizable_whitespace_codegen w).
Proof.
  intros [w|[f l i w]]; unfold parenthesizable_whitespace_codegen; [apply keeps_emit|].
  unfold parenthesized_whitespace_codegen; cbn [pw_first_line pw_empty_lines pw_indent pw_last_line].
  repeat simple apply keeps_then.
  - apply keeps_trailing.
  - apply keeps_all'. apply keeps_empty_line.
  - destruct i; [exact keeps_add_indent|exact keeps_skip].
  - apply keeps_emit.
Qed.

Lemma keeps_parenthesize : forall l r f, keeps f -> keeps (parenthesize l r f).
Proof.
  intros l r f Hf. unfold parenthesize. repeat simple apply keeps_then; auto.
  - apply keeps_all'. intros p. apply keeps_then; [apply keeps_emit|apply keeps_parenthesizable].
  - apply keeps_all'. intros p. apply keeps_then; [apply keeps_parenthesizable|apply keeps_emit].
Qed.

Lemma keeps_expression : forall e, keeps (expression_codegen e).
Proof.
  induction e; simpl; try exact keeps_panic.
  - apply keeps_emit.
  - apply keeps_parenthesize, keeps_emit.
  - apply keeps_parenthesize. repeat simple apply keeps_then; auto. apply keeps_emit.
Qed.

Lemma keeps_name : forall n, keeps (name_codegen n).
Proof. intros n. apply keeps_parenthesize, keeps_emit. Qed.

Section Frame.

Variable cc : Comma -> CG.
Variable ac : AssignEqual -> CG.
Hypothesis Hcc : forall c, keeps (cc c).
Hypothesis Hac : forall a, keeps (ac a).

Lemma keeps_param : forall p ds dc, keeps (param_codegen cc ac p ds dc).
Proof.
  intros p ds dc. unfold param_codegen. repeat simple apply keeps_then.
  - destruct (param_star p), ds; try apply keeps_emit; exact keeps_skip.
  - apply keeps_parenthesizable.
  - apply keeps_name.
  - destruct (param_equal p), (param_default p);
      try exact keeps_skip; apply keeps_then; auto using keeps_emit, keeps_expression.
  - destruct (param_comma p); auto. destruct dc; [apply keeps_emit|exact keeps_skip].
  - apply keeps_parenthesizable.
Qed.

Lemma keeps_parameters : forall ps, keeps (parameters_codegen cc ac ps).
Proof.
  intros ps. unfold parameters_codegen. repeat simple apply keeps_then.
  - apply keeps_all'. intros p. apply keeps_param.
  - destruct (posonly_ind ps) as [ind|].
    + unfold param_slash_codegen. apply keeps_then; [apply keeps_emit|].
      destruct (slash_comma ind); [auto|].
      match goal with |- keeps (match ?b with _ => _ end) => destruct b end;
        [apply keeps_emit|exact keeps_skip].
    + repeat match goal with |- keeps (if ?b then _ else _) => destruct b end;
        first [apply keeps_emit|exact keeps_skip].
  - apply keeps_enum. intros. apply keeps_param.
  - destruct (star_arg ps) as [[s|p]|].
    + unfold param_star_codegen. apply keeps_then; auto using keeps_emit.
    + apply keeps_param.
    + match goal with |- keeps (if ?b then _ else _) => destruct b end;
        [apply keeps_emit|exact keeps_skip].
  - apply keeps_enum. intros. apply keeps_param.
  - destruct (star_kwarg ps); [apply keeps_param|exact keeps_skip].
Qed.

Lemma keeps_decorator : forall d, keeps (decorator_codegen d).
Proof.
  intros d. unfold decorator_codegen. repeat simple apply keeps_then.
  - apply keeps_all'. apply keeps_empty_line.
  - exact keeps_add_indent.
  - apply keeps_emit.
  - apply keeps_emit.
  - apply keeps_name.
  - apply keeps_trailing.
Qed.

Lemma keeps_small : forall b, keeps (small_statement_codegen b).
Proof.
  intros []; simpl; try apply keeps_emit; try exact keeps_panic. apply keeps_expression.
Qed.

Lemma keeps_simple_body : forall body t, keeps (_simple_statement_codegen body t).
Proof.
  intros body t. unfold _simple_statement_codegen. repeat simple apply keeps_then.
  - apply keeps_all'. apply keeps_small.
  - destruct body; [apply keeps_emit|exact keeps_skip].
  - apply keeps_trailing.
Qed.

Lemma dedent_indent : forall i t cs,
  dedent (add_token t (indent i cs)) = add_token t cs.
Proof.
  intros i t [tk it dn di]. unfold dedent, add_token, indent; simpl.
  rewrite removelast_last. reflexivity.
Qed.

Lemma cg_then_some : forall f g cs cs', (f >>> g) cs = Some cs' ->
  exists cs1, f cs = Some cs1 /\ g cs1 = Some cs'.
Proof.
  intros f g cs cs' H. unfold cg_then in H. destruct (f cs) as [cs1|]; [|discriminate].
  exists cs1. split; [reflexivity|exact H].
Qed.

Lemma keeps_block : forall header i body footer,
  keeps (cg_all (statement_codegen cc ac) body) ->
  keeps (suite_codegen cc ac (IndentedBlock body header i footer)).
Proof.
  intros header i body footer Hbody cs cs' H. simpl in H.
  apply cg_then_some in H as (cs4 & H & E5). injection E5 as <-.
  apply cg_then_some in H as (cs3 & H & E4).
  apply cg_then_some in H as (cs2 & H & E3).
  apply cg_then_some in H as (cs1 & E1 & E2).
  destruct (keeps_trailing _ _ _ E1) as [t1 ->].
  destruct i as [i|]; [|discriminate]. injection E2 as <-.
  assert (Hmid : keeps (match body with
           | [] => cg_add_indent >>> emit (s_ "pass")
                   >>> (fun cs => Some (add_token (cs_default_newline cs) cs))
           | _ => cg_all (statement_codegen cc ac) body end)).
  { destruct body; [|exact Hbody].
    repeat simple apply keeps_then; auto using keeps_add_indent, keeps_emit, keeps_default_newline. }
  destruct (Hmid _ _ E3) as [t2 ->].
  destruct (keeps_all' _ footer keeps_empty_line _ _ E4) as [t3 ->].
  exists (t1 ++ t2 ++ t3). rewrite add_token_add_token, dedent_indent, add_token_add_token.
  reflexivity.
Qed.

Ltac keeps_leaf := first
  [ exact keeps_skip | exact keeps_add_indent | exact keeps_panic
  | apply keeps_emit | apply keeps_trailing | apply keeps_name
  | apply keeps_parenthesizable | apply keeps_expression | apply keeps_default_newline
  | apply keeps_decorator | apply keeps_parameters | apply keeps_simple_body
  | apply keeps_all'; first [apply keeps_empty_line | apply keeps_decorator] ].

Ltac keeps_tac := repeat first [keeps_leaf | simple apply keeps_then].

Lemma keeps_statement : forall s, keeps (statement_codegen cc ac s)
with keeps_compound : forall c, keeps (compound_statement_codegen cc ac c)
with keeps_function_def : forall f, keeps (function_def_codegen cc ac f)
with keeps_suite : forall s, keeps (suite_codegen cc ac s)
with keeps_if : forall i, keeps (if_codegen cc ac i)
with keeps_or_else : forall o, keeps (or_else_codegen cc ac o)
with keeps_else : forall e, keeps (else_codegen cc ac e).
Proof.
  - intros [s|c]; cbn [statement_codegen].
    + unfold simple_statement_line_codegen. keeps_tac.
    + apply keeps_compound.
  - intros [f|i]; cbn [compound_statement_codegen]; [apply keeps_function_def|apply keeps_if].
  - intros [name ps body ll lad decs wad wan wbp wbc]; cbn [function_def_codegen].
    keeps_tac. apply keeps_suite.
  - intros [body header i footer|s].
    + apply keeps_block.
      induction body as [|x xs IH]; cbn [cg_all]; [exact keeps_skip|].
      simple apply keeps_then; [apply keeps_statement|exact IH].
    + cbn [suite_codegen]. unfold simple_statement_suite_codegen. keeps_tac.
  - intros [test body orelse ll wbt wat el]; cbn [if_codegen].
    keeps_tac.
    + apply keeps_suite.
    + destruct orelse; [apply keeps_or_else|exact keeps_skip].
  - intros [i|e]; cbn [or_else_codegen]; [apply keeps_if|apply keeps_else].
  - intros [body ll wbc]; cbn [else_codegen]. keeps_tac. apply keeps_suite.
Qed.

End Frame.

(** ** Parameter lists *)

Lemma sep_items_app : forall xs ys more,
  sep_items (xs ++ ys) more = sep_items xs (more || negb (is_nil ys)) ++ sep_items ys more.
Proof.
  induction xs as [|x xs IH]; intros ys more; [reflexivity|].
  destruct xs as [|x2 xs].
  - destruct ys as [|y ys].
    + simpl. rewrite orb_false_r, !app_nil_r. reflexivity.
    + change (x ++ s_ ", " ++ sep_items (y :: ys) more =
              (x ++ (if more || true then s_ ", " else [])) ++ sep_items (y :: ys) more).
      rewrite orb_true_r, <- app_assoc. reflexivity.
  - change (x ++ s_ ", " ++ sep_items ((x2 :: xs) ++ ys) more =
            (x ++ s_ ", " ++ sep_items (x2 :: xs) (more || negb (is_nil ys)))
            ++ sep_items ys more).
    rewrite IH, !app_assoc. reflexivity.
Qed.

Lemma sep_items_cons_true : forall x xs,
  sep_items (x :: xs) true = x ++ s_ ", " ++ sep_items xs true.
Proof. intros x [|y ys]; simpl; [rewrite ?app_nil_r|]; reflexivity. Qed.

Lemma sep_items_all_true : forall xs,
  sep_items xs true = concat (map (fun x => x ++ s_ ", ") xs).
Proof.
  induction xs as [|x xs IH]; [reflexivity|].
  rewrite sep_items_cons_true, IH. cbn [map concat]. rewrite app_assoc. reflexivity.
Qed.

Lemma empty_ws_appends : appends (parenthesizable_whitespace_codegen
                                    (PSimpleWhitespace (mkSimpleWhitespace []))) [].
Proof. exact (appends_emit []). Qed.

Lemma name_codegen_bare : forall n, name_lpar n = [] -> name_rpar n = [] ->
  appends (name_codegen n) (name_value n).
Proof.
  intros n Hl Hr cs. unfold name_codegen, parenthesize. rewrite Hl, Hr.
  reflexivity.
Qed.

Section Params.

Variable cc : Comma -> CG.
Variable ac : AssignEqual -> CG.

Lemma param_codegen_bare : forall p ds dc, bare_param p ->
  appends (param_codegen cc ac p ds dc)
    (match ds with Some s => s | None => [] end ++ pname p
     ++ (if dc then s_ ", " else [])).
Proof.
  intros p ds dc (Hs & He & Hd & Hc & Hw1 & Hw2 & Hl & Hr).
  unfold param_codegen. rewrite Hs, He, Hd, Hc, Hw1, Hw2.
  replace (match ds with Some s => s | None => [] end ++ pname p ++ (if dc then s_ ", " else []))
    with (((((match ds with Some s => s | None => [] end ++ []) ++ pname p) ++ [])
             ++ (if dc then s_ ", " else [])) ++ [])
    by (rewrite !app_nil_r, app_assoc; reflexivity).
  repeat apply appends_then.
  - destruct ds; [apply appends_emit|apply appends_skip].
  - apply empty_ws_appends.
  - apply name_codegen_bare; assumption.
  - apply appends_skip.
  - destruct dc; [apply appends_emit|apply appends_skip].
  - apply empty_ws_appends.
Qed.

Lemma cg_all_posonly : forall xs, (forall p, In p xs -> bare_param p) ->
  appends (cg_all (fun p => param_codegen cc ac p None true) xs)
    (sep_items (map pname xs) true).
Proof.
  induction xs as [|x xs IH]; intros H; [exact appends_skip|].
  simpl map. rewrite sep_items_cons_true, app_assoc. simpl cg_all.
  apply appends_then; [|apply IH; intros; apply H; right; assumption].
  apply (param_codegen_bare x None true). apply H. left. reflexivity.
Qed.

Lemma cg_enum_params : forall xs i N b,
  N = i + length xs -> (forall p, In p xs -> bare_param p) ->
  appends (cg_enum (fun j p => param_codegen cc ac p None (b || (j <? N - 1))) i xs)
    (sep_items (map pname xs) b).
Proof.
  induction xs as [|x xs IH]; intros i N b HN H; [exact appends_skip|].
  cbn [cg_enum].
  assert (Hx := param_codegen_bare x None (b || (i <? N - 1)) ltac:(apply H; left; reflexivity)).
  cbv beta iota in Hx. rewrite app_nil_l in Hx.
  assert (Hr := IH (S i) N b ltac:(simpl in HN; lia)
                  ltac:(intros; apply H; right; assumption)).
  pose proof (appends_then _ _ _ _ Hx Hr) as Hxr.
  destruct xs as [|x2 xs].
  - cbn [length] in HN. replace (i <? N - 1) with false in Hxr |- * by (symmetry; apply Nat.ltb_ge; lia).
    rewrite orb_false_r in Hxr |- *. cbn [map sep_items] in Hxr |- *. rewrite app_nil_r in Hxr.
    exact Hxr.
  - cbn [length] in HN. replace (i <? N - 1) with true in Hxr |- * by (symmetry; apply Nat.ltb_lt; lia).
    rewrite orb_true_r in Hxr |- *. cbn [map] in Hxr |- *.
    change (sep_items (pname x :: pname x2 :: map pname xs) b)
      with (pname x ++ s_ ", " ++ sep_items (pname x2 :: map pname xs) b).
    rewrite !app_assoc. rewrite ?app_assoc in Hxr. exact Hxr.
Qed.

End Params.

Lemma sep_items_single : forall x b, sep_items [x] b = x ++ (if b then s_ ", " else []).
Proof. reflexivity. Qed.

Lemma layout_eq : forall (qs ps ks : list Param) (kw : option Param),
  join_items (map pname qs ++ (if is_nil qs then [] else [s_ "/"]) ++ map pname ps
              ++ (if is_nil ks then [] else [s_ "*"]) ++ map pname ks
              ++ (match kw with Some p => [s_ "**" ++ pname p] | None => [] end)) =
  sep_items (map pname qs) true
  ++ (if is_nil qs then []
      else s_ "/" ++ (if negb (is_nil ps) || (negb (is_nil ks) || is_some kw)
                      then s_ ", " else []))
  ++ sep_items (map pname ps) (negb (is_nil ks) || is_some kw)
  ++ (if negb (is_nil ks) then s_ "*, " else [])
  ++ sep_items (map pname ks) (is_some kw)
  ++ (match kw with Some p => s_ "**" ++ pname p ++ [] | None => [] end).
Proof.
  intros qs ps ks kw. unfold join_items. rewrite !sep_items_app.
  destruct qs as [|q qs], ps as [|p ps], ks as [|k ks], kw as [w|];
    cbn [is_nil negb orb is_some app map]; rewrite ?sep_items_single;
    cbn [negb orb andb];
    try reflexivity.
Qed.

Lemma is_nil_map : forall A B (f : A -> B) l, is_nil (map f l) = is_nil l.
Proof. intros A B f []; reflexivity. Qed.

(** Without explicit commas, a [ParamSlash] or a [*args], the parameters are
    written as their items joined by [", "]: the positional-only names, ["/"],
    the names, ["*"] when keyword-only parameters follow, those names and
    ["**kwargs"]. *)
Theorem parameters_codegen_layout : forall cc ac ps,
  posonly_ind ps = None -> star_arg ps = None ->
  (forall p, In p (posonly_params ps ++ params ps ++ kwonly_params ps) -> bare_param p) ->
  (forall p, star_kwarg ps = Some p -> bare_param p) ->
  appends (parameters_codegen cc ac ps) (join_items (param_items ps)).
Proof.
  intros cc ac [qs sa ks kw ps ind] Hind Hsa Hbare Hkw. cbn in Hind, Hsa, Hbare, Hkw.
  subst ind sa.
  assert (Hps : forall p, In p ps -> bare_param p)
    by (intros; apply Hbare; apply in_or_app; left; assumption).
  assert (Hqs : forall p, In p qs -> bare_param p)
    by (intros; apply Hbare; apply in_or_app; right; apply in_or_app; left; assumption).
  assert (Hks : forall p, In p ks -> bare_param p)
    by (intros; apply Hbare; apply in_or_app; right; apply in_or_app; right; assumption).
  unfold param_items. cbn [posonly_params params kwonly_params star_arg star_kwarg].
  rewrite layout_eq.
  unfold parameters_codegen. cbn [posonly_params params kwonly_params star_arg star_kwarg
                                  posonly_ind].
  rewrite !app_assoc.
  repeat apply appends_then.
  - apply cg_all_posonly. exact Hps.
  - destruct (is_nil ps); [apply appends_skip|].
    cbn [negb]. destruct (_ || _); [apply appends_emit|rewrite app_nil_r; apply appends_emit].
  - apply cg_enum_params; [lia|exact Hqs].
  - destruct (is_nil ks); [apply appends_skip|apply appends_emit].
  - apply cg_enum_params; [lia|exact Hks].
  - destruct kw as [p|]; [|apply appends_skip].
    apply (param_codegen_bare cc ac p (Some (s_ "**")) false). apply Hkw. reflexivity.
Qed.

(** With a [*args] right after the regular parameters and nothing after it,
    no comma separates the last regular parameter from the star: [a] and
    [*b] are written [a*b]. *)
Theorem parameters_codegen_star_arg_no_comma : forall cc ac a b,
  bare_param a -> bare_param b ->
  appends (parameters_codegen cc ac (mkParameters [a] (Some (StarParam b)) [] None [] None))
    (pname a ++ s_ "*" ++ pname b).
Proof.
  intros cc ac a b Ha Hb cs. unfold parameters_codegen; cbn -[param_codegen].
  unfold cg_then, cg_skip.
  rewrite (param_codegen_bare cc ac a None false Ha cs).
  rewrite (param_codegen_bare cc ac b (Some (s_ "*")) false Hb).
  rewrite add_token_add_token, !app_nil_r, app_nil_l. reflexivity.
Qed.

(** ** Indented blocks *)

Lemma empty_lines_codegen_text : forall footer cs,
  cg_all empty_line_codegen footer cs =
  Some (add_token (concat (map (fun e => empty_line_text e (concat (cs_indent_tokens cs))
                                           (cs_default_newline cs)) footer)) cs).
Proof.
  induction footer as [|e footer IH]; intros cs.
  - simpl. unfold cg_skip. rewrite add_token_nil. reflexivity.
  - cbn [cg_all map concat]. unfold cg_then. rewrite empty_line_codegen_text, IH.
    cbn [cs_indent_tokens cs_default_newline add_token]. rewrite add_token_add_token.
    reflexivity.
Qed.

(** An [IndentedBlock] with an empty body is written as its header, then a
    [pass] line at the block's indentation (the enclosing indentation
    followed by the block's own), then its footer lines, which are still
    indented at the block's level; the indent stack is restored afterwards.
    Without an explicit indent the code panics ([todo!()]). *)
Theorem indented_block_empty_body : forall cc ac header footer cs,
  (forall i, suite_codegen cc ac (IndentedBlock [] header (Some i) footer) cs =
     Some (add_token
             (trailing_whitespace_text header (cs_default_newline cs)
              ++ concat (cs_indent_tokens cs) ++ i ++ s_ "pass" ++ cs_default_newline cs
              ++ concat (map (fun e => empty_line_text e (concat (cs_indent_tokens cs) ++ i)
                                         (cs_default_newline cs)) footer)) cs)) /\
  suite_codegen cc ac (IndentedBlock [] header None footer) cs = None.
Proof.
  intros cc ac header footer cs. split.
  - intros i. cbn [suite_codegen]. unfold cg_then at 1 2 3 4.
    rewrite trailing_whitespace_codegen_text.
    unfold cg_then, cg_add_indent, emit.
    rewrite empty_lines_codegen_text.
    destruct cs as [tk it dn di]. unfold indent, dedent, add_indent, add_token; cbn.
    rewrite removelast_last, concat_app. cbn. rewrite app_nil_r, <- !app_assoc. reflexivity.
  - cbn [suite_codegen]. unfold cg_then. rewrite trailing_whitespace_codegen_text.
    reflexivity.
Qed.

(** ** Decorators *)

#[local] Instance cg_eq_equiv : Equivalence cg_eq.
Proof.
  split.
  - intros f cs. reflexivity.
  - intros f g H cs. symmetry. apply H.
  - intros f g h H1 H2 cs. rewrite H1. apply H2.
Qed.

#[local] Instance cg_then_proper : Proper (cg_eq ==> cg_eq ==> cg_eq) cg_then.
Proof.
  intros f f' Hf g g' Hg cs. unfold cg_then. rewrite Hf.
  destruct (f' cs); [apply Hg|reflexivity].
Qed.

Lemma cg_then_assoc : forall f g h, cg_eq ((f >>> g) >>> h) (f >>> (g >>> h)).
Proof. intros f g h cs. unfold cg_then. destruct (f cs); reflexivity. Qed.

Lemma cg_skip_l : forall f, cg_eq (cg_skip >>> f) f.
Proof. intros f cs. reflexivity. Qed.

Lemma cg_skip_r : forall f, cg_eq (f >>> cg_skip) f.
Proof. intros f cs. unfold cg_then, cg_skip. destruct (f cs); reflexivity. Qed.

Lemma function_def_codegen_eq : forall cc ac name ps body ll lad decs wad wan wbp wbc,
  function_def_codegen cc ac (mkFunctionDef name ps body ll lad decs wad wan wbp wbc) =
  cg_all empty_line_codegen ll
  >>> cg_all decorator_codegen decs
  >>> cg_all empty_line_codegen lad
  >>> cg_add_indent
  >>> emit (s_ "def")
  >>> simple_whitespace_codegen wad
  >>> name_codegen name
  >>> simple_whitespace_codegen wan
  >>> emit (s_ "(")
  >>> parenthesizable_whitespace_codegen wbp
  >>> parameters_codegen cc ac ps
  >>> emit (s_ ")")
  >>> simple_whitespace_codegen wbc
  >>> emit (s_ ":")
  >>> suite_codegen cc ac body.
Proof. reflexivity. Qed.

(** [with_decorators] moves the first decorator's leading lines in front of
    the function and the function's leading lines after the decorators: on a
    function built without decorators, the code generated for the result is
    the decorators' followed by the function's. *)
Theorem with_decorators_codegen : forall cc ac f decs,
  fd_decorators f = [] -> fd_lines_after_decorators f = [] ->
  cg_eq (function_def_codegen cc ac (with_decorators f decs))
        (cg_all decorator_codegen decs >>> function_def_codegen cc ac f).
Proof.
  intros cc ac [name ps body ll lad decs0 wad wan wbp wbc] decs Hd Hl.
  cbn in Hd, Hl. subst decs0 lad.
  destruct decs as [|d ds].
  - cbn [with_decorators]. rewrite !function_def_codegen_eq. cbn [cg_all].
    rewrite !cg_skip_l, !cg_skip_r. reflexivity.
  - cbn [with_decorators]. rewrite !function_def_codegen_eq. cbn [cg_all].
    unfold decorator_codegen. cbn [dec_leading_lines dec_whitespace_after_at
                                   dec_decorator dec_trailing_whitespace cg_all].
    rewrite !cg_skip_l, !cg_skip_r.
    repeat rewrite cg_then_assoc. reflexivity.
Qed.

(** ** The frame of statement code generation *)

(** With comma and assign-equal printers that only append, code generation
    of a statement only appends to the buffer: on success the indent stack
    and the defaults are as before. *)
Theorem statement_codegen_frame : forall cc ac,
  (forall c, keeps (cc c)) -> (forall a, keeps (ac a)) ->
  forall s cs cs', statement_codegen cc ac s cs = Some cs' ->
  exists t, cs' = add_token t cs.
Proof.
  intros cc ac Hcc Hac s. exact (keeps_statement cc ac Hcc Hac s).
Qed.

Lemma statement_codegen_frame_witness :
  statement_codegen w_cc w_ac w_def default_codegen_state =
    Some (mkCodegenState (s_ "def f():" ++ [NL] ++ s_ "    pass" ++ [NL]) [] [NL] (s_ "    ")) /\
  exists t, mkCodegenState (s_ "def f():" ++ [NL] ++ s_ "    pass" ++ [NL]) [] [NL] (s_ "    ")
            = add_token t default_codegen_state.
Proof.
  split; [vm_compute; reflexivity|].
  apply (statement_codegen_frame w_cc w_ac
           (fun c cs cs' H => ex_intro _ (s_ ", ") (eq_sym (f_equal (fun o => match o with Some x => x | None => cs end) H)))
           (fun a cs cs' H => ex_intro _ (s_ "=") (eq_sym (f_equal (fun o => match o with Some x => x | None => cs end) H)))
           w_def default_codegen_state).
  vm_compute. reflexivity.
Defined.

(** ** Which expressions can be printed *)

Lemma total_appends : forall f o, appends f o -> total f.
Proof. intros f o H cs. eexists. apply H. Qed.

Lemma total_then : forall f g, total f -> total g -> total (f >>> g).
Proof.
  intros f g Hf Hg cs. unfold cg_then. destruct (Hf cs) as [cs1 ->]. apply Hg.
Qed.

Lemma total_all : forall {A} (f : A -> CG) xs, (forall x, total (f x)) -> total (cg_all f xs).
Proof.
  intros A f xs H. induction xs as [|x xs IH]; simpl.
  - intros cs. exists cs. reflexivity.
  - apply total_then; auto.
Qed.

Lemma total_parenthesizable : forall w, total (parenthesizable_whitespace_codegen w).
Proof.
  intros [w|[f l i w]] cs; unfold parenthesizable_whitespace_codegen.
  - eexists. reflexivity.
  - unfold parenthesized_whitespace_codegen, cg_then; cbn [pw_first_line pw_empty_lines pw_indent pw_last_line].
    rewrite trailing_whitespace_codegen_text, empty_lines_codegen_text.
    destruct i; eexists; reflexivity.
Qed.

Lemma total_parens : forall lpar rpar,
  total (cg_all left_paren_codegen lpar) /\ total (cg_all right_paren_codegen rpar).
Proof.
  intros lpar rpar. split; apply total_all; intros p.
  - apply total_then; [apply (total_appends _ _ (appends_emit _))|apply total_parenthesizable].
  - apply total_then; [apply total_parenthesizable|apply (total_appends _ _ (appends_emit _))].
Qed.

Lemma parenthesize_none : forall lpar rpar f,
  (forall cs, f cs = None) -> forall cs, parenthesize lpar rpar f cs = None.
Proof.
  intros lpar rpar f Hf cs. unfold parenthesize, cg_then.
  destruct (proj1 (total_parens lpar rpar) cs) as [cs1 ->]. rewrite Hf. reflexivity.
Qed.

Lemma expression_codegen_printable : forall e,
  (printable e = true -> total (expression_codegen e)) /\
  (printable e = false -> forall cs, expression_codegen e cs = None).
Proof.
  induction e; cbn [printable expression_codegen]; split; intros H;
    try discriminate; try (intros cs; reflexivity).
  - apply (total_appends _ _ (appends_emit _)).
  - unfold parenthesize. repeat simple apply total_then;
      first [apply (total_appends _ _ (appends_emit _)) | apply (total_parens _ [])
            | apply (total_parens [] _)].
  - apply andb_true_iff in H as [Hl Hr].
    unfold parenthesize. repeat simple apply total_then;
      first [apply (total_appends _ _ (appends_emit _)) | apply (total_parens _ [])
            | apply (total_parens [] _)
            | apply IHe1; exact Hl | apply IHe2; exact Hr].
  - apply parenthesize_none. intros cs. unfold cg_then, emit.
    destruct (printable e1) eqn:E1.
    + destruct (proj1 IHe1 eq_refl cs) as [cs1 ->]. cbv beta iota. rewrite (proj2 IHe2 H). reflexivity.
    + rewrite (proj2 IHe1 eq_refl). reflexivity.
Qed.

(** [Expression::codegen] panics exactly on the expressions that contain a
    node other than an ellipsis, an integer or a binary operation (a name,
    a float, a comparison, ...), wherever that node is. *)
Theorem expression_codegen_panics_iff : forall e cs,
  expression_codegen e cs = None <-> printable e = false.
Proof.
  intros e cs. destruct (expression_codegen_printable e) as [Ht Hf].
  destruct (printable e) eqn:E; split; intros H; try reflexivity.
  - destruct (Ht eq_refl cs) as [cs' Hs]. congruence.
  - discriminate.
  - apply Hf. reflexivity.
Qed.

(** ** bol_offset and the context window of prettify_error *)

Lemma newline_indices_ge : forall s i x, In x (newline_indices_from i s) -> i <= x.
Proof.
  induction s as [|c s IH]; intros i x H; simpl in H; [contradiction|].
  destruct (Ascii.eqb c NL).
  - destruct H as [<-|H]; [lia|]. specialize (IH _ _ H). lia.
  - specialize (IH _ _ H). lia.
Qed.

Lemma newline_indices_sorted : forall s i j k x y,
  nth_error (newline_indices_from i s) j = Some x ->
  nth_error (newline_indices_from i s) k = Some y -> j < k -> x < y.
Proof.
  induction s as [|c s IH]; intros i j k x y Hj Hk Hjk; simpl in Hj, Hk.
  - destruct j; discriminate.
  - destruct (Ascii.eqb c NL).
    + destruct j as [|j], k as [|k]; simpl in Hj, Hk; try lia.
      * injection Hj as <-. apply nth_error_In, newline_indices_ge in Hk. lia.
      * apply (IH (S i) j k); auto. lia.
    + apply (IH (S i) j k); auto.
Qed.

Lemma newline_indices_lt : forall s j x,
  nth_error (newline_indices_from 0 s) j = Some x -> x < length s.
Proof.
  intros s j x H. destruct (newline_indices_nth s 0 j x H) as (p & -> & Hp & _).
  cbn [Nat.add]. apply nth_error_Some. rewrite Hp. discriminate.
Qed.

(** [bol_offset] is monotone in the line number and never exceeds the
    text's length: for [n <= m], [bol_offset text n <= bol_offset text m <=
    len(text)]. So the window [bol_offset(line - 1)..bol_offset(line + 2)]
    that [prettify_error] slices is a valid range when the error's start
    line is not after its end line. *)
Theorem bol_offset_monotone : forall (text : str) (n m : Z), (n <= m)%Z ->
  bol_offset text n <= bol_offset text m <= length text.
Proof.
  intros text n m Hnm. unfold bol_offset.
  assert (Hb : forall k, match nth_error (newline_indices_from 0 text) k with
                         | Some index => index + 1 | None => length text end <= length text).
  { intros k. destruct (nth_error _ k) as [x|] eqn:E; [|lia].
    apply newline_indices_lt in E. lia. }
  destruct (n <=? 1)%Z eqn:En; [destruct (m <=? 1)%Z; split; try lia; apply Hb|].
  destruct (m <=? 1)%Z eqn:Em.
  - apply Z.leb_gt in En. apply Z.leb_le in Em. lia.
  - apply Z.leb_gt in En, Em. split; [|apply Hb].
    destruct (nth_error (newline_indices_from 0 text) (Z.to_nat (n - 2))) as [x|] eqn:E1,
             (nth_error (newline_indices_from 0 text) (Z.to_nat (m - 2))) as [y|] eqn:E2.
    + destruct (Nat.eq_dec (Z.to_nat (n - 2)) (Z.to_nat (m - 2))) as [He|Hne].
      * rewrite He in E1. rewrite E1 in E2. injection E2 as ->. lia.
      * assert (x < y); [|lia].
        apply (newline_indices_sorted text 0 _ _ x y E1 E2). lia.
    + apply newline_indices_lt in E1. lia.
    + exfalso. apply nth_error_None in E1.
      assert (Hl : Z.to_nat (m - 2) < length (newline_indices_from 0 text))
        by (apply nth_error_Some; rewrite E2; discriminate).
      lia.
    + lia.
Qed.

Lemma bol_offset_monotone_witness :
  bol_offset (s_ "ab" ++ NL :: s_ "cd" ++ [NL]) 2 <= bol_offset (s_ "ab" ++ NL :: s_ "cd" ++ [NL]) 5
  <= length (s_ "ab" ++ NL :: s_ "cd" ++ [NL]).
Proof. apply (bol_offset_monotone (s_ "ab" ++ NL :: s_ "cd" ++ [NL]) 2 5). lia. Defined.

Lemma parameters_codegen_layout_witness :
  appends (parameters_codegen w_cc w_ac w_params) (s_ "a, /, b, *, c, **d").
Proof.
  change (s_ "a, /, b, *, c, **d") with (join_items (param_items w_params)).
  apply (parameters_codegen_layout w_cc w_ac w_params); [reflexivity|reflexivity| |].
  - intros p Hp. cbn in Hp.
    destruct Hp as [<-|[<-|[<-|[]]]]; repeat split.
  - intros p Hp. cbn in Hp. injection Hp as <-. repeat split.
Defined.

Lemma parameters_codegen_star_arg_no_comma_witness :
  appends (parameters_codegen w_cc w_ac
             (mkParameters [w_param (s_ "a")] (Some (StarParam (w_param (s_ "b")))) [] None [] None))
    (s_ "a*b").
Proof.
  change (s_ "a*b") with (pname (w_param (s_ "a")) ++ s_ "*" ++ pname (w_param (s_ "b"))).
  apply (parameters_codegen_star_arg_no_comma w_cc w_ac (w_param (s_ "a")) (w_param (s_ "b")));
    repeat split.
Defined.

Lemma with_decorators_codegen_witness :
  cg_eq (function_def_codegen w_cc w_ac (with_decorators w_fd [w_dec]))
        (cg_all decorator_codegen [w_dec] >>> function_def_codegen w_cc w_ac w_fd).
Proof. apply (with_decorators_codegen w_cc w_ac w_fd [w_dec]); reflexivity. Defined.
